(** * inspectvendor: the import-graph builder and its renderers (dag.go)

    A shallow embedding of [dag.go]: the matcher, the worklist traversal
    ([Scan], [addPkg], [skip]), the four renderers ([WriteText],
    [WriteFlat], [WriteDot], [ShowGraph]) and the command [doDAG] from the
    point where its flags are parsed.  The module [Vendor] embeds the
    vendor-manifest tool of [main.go].

    Go maps are stdpp [gmap]s, the [Std] set a [gset], slices are lists and
    Go strings are [string]s (compared bytewise).  What the program obtains
    from outside (go/build, regexp, os/exec, the temp-file name) is gathered
    in the class [Host]. *)

From Stdlib Require Import ZArith Ascii.
From stdpp Require Import gmap strings sorting pretty.

Local Open Scope Z_scope.

(** ** The pieces of Go's [strings], [sort] and [fmt] that dag.go uses *)

Module GoStrings.

(** [strings.HasPrefix(s, prefix)] *)
Definition HasPrefix (s pre : string) : bool := String.prefix pre s.

(** [strings.Index(s, substr)]: the byte offset of the first occurrence of
    [substr] in [s], or [-1]. *)
Fixpoint Index (s substr : string) : Z :=
  match s with
  | EmptyString => if String.prefix substr EmptyString then 0 else -1
  | String _ s' =>
      if String.prefix substr s then 0
      else let r := Index s' substr in
           if r <? 0 then -1 else 1 + r
  end.

(** [strings.Contains(s, substr)] *)
Definition Contains (s substr : string) : bool := 0 <=? Index s substr.

(** The slice expression [s[n:]]. *)
Fixpoint slice_from (n : nat) (s : string) : string :=
  match n, s with
  | O, _ => s
  | S n', String _ s' => slice_from n' s'
  | S _, EmptyString => EmptyString
  end.

(** [len(s)] as a Go [int]. *)
Definition len (s : string) : Z := Z.of_nat (String.length s).

(** [sort.Strings]: ascending bytewise order.  The order is total and
    antisymmetric, so the outcome does not depend on the algorithm. *)
Definition sort_Strings (l : list string) : list string :=
  merge_sort String.le l.

(** The newline written by the ["\n"] of the format strings. *)
Definition nl : string := String (ascii_of_nat 10) EmptyString.

(** The double quote of [label=\"%s\"]. *)
Definition dq : string := String (ascii_of_nat 34) EmptyString.

(** The verb [%d]. *)
Definition fmt_d (i : Z) : string := pretty i.

(** The verb [%v] on a [[]string]: the elements between brackets, with a
    space between two of them. *)
Fixpoint join_sp (l : list string) : string :=
  match l with
  | [] => EmptyString
  | [x] => x
  | x :: l' => x +:+ " " +:+ join_sp l'
  end.
Definition fmt_v (l : list string) : string := "[" +:+ join_sp l +:+ "]".

End GoStrings.
Import GoStrings.

(** ** Data *)

(** The fields of [build.Package] that dag.go reads. *)
Record Package := mkPackage {
  ImportPath : string;
  Pkg_Imports : list string;
  Goroot : bool
}.

(** The two results of [build.Import]: a package, or a non-nil error (kept
    as its text, which ends up in the log). *)
Inductive ImportResult :=
| ImportOk (p : Package)
| ImportErr (err : string).

(** [*regexp.Regexp], as far as dag.go uses it. *)
Record Regexp := mkRegexp { MatchString : string → bool }.

(** [type matcher struct { re *regexp.Regexp }]; [None] is the nil pointer. *)
Record matcher := mkMatcher { re : option Regexp }.

Record ImportGraph := mkImportGraph {
  Imports : gmap string (list string);
  ImportPaths : gmap string string;
  Std : gset string;
  srcDir : string;
  includeStd : bool;
  todo : list string;
  added : list string
}.

(** An [io.Writer] handed to a renderer: [os.Stdout], or a [bytes.Buffer]
    (identified by its address). *)
Inductive Writer :=
| Stdout
| Buffer (b : nat).

Global Instance Writer_eq_dec : EqDecision Writer.
Proof. solve_decision. Defined.

(** What the process can change outside the graph: the text on standard
    output, the contents of the byte buffers, the lines given to [log], the
    identifiers handed to [build.Import] so far, and the files that exist. *)
Record World := mkWorld {
  stdout : string;
  buffers : gmap nat string;
  logged : list string;
  import_calls : list string;
  files : gset string
}.

(** A Go function either returns or ends the process ([log.Fatalf] exits
    with status 1). *)
Inductive Res (A : Type) :=
| Ret (a : A) (σ : World)
| Exit (code : Z) (σ : World).
Arguments Ret {A} a σ.
Arguments Exit {A} code σ.

Definition M (A : Type) : Type := World → Res A.

Global Instance M_ret : MRet M := λ A a σ, Ret a σ.

Global Instance M_bind : MBind M := λ A B k m σ,
  match m σ with
  | Ret a σ' => k a σ'
  | Exit c σ' => Exit c σ'
  end.

(** A step that only changes the world. *)
Definition lift (f : World → World) : M unit := λ σ, Ret tt (f σ).

(** The world outside the program. *)
Class Host := {
  (** [build.Import(path, srcDir, 0)] *)
  build_Import : string → string → ImportResult;
  (** [regexp.MustCompile]; [None] when the pattern is malformed (a panic) *)
  regexp_Compile : string → option Regexp;
  (** [go list args...]: the lines it prints, or the error of [c.Run()] *)
  go_list : list string → string + list string;
  (** [ioutil.TempFile(dir, prefix)], given the files that exist: the
      error, or the name of the file it creates *)
  ioutil_TempFile : string → string → gset string → string + string;
  (** the error of [c.Run()] for a command, its arguments and its standard
      input; [None] is a nil error *)
  cmd_Run : string → list string → string → option string;
  (** what such a command writes to its standard output while it runs *)
  cmd_Stdout : string → list string → string → string
}.

(** ** World operations *)

Definition set_stdout (s : string) (σ : World) : World :=
  mkWorld s (buffers σ) (logged σ) (import_calls σ) (files σ).
Definition set_buffers (bs : gmap nat string) (σ : World) : World :=
  mkWorld (stdout σ) bs (logged σ) (import_calls σ) (files σ).
Definition set_files (fs : gset string) (σ : World) : World :=
  mkWorld (stdout σ) (buffers σ) (logged σ) (import_calls σ) fs.

(** What has been written to a writer so far (a buffer never written to is
    empty). *)
Definition sink (w : Writer) (σ : World) : string :=
  match w with
  | Stdout => stdout σ
  | Buffer b => default EmptyString (buffers σ !! b)
  end.

(** [fmt.Fprintf(w, ...)] with the formatted text [s]. *)
Definition Fprintf (w : Writer) (s : string) (σ : World) : World :=
  match w with
  | Stdout => set_stdout (stdout σ +:+ s) σ
  | Buffer b => set_buffers (<[b := sink w σ +:+ s]> (buffers σ)) σ
  end.

(** [fmt.Println(p)]: always the process's standard output. *)
Definition Println (p : string) (σ : World) : World :=
  Fprintf Stdout (p +:+ nl) σ.

(** [log.Printf] *)
Definition log_Printf (msg : string) (σ : World) : World :=
  mkWorld (stdout σ) (buffers σ) (logged σ ++ [msg]) (import_calls σ)
    (files σ).

(** [log.Fatalf]: the message, then [os.Exit(1)]. *)
Definition log_Fatalf {A} (msg : string) : M A :=
  λ σ, Exit 1 (log_Printf msg σ).

(** The call [build.Import(pn, dir, 0)] leaves a mark in [import_calls]. *)
Definition note_import (pn : string) (σ : World) : World :=
  mkWorld (stdout σ) (buffers σ) (logged σ) (import_calls σ ++ [pn])
    (files σ).

(** ** The matcher *)

Definition vendor_seg : string := "/vendor/".

Section Program.
Context `{Host}.

Definition newMatcher (p : string) : option matcher :=
  if String.eqb p EmptyString then Some (mkMatcher None)
  else match regexp_Compile p with
       | Some r => Some (mkMatcher (Some r))
       | None => None
       end.

Definition Match (mr : matcher) (pn : string) : bool :=
  match re mr with
  | None => true
  | Some r =>
      let i := Index pn vendor_seg in
      let pn := if 0 <=? i then slice_from (Z.to_nat (i + len vendor_seg)) pn
                else pn in
      MatchString r pn
  end.

(** ** The graph builder *)

Definition set_todo (t : list string) (ig : ImportGraph) : ImportGraph :=
  mkImportGraph (Imports ig) (ImportPaths ig) (Std ig) (srcDir ig)
    (includeStd ig) t (added ig).

Definition skip (ig : ImportGraph) (pn : string) : bool :=
  if String.eqb pn "C" || HasPrefix pn "golang_org/x/" then true
  else if bool_decide (is_Some (Imports ig !! pn)) then true
  else if includeStd ig then
    (if bool_decide (pn ∈ Std ig) then true else false)
  else false.

Definition addPkg (pn : string) (ig : ImportGraph) (σ : World)
  : list string * ImportGraph * World :=
  if skip ig pn then ([], ig, σ)
  else
    let σ := note_import pn σ in
    match build_Import pn (srcDir ig) with
    | ImportErr err =>
        ([], ig, log_Printf ("import pkg=" +:+ pn +:+ " err=" +:+ err) σ)
    | ImportOk p =>
        let std := if Goroot p then {[pn]} ∪ Std ig else Std ig in
        if Goroot p && negb (includeStd ig) then
          ([], mkImportGraph (Imports ig) (ImportPaths ig) std (srcDir ig)
                 (includeStd ig) (todo ig) (added ig), σ)
        else if String.eqb (ImportPath p) EmptyString then
          ([], mkImportGraph (Imports ig) (ImportPaths ig) std (srcDir ig)
                 (includeStd ig) (todo ig) (added ig),
           log_Printf ("pkg=" +:+ pn +:+ " has empty ImportPath") σ)
        else
          let imps := sort_Strings (Pkg_Imports p) in
          let ig' := mkImportGraph (<[pn := imps]> (Imports ig))
                       (<[pn := ImportPath p]> (ImportPaths ig)) std
                       (srcDir ig) (includeStd ig) (todo ig)
                       (added ig ++ [pn]) in
          let more := foldl (λ more pi,
                          if negb (skip ig' pi) then more ++ [pi] else more)
                        [] imps in
          (more, ig', σ)
    end.

(** One turn of the loop of [Scan]; the loop has ended when [todo] is
    empty. *)
Definition Scan_iter (pn : string) (rest : list string)
    (ig : ImportGraph) (σ : World) : ImportGraph * World :=
  let '(more, ig', σ') := addPkg pn ig σ in
  (set_todo (more ++ rest) ig', σ').

(** The loop of [Scan], with a bound [n] on the number of turns: [None] when
    the bound is reached before the worklist is empty. *)
Fixpoint Scan (n : nat) (ig : ImportGraph) (σ : World)
  : option (ImportGraph * World) :=
  match todo ig with
  | [] => Some (ig, σ)
  | pn :: rest =>
      match n with
      | O => None
      | S n' => let '(ig', σ') := Scan_iter pn rest ig σ in
                Scan n' ig' σ'
      end
  end.

(** [Scan] returns [g] in world [σ'] when started on [ig] in [σ]. *)
Definition Scan_returns (ig : ImportGraph) (σ : World)
    (g : ImportGraph) (σ' : World) : Prop :=
  ∃ n, Scan n ig σ = Some (g, σ').

(** [ig.list(args)] (named [ig_list]: [list] is the type of lists) *)
Definition ig_list (args : list string) (ig : ImportGraph) : M ImportGraph :=
  match go_list ("list" :: args) with
  | inl err =>
      log_Fatalf ("exec " +:+ fmt_v ("go" :: "list" :: args)
                  +:+ " err=" +:+ err)
  | inr pkgs => mret (set_todo pkgs ig)
  end.

Definition NewImportGraph (wd : string) (includeStd : bool)
    (args : list string) : M ImportGraph :=
  ig_list args (mkImportGraph ∅ ∅ ∅ wd includeStd [] []).

(** ** The renderers *)

(** The inner loop that WriteText and WriteDot share word for word: the
    imports of [pn] that are kept. *)
Definition filtered (ig : ImportGraph) (mr : matcher) (pn : string)
  : list string :=
  foldl (λ filtered pi,
      if negb (includeStd ig) && bool_decide (pi ∈ Std ig) then filtered
      else if negb (Match mr pi) then filtered
      else filtered ++ [pi])
    [] (default [] (Imports ig !! pn)).

Definition WriteText (ig : ImportGraph) (w : Writer) (mr : matcher)
    (σ : World) : World :=
  foldl (λ σ pn,
      if negb (Match mr pn) then σ
      else
        let filtered := filtered ig mr pn in
        if (length filtered =? 0)%nat then σ
        else
          foldl (λ σ pi, Fprintf w ("    " +:+ pi +:+ nl) σ)
            (Fprintf w
               (pn +:+ " <= "
                +:+ default EmptyString (ImportPaths ig !! pn) +:+ nl) σ)
            filtered)
    σ (added ig).

Definition WriteFlat (ig : ImportGraph) (w : Writer) (mr : matcher)
    (σ : World) : World :=
  let out := foldl (λ out pn, if negb (Match mr pn) then out else out ++ [pn])
               [] (added ig) in
  let out := sort_Strings out in
  foldl (λ σ p, Println p σ) σ out.

(** [for i, pn := range ig.added { nodes[pn] = i }] *)
Fixpoint index_nodes (i : Z) (l : list string) (nodes : gmap string Z)
  : gmap string Z :=
  match l with
  | [] => nodes
  | pn :: l' => index_nodes (i + 1) l' (<[pn := i]> nodes)
  end.

(** The second loop of WriteDot, from index [i] on. *)
Fixpoint WriteDot_loop (ig : ImportGraph) (w : Writer) (mr : matcher)
    (nodes : gmap string Z) (i : Z) (l : list string) (σ : World) : World :=
  match l with
  | [] => σ
  | pn :: l' =>
      let σ' :=
        if negb (Match mr pn) then σ
        else
          let filtered := filtered ig mr pn in
          if (length filtered =? 0)%nat then σ
          else
            let σ1 :=
              if Contains (default EmptyString (ImportPaths ig !! pn))
                   vendor_seg then
                Fprintf w ("    " +:+ fmt_d i +:+ " [label=" +:+ dq +:+ pn
                           +:+ dq +:+ ",style=filled];" +:+ nl) σ
              else
                Fprintf w ("    " +:+ fmt_d i +:+ " [label=" +:+ dq +:+ pn
                           +:+ dq +:+ "];" +:+ nl) σ in
            foldl (λ σ pi,
                Fprintf w ("    " +:+ fmt_d i +:+ " -> "
                           +:+ fmt_d (default 0 (nodes !! pi)) +:+ ";" +:+ nl) σ)
              σ1 filtered in
      WriteDot_loop ig w mr nodes (i + 1) l' σ'
  end.

Definition WriteDot (ig : ImportGraph) (w : Writer) (mr : matcher)
    (σ : World) : World :=
  let nodes := index_nodes 0 (added ig) ∅ in
  let σ := Fprintf w ("digraph pkgdag {" +:+ nl) σ in
  let σ := WriteDot_loop ig w mr nodes 0 (added ig) σ in
  Fprintf w ("}" +:+ nl) σ.

(** [func run].  The command is given the standard output of the process
    ([c.Stdout = os.Stdout]), so what it prints is appended there, whether
    or not it ends with an error.  What it writes to its standard error is
    outside the [World]. *)
Definition run (name : string) (stdin : string) (args : list string)
  : M unit :=
  lift (Fprintf Stdout (cmd_Stdout name args stdin));;
  match cmd_Run name args stdin with
  | Some err =>
      log_Fatalf ("run cmd=" +:+ fmt_v (name :: args) +:+ " err=" +:+ err)
  | None => mret tt
  end.

(** [var buf bytes.Buffer]: a buffer no one else holds. *)
Definition new_Buffer : M nat :=
  λ σ, let b := fresh (dom (buffers σ)) in
       Ret b (set_buffers (<[b := EmptyString]> (buffers σ)) σ).

(** [ioutil.TempFile] with the empty directory name and the prefix
    ["pkgdag-"], followed by the error check of ShowGraph; the file exists
    once the call has succeeded. *)
Definition TempFile_or_die (dir pre : string) : M string :=
  λ σ, match ioutil_TempFile dir pre (files σ) with
       | inl err => log_Fatalf ("create tempfile err=" +:+ err) σ
       | inr fn => Ret fn (set_files ({[fn]} ∪ files σ) σ)
       end.

Definition os_Rename (old new : string) (σ : World) : World :=
  if bool_decide (old ∈ files σ)
  then set_files ({[new]} ∪ (files σ ∖ {[old]})) σ
  else σ.

Definition os_Remove (fn : string) (σ : World) : World :=
  set_files (files σ ∖ {[fn]}) σ.

(** [f.Close()] changes nothing that is modelled; the error of [os.Rename]
    is dropped by the code, as is that of [os.Remove]. *)
Definition ShowGraph (ig : ImportGraph) (svgViewer : string) (mr : matcher)
  : M unit :=
  buf ← new_Buffer;
  lift (WriteDot ig (Buffer buf) mr);;
  fn ← TempFile_or_die EmptyString "pkgdag-";
  lift (os_Rename fn (fn +:+ ".svg"));;
  let fn := fn +:+ ".svg" in
  dot_src ← (λ σ, Ret (sink (Buffer buf) σ) σ);
  run "dot" dot_src ["-Tsvg"; "-o" +:+ fn];;
  run svgViewer EmptyString [fn];;
  lift (os_Remove fn).

End Program.

(** ** Notions the properties are stated with *)

Section Reach.
Context `{Host}.
Variables (wd : string) (std : bool) (seeds : list string).

(** The graph a run starts from, once the seeds are known. *)
Definition initial : ImportGraph :=
  set_todo seeds (mkImportGraph ∅ ∅ ∅ wd std [] []).

(** The direct imports [build.Import] reports for [pn] (none on error). *)
Definition direct_imports (pn : string) : list string :=
  match build_Import pn wd with
  | ImportOk p => Pkg_Imports p
  | ImportErr _ => []
  end.

(** [pn] is reported as a member of the standard library. *)
Definition is_std (pn : string) : bool :=
  match build_Import pn wd with
  | ImportOk p => Goroot p
  | ImportErr _ => false
  end.

(** [pn] is classifiable: it is no pseudo-import and [build.Import]
    succeeds with a non-empty import path. *)
Definition classifiable (pn : string) : bool :=
  negb (String.eqb pn "C" || HasPrefix pn "golang_org/x/") &&
  match build_Import pn wd with
  | ImportErr _ => false
  | ImportOk p => negb (String.eqb (ImportPath p) EmptyString)
  end.

(** [pn] is classifiable and not excluded, where the standard-library
    packages are excluded while [std] is off. *)
Definition eligible (pn : string) : bool :=
  classifiable pn && (std || negb (is_std pn)).

(** [pn] is reachable: a seed, or a direct import of a reachable package
    that itself becomes a node. *)
Inductive reach : string → Prop :=
| reach_seed s : s ∈ seeds → reach s
| reach_import q p :
    reach q → eligible q = true → p ∈ direct_imports q → reach p.

(** Reachability as the specification words it: a seed, or a direct import
    of a reachable package, whatever has become of that package. *)
Inductive reach_any : string → Prop :=
| reach_any_seed s : s ∈ seeds → reach_any s
| reach_any_import q p :
    reach_any q → p ∈ direct_imports q → reach_any p.

(** [U] is a finite universe for the import relation: it holds the seeds
    and the direct imports of each of its members. *)
Definition universe_ok (U : list string) : bool :=
  forallb (λ s, bool_decide (s ∈ U)) seeds &&
  forallb (λ u, forallb (λ p, bool_decide (p ∈ U)) (direct_imports u)) U.

(** Within [U], what a standard-library package imports is again in the
    standard library, as far as it is classifiable. *)
Definition std_closed (U : list string) : bool :=
  forallb (λ q, negb (is_std q) ||
                forallb (λ p, is_std p || negb (classifiable p))
                  (direct_imports q)) U.

(** What holds of the graph before and after every turn of [Scan]. *)
Record Scan_inv (ig : ImportGraph) : Prop := {
  inv_flag : includeStd ig = std;
  inv_dir : srcDir ig = wd;
  inv_dom : ∀ p, p ∈ added ig ↔ is_Some (Imports ig !! p);
  inv_nodup : NoDup (added ig);
  inv_sound : ∀ p, p ∈ added ig → reach p ∧ eligible p = true;
  inv_stored : ∀ p l,
    Imports ig !! p = Some l → l = sort_Strings (direct_imports p);
  inv_std_sound : ∀ p, p ∈ Std ig → is_std p = true;
  inv_std : std = true → ∀ p, p ∈ Std ig → p ∈ added ig ∨ eligible p = false;
  inv_todo : ∀ p, p ∈ todo ig → reach p;
  inv_seeds : ∀ s,
    s ∈ seeds → s ∈ added ig ∨ s ∈ todo ig ∨ eligible s = false;
  inv_closed : ∀ q p,
    q ∈ added ig → p ∈ direct_imports q →
    p ∈ added ig ∨ p ∈ todo ig ∨ eligible p = false
}.

(** What is left to do, for the termination of [Scan]: the length of the
    worklist, plus, for every member of the universe that is not a node
    yet, one more than the number of its direct imports. *)
Definition weight (U : list string) (ig : ImportGraph) : nat :=
  (length (todo ig) +
   sum_list (map (λ u, if bool_decide (is_Some (Imports ig !! u)) then O
                       else S (length (direct_imports u))) U))%nat.

End Reach.

Section Outcomes.
Context `{Host}.

(** The two ways a call of [addPkg] can end. *)

(** [pn] was dropped: nothing changed except, possibly, that [pn] is now
    recorded in [Std]. *)
Record dropped (pn : string) (ig ig' : ImportGraph) : Prop := {
  dr_imports : Imports ig' = Imports ig;
  dr_paths : ImportPaths ig' = ImportPaths ig;
  dr_added : added ig' = added ig;
  dr_todo : todo ig' = todo ig;
  dr_flag : includeStd ig' = includeStd ig;
  dr_dir : srcDir ig' = srcDir ig;
  dr_std : Std ig' = Std ig ∨
           (Std ig' = {[pn]} ∪ Std ig ∧
            is_std (srcDir ig) pn = true);
  dr_why : skip ig pn = true ∨
           eligible (srcDir ig) (includeStd ig) pn = false
}.

(** [pn] became a node. *)
Record became_node (pn : string) (ig ig' : ImportGraph)
    (more : list string) : Prop := {
  bn_skip : skip ig pn = false;
  bn_eligible : eligible (srcDir ig) (includeStd ig) pn = true;
  bn_imports :
    Imports ig' =
    <[pn := sort_Strings (direct_imports (srcDir ig) pn)]>
      (Imports ig);
  bn_added : added ig' = added ig ++ [pn];
  bn_todo : todo ig' = todo ig;
  bn_flag : includeStd ig' = includeStd ig;
  bn_dir : srcDir ig' = srcDir ig;
  bn_std : Std ig' = if is_std (srcDir ig) pn
                     then {[pn]} ∪ Std ig else Std ig;
  bn_more :
    more = List.filter (λ pi, negb (skip ig' pi))
             (sort_Strings (direct_imports (srcDir ig) pn))
}.

End Outcomes.

(** The suffix after the last ["/vendor/"], in the words of the matcher's
    contract; [None] when there is no such segment. *)
Fixpoint after_last_vendor (s : string) : option string :=
  match s with
  | EmptyString => None
  | String _ s' =>
      match after_last_vendor s' with
      | Some r => Some r
      | None =>
          if String.prefix vendor_seg s
          then Some (slice_from (String.length vendor_seg) s)
          else None
      end
  end.

(** ** What the renderers write, as text *)

(** The strings of a list, one after the other. *)
Definition cat (l : list string) : string :=
  foldr String.append EmptyString l.

(** The step from [σ] to [σ'] appends [t] to the writer [w] and changes
    nothing else. *)
Definition writes (w : Writer) (t : string) (σ σ' : World) : Prop :=
  (∀ w', sink w' σ' =
         if decide (w' = w) then sink w' σ +:+ t else sink w' σ) ∧
  logged σ' = logged σ ∧ import_calls σ' = import_calls σ ∧
  files σ' = files σ.

(** The nodes for which WriteText prints a header line. *)
Definition text_nodes (ig : ImportGraph) (mr : matcher) : list string :=
  List.filter
    (λ pn, Match mr pn && negb (length (filtered ig mr pn) =? 0)%nat)
    (added ig).

(** The lines WriteText prints for one node. *)
Definition text_block (ig : ImportGraph) (mr : matcher) (pn : string)
  : string :=
  (pn +:+ " <= " +:+ default EmptyString (ImportPaths ig !! pn) +:+ nl) +:+
  cat (map (λ pi, "    " +:+ pi +:+ nl) (filtered ig mr pn)).

Definition text_output (ig : ImportGraph) (mr : matcher) : string :=
  cat (map (text_block ig mr) (text_nodes ig mr)).

Definition flat_output (ig : ImportGraph) (mr : matcher) : string :=
  cat (map (λ p, p +:+ nl)
         (sort_Strings (List.filter (Match mr) (added ig)))).

(** The two kinds of node declaration and the edge statement of WriteDot. *)
Definition node_line (ig : ImportGraph) (i : Z) (pn : string) : string :=
  if Contains (default EmptyString (ImportPaths ig !! pn)) vendor_seg then
    "    " +:+ fmt_d i +:+ " [label=" +:+ dq +:+ pn +:+ dq
    +:+ ",style=filled];" +:+ nl
  else
    "    " +:+ fmt_d i +:+ " [label=" +:+ dq +:+ pn +:+ dq +:+ "];" +:+ nl.

Definition edge_line (i j : Z) : string :=
  "    " +:+ fmt_d i +:+ " -> " +:+ fmt_d j +:+ ";" +:+ nl.

(** The statements WriteDot prints for the nodes [l], the first of which has
    index [i]. *)
Fixpoint dot_stmts (ig : ImportGraph) (mr : matcher) (nodes : gmap string Z)
    (i : Z) (l : list string) : list string :=
  match l with
  | [] => []
  | pn :: l' =>
      (if Match mr pn && negb (length (filtered ig mr pn) =? 0)%nat then
         node_line ig i pn ::
         map (λ pi, edge_line i (default 0 (nodes !! pi))) (filtered ig mr pn)
       else []) ++
      dot_stmts ig mr nodes (i + 1) l'
  end.

Definition dot_output (ig : ImportGraph) (mr : matcher) : string :=
  ("digraph pkgdag {" +:+ nl) +:+
  cat (dot_stmts ig mr (index_nodes 0 (added ig) ∅) 0 (added ig)) +:+
  ("}" +:+ nl).

(** ** Small worlds to run the program in *)

Module Sample.

Definition world0 : World := mkWorld EmptyString ∅ [] [] ∅.

(** A project with a cycle ([app] and [libA] import each other), an import
    that cannot be resolved ([gone]), cgo's ["C"], and the standard
    library.  The import lists come unsorted. *)
Definition imports_plain (pn dir : string) : ImportResult :=
  if String.eqb pn "app" then
    ImportOk (mkPackage "example.com/app"
                ["libB"; "libA"; "fmt"; "gone"; "C"] false)
  else if String.eqb pn "libA" then
    ImportOk (mkPackage "example.com/app/vendor/libA" ["libB"; "app"] false)
  else if String.eqb pn "libB" then ImportOk (mkPackage "libB" [] false)
  else if String.eqb pn "fmt" then ImportOk (mkPackage "fmt" ["os"] true)
  else if String.eqb pn "os" then ImportOk (mkPackage "os" [] true)
  else ImportErr "cannot find package".

(** A project where a standard-library package imports a package that
    resolves outside the standard library, and where an import list
    names one package twice. *)
Definition imports_odd (pn dir : string) : ImportResult :=
  if String.eqb pn "app" then
    ImportOk (mkPackage "example.com/app" ["fmt"; "twice"] false)
  else if String.eqb pn "fmt" then
    ImportOk (mkPackage "fmt" ["golang.org/x/text"] true)
  else if String.eqb pn "golang.org/x/text" then
    ImportOk (mkPackage "golang.org/x/text" [] false)
  else if String.eqb pn "twice" then
    ImportOk (mkPackage "example.com/twice" ["libB"; "libB"] false)
  else if String.eqb pn "libB" then ImportOk (mkPackage "libB" [] false)
  else ImportErr "cannot find package".

(** The patterns [^libA$] and [^c$]: equality with the text between the
    anchors. *)
Definition re_libA : Regexp := mkRegexp (String.eqb "libA").
Definition re_c : Regexp := mkRegexp (String.eqb "c").

Definition compile (p : string) : option Regexp :=
  if String.eqb p "^libA$" then Some re_libA
  else if String.eqb p "^c$" then Some re_c
  else None.

Definition list_args (args : list string) : string + list string :=
  inr (tail args).

Definition temp_name (dir pre : string) (fs : gset string)
  : string + string :=
  inr "/tmp/pkgdag-123".

Definition all_run (name : string) (args : list string) (stdin : string)
  : option string := None.

(** Every command runs, except the one called [bad]. *)
Definition fails (bad name : string) (args : list string) (stdin : string)
  : option string :=
  if String.eqb name bad then Some "exit status 1" else None.

(** [dot] prints nothing; the viewer reports the file it is given. *)
Definition says (name : string) (args : list string) (stdin : string)
  : string :=
  if String.eqb name "dot" then EmptyString
  else "viewing " +:+ fmt_v args +:+ nl.

Definition host_plain : Host :=
  Build_Host imports_plain compile list_args temp_name all_run says.
Definition host_odd : Host :=
  Build_Host imports_odd compile list_args temp_name all_run says.
Definition host_no_dot : Host :=
  Build_Host imports_plain compile list_args temp_name (fails "dot") says.
Definition host_no_viewer : Host :=
  Build_Host imports_plain compile list_args temp_name (fails "xdg-open")
    says.

(** The outcome of a bounded run that did return. *)
Definition outcome (r : option (ImportGraph * World)) : ImportGraph * World :=
  default (mkImportGraph ∅ ∅ ∅ EmptyString false [] [], world0) r.

(** The finished graph of [imports_plain] from the seed ["app"], without
    the standard library. *)
Definition graph_plain : ImportGraph :=
  (outcome (Scan (H:=host_plain) 10
              (initial "/src" false ["app"]) world0)).1.

(** Every identifier that [imports_plain] mentions. *)
Definition universe_plain : list string :=
  ["app"; "libA"; "libB"; "fmt"; "os"; "gone"; "C"].

(** Every identifier that [imports_odd] mentions. *)
Definition universe_odd : list string :=
  ["app"; "fmt"; "twice"; "golang.org/x/text"; "libB"].

End Sample.

(** ** The command [dag] *)

(** The flags of [doDAG] after [cli.ParseFlag], and [flag.Args()]. *)
Record Flags := mkFlags {
  flag_std : bool;
  flag_f : string;
  flag_svgviewer : string;
  flag_m : string;
  flag_Args : list string
}.

(** The values the flags have when the command line does not set them. *)
Definition default_Flags (args : list string) : Flags :=
  mkFlags false "flat" "xdg-open" EmptyString args.

(** The rest of the world outside the program: [os.Getwd()], an error or
    the working directory. *)
Class Process := { os_Getwd : string + string }.

(** A panic that nothing recovers ends the process with status 2. *)
Definition panic {A} : M A := λ σ, Exit 2 σ.

Section Command.
Context `{Host} `{Process}.

(** [doDAG], with the bound [n] on the turns of [Scan]; [None] when the
    bound is too small.  [regexp.MustCompile] panics on a malformed
    pattern. *)
Definition doDAG (n : nat) (fl : Flags) (σ : World) : option (Res unit) :=
  match os_Getwd with
  | inl err => Some (log_Fatalf ("getwd err=" +:+ err) σ)
  | inr wd =>
      match NewImportGraph wd (flag_std fl) (flag_Args fl) σ with
      | Exit c σ1 => Some (Exit c σ1)
      | Ret ig σ1 =>
          match Scan n ig σ1 with
          | None => None
          | Some (ig, σ2) =>
              match newMatcher (flag_m fl) with
              | None => Some (panic σ2)
              | Some mr =>
                  Some (if String.eqb (flag_f fl) "dot" then
                          lift (WriteDot ig Stdout mr) σ2
                        else if String.eqb (flag_f fl) "svg" then
                          ShowGraph ig (flag_svgviewer fl) mr σ2
                        else if String.eqb (flag_f fl) "text" then
                          lift (WriteText ig Stdout mr) σ2
                        else
                          lift (WriteFlat ig Stdout mr) σ2)
              end
          end
      end
  end.

End Command.

(** What the renderer chosen by [-f] writes for a finished graph. *)
Definition rendered (f : string) (ig : ImportGraph) (mr : matcher) : string :=
  if String.eqb f "dot" then dot_output ig mr
  else if String.eqb f "text" then text_output ig mr
  else flat_output ig mr.

(** ** More sample data *)

Module Demo.

Definition in_src : Process := Build_Process (inr "/src").
Definition nowhere : Process := Build_Process (inl "no such directory").

(** [go list] cannot be run. *)
Definition no_list (args : list string) : string + list string :=
  inl "exec: go: not found".

Definition host_no_list : Host :=
  Build_Host Sample.imports_plain Sample.compile no_list Sample.temp_name
    Sample.all_run Sample.says.

(** No temporary file can be created. *)
Definition no_temp (dir pre : string) (fs : gset string) : string + string :=
  inl "no space left on device".

Definition host_no_temp : Host :=
  Build_Host Sample.imports_plain Sample.compile Sample.list_args no_temp
    Sample.all_run Sample.says.

(** The run of [imports_plain] from the seed ["app"], with and without the
    standard library. *)
Definition run_plain (std : bool) : ImportGraph * World :=
  Sample.outcome (Scan (H:=Sample.host_plain) 10
                    (initial "/src" std ["app"]) Sample.world0).

End Demo.

(** * The vendor-manifest tool (main.go)

    The second program of the repository reads [vendor/vendor.json] and
    prints tables of the packages it lists.  Its subcommands are modelled
    from the point where [cli.ParseFlag(initCommon)] has returned: the flags
    and the globals [repo], [verbose] and [gopaths] are given as a [Config],
    and [w] is the tabwriter that [initCommon] allocates. *)

Module Vendor.

(** [type PkgSpec struct] *)
Record PkgSpec := mkPkgSpec {
  Path : string;
  Origin : string;
  Revision : string;
  RevisionTime : string;
  Comment : string
}.

(** [type Spec struct]; [Pkgs] is a [[]*PkgSpec], [None] a nil pointer
    (the JSON [null]). *)
Record Spec := mkSpec {
  Spec_Comment : string;
  Pkgs : list (option PkgSpec)
}.

(** [func (ps *PkgSpec) String() string] *)
Definition PkgSpec_String (ps : PkgSpec) : string :=
  if String.eqb (Origin ps) EmptyString
  then Path ps +:+ "@" +:+ Revision ps
  else Path ps +:+ "<<" +:+ Origin ps +:+ "@" +:+ Revision ps.

(** [type VersionOrigin struct] *)
Record VersionOrigin := mkVersionOrigin {
  Version : string;
  vo_Origin : string
}.

(** [func (vo VersionOrigin) String() string] *)
Definition VersionOrigin_String (vo : VersionOrigin) : string :=
  if String.eqb (vo_Origin vo) EmptyString then Version vo
  else vo_Origin vo +:+ "@" +:+ Version vo.

(** The flags and globals after [cli.ParseFlag(initCommon)]. *)
Record Config := mkConfig {
  repo : string;
  verbose : bool;
  gopaths : list string
}.

(** What the tool changes: the directory the process is in, the lines given
    to [log], and the bytes handed to the tabwriter [w]. *)
Record State := mkState {
  cwd : string;
  log_lines : list string;
  written : string
}.

(** A call returns, or ends the process ([log.Fatalf]: status 1, a panic:
    status 2). *)
Inductive Out (A : Type) :=
| Done (a : A) (σ : State)
| Fatal (code : Z) (σ : State).
Arguments Done {A} a σ.
Arguments Fatal {A} code σ.

(** A computation that may not come back: [None] when the loop bound given
    to it is used up. *)
Definition Run (A : Type) : Type := State → option (Out A).

Global Instance Run_ret : MRet Run := λ A a σ, Some (Done a σ).

Global Instance Run_bind : MBind Run := λ A B k m σ,
  match m σ with
  | Some (Done a σ') => k a σ'
  | Some (Fatal c σ') => Some (Fatal c σ')
  | None => None
  end.

(** The file system, git and the libraries.  Relative names are resolved
    against the directory the process is in, the first argument. *)
Class Env := {
  (** [filepath.Join(elem...)] *)
  filepath_Join : list string → string;
  (** [filepath.Rel(basepath, targpath)]: the error, or the path *)
  filepath_Rel : string → string → string + string;
  (** [os.Stat(name)]: whether the error is nil *)
  fs_Stat : string → string → bool;
  (** [os.Chdir(dir)]: the directory the process is in afterwards, [None]
      when the call fails *)
  fs_Chdir : string → string → option string;
  (** [os.Getwd()]: the error, or the directory *)
  fs_Getwd : string → string + string;
  (** [ioutil.ReadFile(fn)]: the error, or the contents *)
  fs_ReadFile : string → string → string + string;
  (** [git show arg]: what it writes to its standard output and to its
      standard error, and the error of [cmd.Run()] ([None] is nil) *)
  git_show : string → string → string * string * option string;
  (** [json.Unmarshal(b, &Spec{})]: the error, or the manifest *)
  json_Unmarshal : string → string + Spec
}.

Definition set_cwd (d : string) (σ : State) : State :=
  mkState d (log_lines σ) (written σ).

(** [log.Printf] *)
Definition log_Printf (msg : string) (σ : State) : State :=
  mkState (cwd σ) (log_lines σ ++ [msg]) (written σ).

(** [log.Fatalf] *)
Definition log_Fatalf {A} (msg : string) : Run A :=
  λ σ, Some (Fatal 1 (log_Printf msg σ)).

(** A run-time panic (a nil pointer dereference). *)
Definition panic {A} : Run A := λ σ, Some (Fatal 2 σ).

(** The state a call ends in. *)
Definition state_of {A} (r : Out A) : State :=
  match r with
  | Done _ σ => σ
  | Fatal _ σ => σ
  end.

(** The state after the text [s] has been handed to [w]. *)
Definition add_written (s : string) (σ : State) : State :=
  mkState (cwd σ) (log_lines σ) (written σ +:+ s).

(** [fmt.Fprintf(w, ...)] with the formatted text [s]. *)
Definition Fprintf_w (s : string) : Run unit :=
  λ σ, Some (Done tt (add_written s σ)).

(** The tab of the format strings. *)
Definition tab : string := String (ascii_of_nat 9) EmptyString.

(** The slice expression [s[:n]]. *)
Fixpoint slice_to (n : nat) (s : string) : string :=
  match n, s with
  | O, _ => EmptyString
  | S n', String a s' => String a (slice_to n' s')
  | S _, EmptyString => EmptyString
  end.

(** Go's [int] (64 bits): the value an arithmetic result wraps to. *)
Definition int_wrap (z : Z) : Z := (z + 2 ^ 63) mod 2 ^ 64 - 2 ^ 63.

Section Tool.
Context `{Env}.
Variable c : Config.

(** [func lgf(format string, v ...interface{})], with the formatted text *)
Definition lgf (msg : string) : Run unit :=
  λ σ, Some (Done tt (if verbose c then log_Printf msg σ else σ)).

(** [os.Chdir(dir)], its error ignored *)
Definition os_Chdir (dir : string) : Run unit :=
  λ σ, Some (Done tt (match fs_Chdir (cwd σ) dir with
                      | Some d => set_cwd d σ
                      | None => σ
                      end)).

(** [os.Stat(name)]: whether the error is nil *)
Definition os_Stat (name : string) : Run bool :=
  λ σ, Some (Done (fs_Stat (cwd σ) name) σ).

(** [func gitDir(dir string) string].  The loop body never changes [dir];
    [n] bounds the number of iterations. *)
Fixpoint gitDir (n : nat) (dir : string) : Run string :=
  match n with
  | O => λ _, None
  | S n' =>
      if String.eqb dir EmptyString then mret EmptyString
      else
        ok ← os_Stat (filepath_Join [dir; ".git"]);
        if ok : bool then mret dir else gitDir n' dir
  end.

(** [func relPath(dir string) string] *)
Definition relPath (dir : string) : Run string := λ σ,
  match fs_Getwd (cwd σ) with
  | inl err => log_Fatalf ("getwd err=" +:+ err) σ
  | inr wd =>
      match filepath_Rel wd dir with
      | inl err =>
          log_Fatalf ("rel wd=" +:+ wd +:+ " dir=" +:+ dir +:+ " err=" +:+ err)
            σ
      | inr rel => Some (Done rel σ)
      end
  end.

(** The two ways [readSpec] obtains the bytes of the manifest: the error, or
    the bytes. *)
Definition read_bytes (ver fn : string) : Run (string + string) := λ σ,
  if String.eqb ver EmptyString then Some (Done (fs_ReadFile (cwd σ) fn) σ)
  else
    match git_show (cwd σ) (ver +:+ ":" +:+ fn) with
    | (out, _, None) => Some (Done (inr out) σ)
    | (_, errout, Some err) =>
        Some (Done (inl ("git show err=" +:+ err +:+ " stderr=" +:+ errout))
                σ)
    end.

(** [readSpec] from the statement [dir = relPath(dir)] on. *)
Definition readSpec_read (dir ver : string) : Run (option Spec) :=
  rel ← relPath dir;
  let fn := filepath_Join [rel; "vendor/vendor.json"] in
  b ← read_bytes ver fn;
  match b with
  | inl err =>
      if String.eqb ver EmptyString
      then log_Fatalf ("read vendor=" +:+ fn +:+ " err=" +:+ err)
      else
        lgf ("read vendor=" +:+ fn +:+ " at ver=" +:+ ver +:+ " err="
             +:+ err) ;;
        mret None
  | inr b =>
      match json_Unmarshal b with
      | inl err =>
          log_Fatalf ("unmarshal spec of vendor=" +:+ fn +:+ " err="
                      +:+ err)
      | inr spec => mret (Some spec)
      end
  end.

(** [func readSpec(dir, ver string) *Spec]; [None] is the nil result.  The
    deferred [os.Chdir(dir)] takes the value [dir] has at the [defer]
    statement and runs when the function returns, not when the process
    exits. *)
Definition readSpec (n : nat) (dir ver : string) : Run (option Spec) :=
  lgf ("read spec=" +:+ dir +:+ " at ver=" +:+ ver) ;;
  if String.eqb ver EmptyString then readSpec_read dir ver
  else
    gd ← gitDir n dir;
    if String.eqb gd EmptyString then
      lgf ("dir=" +:+ dir +:+ " is not in git") ;;
      mret None
    else
      os_Chdir gd ;;
      r ← readSpec_read dir ver;
      os_Chdir dir ;;
      mret r.

(** The loop of [vendorRepo] over [gopaths]. *)
Fixpoint vendorRepo_loop (p : string) (gps : list string) : Run string :=
  match gps with
  | [] => mret EmptyString
  | gp :: gps' =>
      let r := filepath_Join [gp; "src"; p] in
      lgf ("check vendor in path=" +:+ r) ;;
      ok ← os_Stat (filepath_Join [r; "vendor/vendor.json"]);
      if ok : bool then mret r else vendorRepo_loop p gps'
  end.

(** [func vendorRepo(ps *PkgSpec) string] *)
Definition vendorRepo (ps : PkgSpec) : Run string :=
  let i := Index (Origin ps) "/vendor/" in
  if i <? 0 then log_Fatalf ("no vendor in pkgspec=" +:+ PkgSpec_String ps)
  else vendorRepo_loop (slice_to (Z.to_nat i) (Origin ps)) (gopaths c).

(** The search of [findTrueVersion] for the entry with the path of [p]; a
    nil entry met on the way is dereferenced. *)
Fixpoint find_up (path : string) (pkgs : list (option PkgSpec))
  : Run (option PkgSpec) :=
  match pkgs with
  | [] => mret None
  | None :: _ => panic
  | Some x :: pkgs' =>
      if String.eqb (Path x) path then
        lgf ("found pkg=" +:+ PkgSpec_String x) ;;
        mret (Some x)
      else find_up path pkgs'
  end.

(** [func findTrueVersion(p *PkgSpec, depth int) []VersionOrigin]; the nil
    slice is the empty list.  [n] bounds the depth of the recursion and the
    iterations of [gitDir]. *)
Fixpoint findTrueVersion (n : nat) (p : PkgSpec) (depth : Z)
  : Run (list VersionOrigin) :=
  match n with
  | O => λ _, None
  | S n' =>
      lgf ("to find true verson of pkg=" +:+ Path p +:+ " origin="
           +:+ Origin p +:+ " at ver=" +:+ Revision p +:+ " depth="
           +:+ fmt_d depth) ;;
      let out := [mkVersionOrigin (Revision p) (Revision p)] in
      rp ← vendorRepo p;
      lgf ("vendorrepo=" +:+ rp) ;;
      if String.eqb rp EmptyString then mret out
      else
        spec ← readSpec (S n') rp (Revision p);
        match spec with
        | None =>
            lgf ("no spec in repo=" +:+ rp +:+ " at ver=" +:+ Revision p) ;;
            mret out
        | Some spec =>
            up ← find_up (Path p) (Pkgs spec);
            match up with
            | None =>
                lgf ("pkg=" +:+ Path p +:+ " is not found in spec=" +:+ rp
                     +:+ "@" +:+ Revision p) ;;
                mret []
            | Some up =>
                if negb (String.eqb (Origin up) EmptyString) then
                  lgf ("up.origin=" +:+ Origin up +:+ " recursing") ;;
                  let depth := int_wrap (depth - 1) in
                  if depth <=? 0 then
                    log_Fatalf
                      ("max depth reached in finding true version of pkg="
                       +:+ Path p +:+ " in origin=" +:+ Origin p)
                  else
                    vos ← findTrueVersion n' up depth;
                    mret (out ++ vos)
                else
                  mret (out ++ [mkVersionOrigin (Revision up) (Origin up)])
            end
        end
  end.

(** The loop of [doList]. *)
Fixpoint doList_loop (pkgs : list (option PkgSpec)) : Run unit :=
  match pkgs with
  | [] => mret tt
  | None :: _ => panic
  | Some p :: pkgs' =>
      Fprintf_w (Path p +:+ tab +:+ Revision p +:+ nl) ;;
      doList_loop pkgs'
  end.

(** [func doList()].  [readSpec] without a version does not call [gitDir],
    so it needs no bound. *)
Definition doList : Run unit :=
  spec ← readSpec 0 (repo c) EmptyString;
  match spec with
  | None => panic
  | Some spec => doList_loop (Pkgs spec)
  end.

(** The loop of [doDirect]. *)
Fixpoint doDirect_loop (pkgs : list (option PkgSpec)) : Run unit :=
  match pkgs with
  | [] => mret tt
  | None :: _ => panic
  | Some p :: pkgs' =>
      if negb (String.eqb (Origin p) EmptyString) then doDirect_loop pkgs'
      else
        Fprintf_w (Path p +:+ tab +:+ Revision p +:+ nl) ;;
        doDirect_loop pkgs'
  end.

(** [func doDirect()] *)
Definition doDirect : Run unit :=
  spec ← readSpec 0 (repo c) EmptyString;
  match spec with
  | None => panic
  | Some spec => doDirect_loop (Pkgs spec)
  end.

(** The loop of [doIndirect]. *)
Fixpoint doIndirect_loop (pkgs : list (option PkgSpec)) : Run unit :=
  match pkgs with
  | [] => mret tt
  | None :: _ => panic
  | Some p :: pkgs' =>
      if String.eqb (Origin p) EmptyString then doIndirect_loop pkgs'
      else
        Fprintf_w (Path p +:+ tab +:+ Origin p +:+ nl) ;;
        doIndirect_loop pkgs'
  end.

(** [func doIndirect()] *)
Definition doIndirect : Run unit :=
  spec ← readSpec 0 (repo c) EmptyString;
  match spec with
  | None => panic
  | Some spec => doIndirect_loop (Pkgs spec)
  end.

(** The version [doShowVersion] prints for the chain [vos]. *)
Definition shown_version (vos : list VersionOrigin) : string :=
  if (1 <? Z.of_nat (length vos))
  then default "UNKNOWN" (Version <$> last vos)
  else "UNKNOWN".

(** The loop of [doShowVersion]; [maxDepth] and [pkgToCheck] are its two
    flags. *)
Fixpoint doShowVersion_loop (n : nat) (maxDepth : Z) (pkgToCheck : string)
    (pkgs : list (option PkgSpec)) : Run unit :=
  match pkgs with
  | [] => mret tt
  | None :: _ => panic
  | Some p :: pkgs' =>
      if negb (String.eqb pkgToCheck EmptyString)
         && negb (String.eqb pkgToCheck (Path p))
      then doShowVersion_loop n maxDepth pkgToCheck pkgs'
      else if String.eqb (Origin p) EmptyString then
        Fprintf_w (Path p +:+ tab +:+ Revision p +:+ nl) ;;
        doShowVersion_loop n maxDepth pkgToCheck pkgs'
      else
        vos ← findTrueVersion n p maxDepth;
        lgf ("true version of pkg=p.Path: "
             +:+ fmt_v (VersionOrigin_String <$> vos)) ;;
        Fprintf_w (Path p +:+ tab +:+ shown_version vos +:+ tab
                   +:+ Origin p +:+ "@" +:+ Revision p +:+ nl) ;;
        doShowVersion_loop n maxDepth pkgToCheck pkgs'
  end.

(** [func doShowVersion()] *)
Definition doShowVersion (n : nat) (maxDepth : Z) (pkgToCheck : string)
  : Run unit :=
  spec ← readSpec 0 (repo c) EmptyString;
  match spec with
  | None => panic
  | Some spec => doShowVersion_loop n maxDepth pkgToCheck (Pkgs spec)
  end.

End Tool.

(** [m] leaves the component [f] of the state as it was, however it ends. *)
Definition keeps {A} (f : State → string) (m : Run A) : Prop :=
  ∀ σ r, m σ = Some r → f (state_of r) = f σ.


(** [m] ends the process only with status [code]. *)
Definition exits_with {A} (code : Z) (m : Run A) : Prop :=
  ∀ σ code' σ', m σ = Some (Fatal code' σ') → code' = code.

(** The rows of the tables. *)
Definition list_row (p : PkgSpec) : string :=
  Path p +:+ tab +:+ Revision p +:+ nl.
Definition indirect_row (p : PkgSpec) : string :=
  Path p +:+ tab +:+ Origin p +:+ nl.
Definition unknown_row (p : PkgSpec) : string :=
  Path p +:+ tab +:+ "UNKNOWN" +:+ tab +:+ Origin p +:+ "@" +:+ Revision p
  +:+ nl.

(** A package the repository chose itself, not a copy out of another
    vendor directory. *)
Definition is_direct (p : PkgSpec) : bool :=
  String.eqb (Origin p) EmptyString.

(** The packages the flag [-p] selects. *)
Definition selected (pkgToCheck : string) (p : PkgSpec) : bool :=
  String.eqb pkgToCheck EmptyString || String.eqb pkgToCheck (Path p).

(** A small installation: the repository [/w/app] lists a package of its
    own choice and a copy taken from the vendor directory of [lib], which
    is checked out under the GOPATH entry [/go]. *)
Module Fixture.

Definition join (elem : list string) : string :=
  match List.filter
          (λ e, negb (String.eqb e ".") && negb (String.eqb e EmptyString))
          elem with
  | [] => EmptyString
  | e :: es => foldl (λ acc x, acc +:+ "/" +:+ x) e es
  end.

Definition pkg_a : PkgSpec :=
  mkPkgSpec "a" EmptyString "r1" "2017-01-01T00:00:00Z" EmptyString.
Definition pkg_b : PkgSpec :=
  mkPkgSpec "b" "lib/vendor/b" "r2" "2017-01-01T00:00:00Z" EmptyString.
Definition pkg_b_up : PkgSpec :=
  mkPkgSpec "b" EmptyString "r9" "2016-01-01T00:00:00Z" EmptyString.

Definition spec_top : Spec := mkSpec EmptyString [Some pkg_a; Some pkg_b].
Definition spec_up : Spec := mkSpec EmptyString [Some pkg_b_up].

Definition spec_null : Spec :=
  mkSpec EmptyString [Some pkg_a; None; Some pkg_b].

(** The installation, given the manifest that [/w/app] holds. *)
Definition env_with (top : Spec) : Env := {|
  filepath_Join := join;
  filepath_Rel := λ wd dir,
    inr (if String.eqb wd dir then "." else dir);
  fs_Stat := λ _ name,
    String.eqb name "/go/src/lib/.git"
    || String.eqb name "/go/src/lib/vendor/vendor.json";
  fs_Chdir := λ _ dir, Some dir;
  fs_Getwd := λ d, inr d;
  fs_ReadFile := λ d fn,
    if String.eqb d "/w/app" && String.eqb fn "vendor/vendor.json"
    then inr "top" else inl "no such file or directory";
  git_show := λ d arg,
    if String.eqb d "/go/src/lib" && String.eqb arg "r2:vendor/vendor.json"
    then ("up", EmptyString, None)
    else (EmptyString, "fatal: bad revision", Some "exit status 128");
  json_Unmarshal := λ b,
    if String.eqb b "top" then inr top
    else if String.eqb b "up" then inr spec_up
    else inl "invalid character"
|}.

Definition env : Env := env_with spec_top.

(** The same with a [null] in the package list of [/w/app]. *)
Definition env_null : Env := env_with spec_null.

Definition conf : Config := mkConfig "/w/app" false ["/go"].
Definition conf_no_gopath : Config := mkConfig "/w/app" false [].
Definition start : State := mkState "/w/app" [] EmptyString.

End Fixture.

End Vendor.

(** ** Loops that collect *)

Lemma foldl_collect {A} (keep : A → bool) (f : list A → A → list A) :
  (∀ acc x, f acc x = if keep x then acc ++ [x] else acc) →
  ∀ l acc, foldl f acc l = acc ++ List.filter keep l.
Proof.
  intros Hf l. induction l as [|x l IH]; intros acc; simpl.
  - by rewrite app_nil_r.
  - rewrite IH, Hf. destruct (keep x); [|done].
    by rewrite <- app_assoc.
Qed.

Lemma elem_of_List_filter {A} (f : A → bool) (l : list A) x :
  x ∈ List.filter f l ↔ x ∈ l ∧ f x = true.
Proof. rewrite !list_elem_of_In. apply filter_In. Qed.

Lemma sort_Strings_elem_of l x : x ∈ sort_Strings l ↔ x ∈ l.
Proof. unfold sort_Strings. by rewrite merge_sort_Permutation. Qed.

Lemma sort_Strings_length l : length (sort_Strings l) = length l.
Proof. unfold sort_Strings. by rewrite merge_sort_Permutation. Qed.

(** ** The traversal *)

Section Traversal.
Context `{Host}.
Variables (wd : string) (std : bool) (seeds : list string).

Local Abbreviation elig := (eligible wd std).
Local Abbreviation reachable := (reach wd std seeds).
Local Abbreviation imports_of := (direct_imports wd).
Local Abbreviation stdlib := (is_std wd).
Local Abbreviation Inv := (Scan_inv wd std seeds).

Lemma Inv_initial : Inv (initial wd std seeds).
Proof.
  split; simpl; try done.
  - intros p. split; [by intros ?%elem_of_nil|].
    rewrite lookup_empty. by intros [? ?].
  - constructor.
  - by intros p ?%elem_of_nil.
  - intros p Hp. by constructor.
  - intros s Hs. by right; left.
  - by intros q p ?%elem_of_nil.
Qed.

(** [skip] answers [true] only for identifiers that are nodes already or
    can never become one. *)
Lemma skip_true_gen ig pn :
  (∀ p, is_Some (Imports ig !! p) → p ∈ added ig) →
  (includeStd ig = true →
   ∀ p, p ∈ Std ig → p ∈ added ig ∨ elig p = false) →
  skip ig pn = true → pn ∈ added ig ∨ elig pn = false.
Proof.
  intros Hdom Hstd. unfold skip.
  destruct (String.eqb pn "C" || HasPrefix pn "golang_org/x/") eqn:Hps.
  { intros _. right. unfold eligible, classifiable. by rewrite Hps. }
  case_bool_decide as Hin.
  { intros _. left. by apply Hdom. }
  destruct (includeStd ig) eqn:Hflag; [|done].
  case_bool_decide as Hs; [|done]. intros _. by apply Hstd.
Qed.

Lemma skip_true ig pn :
  Inv ig → skip ig pn = true → pn ∈ added ig ∨ elig pn = false.
Proof.
  intros HI. apply skip_true_gen.
  - intros p. apply (inv_dom _ _ _ _ HI).
  - intros Hflag. apply (inv_std _ _ _ _ HI). by rewrite <- (inv_flag _ _ _ _ HI).
Qed.

Lemma skip_false ig pn :
  skip ig pn = false →
  (String.eqb pn "C" || HasPrefix pn "golang_org/x/") = false ∧
  Imports ig !! pn = None.
Proof.
  unfold skip.
  destruct (String.eqb pn "C" || HasPrefix pn "golang_org/x/"); [done|].
  case_bool_decide as Hin; [done|]. intros _. split; [done|].
  by apply eq_None_not_Some.
Qed.

Lemma addPkg_cases pn ig σ more ig' σ' :
  addPkg pn ig σ = (more, ig', σ') →
  (more = [] ∧ dropped pn ig ig') ∨ became_node pn ig ig' more.
Proof.
  unfold addPkg. destruct (skip ig pn) eqn:Hskip.
  { intros [= <- <- <-]. left. split; [done|]. split; auto. }
  pose proof (skip_false _ _ Hskip) as [Hps _].
  assert (∀ b, eligible (srcDir ig) (includeStd ig) pn = b ↔
    match build_Import pn (srcDir ig) with
    | ImportErr _ => false
    | ImportOk p => negb (String.eqb (ImportPath p) EmptyString) &&
                    (includeStd ig || negb (Goroot p))
    end = b) as Hel.
  { intros b. unfold eligible, classifiable, is_std. rewrite Hps.
    by destruct (build_Import pn (srcDir ig)). }
  destruct (build_Import pn (srcDir ig)) as [p|err] eqn:Himp.
  2:{ intros [= <- <- <-]. left. split; [done|].
      split; auto. right. by apply Hel. }
  destruct (Goroot p && negb (includeStd ig)) eqn:Hexcl.
  { intros [= <- <- <-]. left. split; [done|]. split; simpl; auto.
    - destruct (Goroot p) eqn:Hg; [right|by left]. split; [done|].
      unfold is_std. by rewrite Himp.
    - right. apply Hel. destruct (Goroot p), (includeStd ig); try done.
      by rewrite andb_false_r. }
  destruct (String.eqb (ImportPath p) EmptyString) eqn:Hpath.
  { intros [= <- <- <-]. left. split; [done|]. split; simpl; auto.
    - destruct (Goroot p) eqn:Hg; [right|by left]. split; [done|].
      unfold is_std. by rewrite Himp.
    - right. by apply Hel. }
  intros [= Hm <- <-]. right.
  split; simpl;
    unfold is_std, direct_imports; rewrite ?Himp; auto.
  - apply Hel. destruct (Goroot p), (includeStd ig); done.
  - rewrite <- Hm. by rewrite (foldl_collect _ _ (λ _ _, eq_refl)).
Qed.

Lemma dropped_why pn ig ig' :
  Inv ig → dropped pn ig ig' → pn ∈ added ig ∨ elig pn = false.
Proof.
  intros HI Hd. destruct (dr_why _ _ _ Hd) as [Hs|He].
  - by apply skip_true.
  - right. by rewrite (inv_dir _ _ _ _ HI), (inv_flag _ _ _ _ HI) in He.
Qed.

Lemma Scan_iter_Inv pn rest ig σ ig' σ' :
  Inv ig → todo ig = pn :: rest →
  Scan_iter pn rest ig σ = (ig', σ') → Inv ig'.
Proof.
  intros HI Htodo. unfold Scan_iter.
  destruct (addPkg pn ig σ) as [[more ig1] σ1] eqn:Hadd.
  intros [= <- <-].
  apply addPkg_cases in Hadd as [[-> Hd] | Hb].
  - pose proof (dropped_why _ _ _ HI Hd) as Hpn.
    destruct Hd as [Himps _ Hadded _ Hflag Hdir Hstd _].
    destruct HI as [I1 I2 I3 I4 I5 I6 I7 I8 I9 I10 I11].
    split; simpl; rewrite ?Himps, ?Hadded, ?Hflag, ?Hdir; auto.
    + intros p. destruct Hstd as [->|[-> Hs]]; [by auto|].
      intros [->%elem_of_singleton|Hp]%elem_of_union; [|by auto].
      by rewrite <- I2.
    + intros Hs p. destruct Hstd as [->|[-> _]]; [by auto|].
      intros [->%elem_of_singleton|Hp]%elem_of_union; by auto.
    + intros p Hp. apply I9. rewrite Htodo. by right.
    + intros s Hs. destruct (I10 s Hs) as [?|[Ht|?]]; [by auto| |by auto].
      rewrite Htodo in Ht.
      apply elem_of_cons in Ht as [->|?]; [|by auto].
      destruct Hpn; by auto.
    + intros q p Hq Hp.
      destruct (I11 q p Hq Hp) as [?|[Ht|?]]; [by auto| |by auto].
      rewrite Htodo in Ht.
      apply elem_of_cons in Ht as [->|?]; [|by auto].
      destruct Hpn; by auto.
  - destruct Hb as [Hskip Hel Himps Hadded _ Hflag Hdir Hstd Hmore].
    pose proof (skip_false _ _ Hskip) as [_ Hnone].
    pose proof HI as [I1 I2 I3 I4 I5 I6 I7 I8 I9 I10 I11].
    rewrite I1, I2 in *.
    assert (reachable pn) as Hreach by (apply I9; rewrite Htodo; by left).
    assert (∀ p, p ∈ added ig1 ↔ is_Some (Imports ig1 !! p)) as Hdom.
    { intros p. rewrite Hadded, Himps, elem_of_app, list_elem_of_singleton.
      rewrite lookup_insert_is_Some, I3.
      destruct (decide (pn = p)) as [->|Hne]; [by split; auto|].
      split; [intros [?|?]; by auto|intros [?|[? ?]]; by auto]. }
    assert (std = true →
            ∀ p, p ∈ Std ig1 → p ∈ added ig1 ∨ elig p = false) as Hst.
    { intros Hs p. rewrite Hstd, Hadded.
      destruct (stdlib pn).
      - intros [->%elem_of_singleton|Hp]%elem_of_union.
        + left. apply elem_of_app. right. by left.
        + destruct (I8 Hs p Hp); [left|by right].
          apply elem_of_app. by left.
      - intros Hp. destruct (I8 Hs p Hp); [left|by right].
        apply elem_of_app. by left. }
    split; simpl; auto.
    + rewrite Hadded. apply NoDup_app. split; [done|].
      split; [|apply NoDup_singleton].
      intros p Hp ->%list_elem_of_singleton.
      apply I3 in Hp. rewrite Hnone in Hp. by destruct Hp.
    + intros p. rewrite Hadded.
      intros [Hp| ->%list_elem_of_singleton]%elem_of_app; by auto.
    + intros p l. rewrite Himps, lookup_insert.
      case_decide as Hd; [|by auto]. subst. by intros [= <-].
    + intros p. rewrite Hstd. destruct (stdlib pn) eqn:Hs; [|by auto].
      intros [->%elem_of_singleton|?]%elem_of_union; by auto.
    + intros p. rewrite Hmore.
      intros [Hp|Hp]%elem_of_app.
      * apply elem_of_List_filter in Hp as [Hp _].
        rewrite sort_Strings_elem_of in Hp.
        by apply (reach_import _ _ _ pn).
      * apply I9. rewrite Htodo. by right.
    + intros s Hs. rewrite Hadded, !elem_of_app.
      destruct (I10 s Hs) as [?|[Ht|?]]; [by auto| |by auto].
      rewrite Htodo in Ht.
      apply elem_of_cons in Ht as [->|?]; [|by auto].
      left. right. by left.
    + intros q p. rewrite !Hadded, !elem_of_app, list_elem_of_singleton.
      intros [Hq| ->] Hp.
      * destruct (I11 q p Hq Hp) as [?|[Ht|?]]; [by auto| |by auto].
        rewrite Htodo in Ht.
        apply elem_of_cons in Ht as [->|?]; [|by auto].
        left. right. by left.
      * destruct (skip ig1 p) eqn:Hsk.
        -- apply skip_true_gen in Hsk.
           ++ destruct Hsk as [Hin|?]; [|by auto].
              rewrite Hadded, elem_of_app in Hin. by left.
           ++ intros p'. apply Hdom.
           ++ rewrite Hflag. done.
        -- right. left. left. rewrite Hmore.
           apply elem_of_List_filter. rewrite Hsk.
           split; [|done]. by apply sort_Strings_elem_of.
Qed.

Lemma Scan_preserves_inv n ig σ g σ' :
  Inv ig → Scan n ig σ = Some (g, σ') → Inv g ∧ todo g = [].
Proof.
  revert ig σ. induction n as [|n IH]; intros ig σ HI; simpl.
  - destruct (todo ig) eqn:Ht; [|done]. by intros [= <- <-].
  - destruct (todo ig) as [|pn rest] eqn:Ht; [by intros [= <- <-]|].
    destruct (Scan_iter pn rest ig σ) as [ig1 σ1] eqn:Hit.
    apply IH. by eapply Scan_iter_Inv.
Qed.

Lemma Scan_mono n m ig σ r :
  Scan n ig σ = Some r → (n ≤ m)%nat → Scan m ig σ = Some r.
Proof.
  revert m ig σ. induction n as [|n IH]; intros m ig σ; simpl.
  - destruct (todo ig) eqn:Ht; [|done]. intros [= <-] _.
    destruct m; simpl; by rewrite Ht.
  - destruct (todo ig) as [|pn rest] eqn:Ht.
    + intros [= <-] _. destruct m; simpl; by rewrite Ht.
    + destruct (Scan_iter pn rest ig σ) as [ig1 σ1] eqn:Hit.
      intros Hr Hle. destruct m as [|m]; [lia|].
      simpl. rewrite Ht, Hit. apply IH; [done|lia].
Qed.

(** [Scan] has at most one outcome. *)
Lemma Scan_returns_functional ig σ g1 σ1 g2 σ2 :
  Scan_returns ig σ g1 σ1 → Scan_returns ig σ g2 σ2 → g1 = g2 ∧ σ1 = σ2.
Proof.
  intros [n1 H1] [n2 H2].
  apply (Scan_mono _ (n1 `max` n2)%nat) in H1; [|lia].
  apply (Scan_mono _ (n1 `max` n2)%nat) in H2; [|lia].
  rewrite H1 in H2. by injection H2.
Qed.

(** The nodes of a finished graph are the reachable, eligible
    identifiers. *)
Lemma finished_nodes g :
  Inv g → todo g = [] →
  ∀ p, p ∈ added g ↔ reachable p ∧ elig p = true.
Proof.
  intros HI Ht p. split; [apply (inv_sound _ _ _ _ HI)|].
  intros [Hr He]. induction Hr as [s Hs|q p Hq IH Hel Hp].
  - destruct (inv_seeds _ _ _ _ HI s Hs) as [?|[Hin|Hne]]; [done| |congruence].
    rewrite Ht in Hin. by apply elem_of_nil in Hin.
  - destruct (inv_closed _ _ _ _ HI q p (IH Hel) Hp) as [?|[Hin|Hne]];
      [done| |congruence].
    rewrite Ht in Hin. by apply elem_of_nil in Hin.
Qed.

(** *** Termination *)

Variable U : list string.
Hypothesis HU : universe_ok wd seeds U = true.

Lemma reach_in_universe p : reachable p → p ∈ U.
Proof.
  apply andb_true_iff in HU as [Hseeds Hclosed].
  rewrite forallb_forall in Hseeds, Hclosed.
  induction 1 as [s Hs|q p Hq IH Hel Hp].
  - apply list_elem_of_In in Hs. apply Hseeds in Hs.
    by apply bool_decide_eq_true in Hs.
  - apply list_elem_of_In in IH. apply Hclosed in IH.
    rewrite forallb_forall in IH. apply list_elem_of_In in Hp.
    apply IH in Hp. by apply bool_decide_eq_true in Hp.
Qed.

Local Abbreviation unvisited m :=
  (sum_list (map (λ u, if bool_decide (is_Some (m !! u)) then O
                       else S (length (imports_of u))) U)).

Lemma unvisited_insert (m : gmap string (list string)) pn l :
  m !! pn = None → pn ∈ U →
  (unvisited (<[pn := l]> m) + S (length (imports_of pn)) ≤ unvisited m)%nat.
Proof.
  intros Hnone. clear HU.
  assert (∀ u, (if bool_decide (is_Some (<[pn := l]> m !! u)) then O
                else S (length (imports_of u)))
               ≤ (if bool_decide (is_Some (m !! u)) then O
                  else S (length (imports_of u))))%nat as Hpt.
  { intros u. destruct (decide (is_Some (m !! u))) as [Hs|Hn].
    - rewrite (bool_decide_eq_true_2 _ Hs), bool_decide_eq_true_2; [lia|].
      apply lookup_insert_is_Some. destruct (decide (pn = u)); by auto.
    - rewrite (bool_decide_eq_false_2 _ Hn). case_bool_decide; lia. }
  induction U as [|u U' IH]; simpl.
  { by intros ?%elem_of_nil. }
  assert (sum_list (map (λ u, if bool_decide (is_Some (<[pn := l]> m !! u))
                              then O else S (length (imports_of u))) U')
          ≤ sum_list (map (λ u, if bool_decide (is_Some (m !! u))
                              then O else S (length (imports_of u))) U'))%nat
    as Hle.
  { clear IH. induction U' as [|v V IHV]; simpl; [lia|].
    pose proof (Hpt v). lia. }
  intros [->|Hin]%elem_of_cons.
  - rewrite lookup_insert_eq, Hnone.
    rewrite (bool_decide_eq_true_2 (is_Some (Some l))); [|by eexists].
    rewrite (bool_decide_eq_false_2 (is_Some None)); [|by intros [? ?]].
    lia.
  - specialize (IH Hin). pose proof (Hpt u). lia.
Qed.

Lemma Scan_iter_weight pn rest ig σ ig' σ' :
  Inv ig → todo ig = pn :: rest →
  Scan_iter pn rest ig σ = (ig', σ') →
  (weight wd U ig' < weight wd U ig)%nat.
Proof.
  intros HI Htodo. unfold Scan_iter, weight.
  destruct (addPkg pn ig σ) as [[more ig1] σ1] eqn:Hadd.
  intros [= <- <-]. rewrite Htodo. simpl.
  apply addPkg_cases in Hadd as [[-> Hd] | Hb].
  - rewrite (dr_imports _ _ _ Hd). simpl. lia.
  - destruct Hb as [Hskip _ Himps _ _ _ _ _ Hmore].
    apply skip_false in Hskip as [_ Hnone].
    rewrite Himps, (inv_dir _ _ _ _ HI).
    assert (pn ∈ U) as HpnU.
    { apply reach_in_universe, (inv_todo _ _ _ _ HI). rewrite Htodo. by left. }
    pose proof (unvisited_insert _ _ (sort_Strings (imports_of pn))
                  Hnone HpnU) as Hun.
    assert (length more ≤ length (imports_of pn))%nat as Hlen.
    { rewrite Hmore, <- (sort_Strings_length (imports_of pn)),
        (inv_dir _ _ _ _ HI).
      apply filter_length_le. }
    rewrite length_app. lia.
Qed.

Lemma Scan_enough n ig σ :
  Inv ig → (weight wd U ig ≤ n)%nat →
  ∃ g σ', Scan n ig σ = Some (g, σ').
Proof.
  revert ig σ. induction n as [|n IH]; intros ig σ HI Hw; simpl.
  - destruct (todo ig) as [|pn rest] eqn:Ht; [by eauto|].
    unfold weight in Hw. rewrite Ht in Hw. simpl in Hw. lia.
  - destruct (todo ig) as [|pn rest] eqn:Ht; [by eauto|].
    destruct (Scan_iter pn rest ig σ) as [ig1 σ1] eqn:Hit.
    apply IH; [by eapply Scan_iter_Inv|].
    pose proof (Scan_iter_weight _ _ _ _ _ _ HI Ht Hit). lia.
Qed.

(** On a finite universe [Scan] returns, and what it returns satisfies
    the invariant with an empty worklist. *)
Lemma Scan_total σ :
  ∃ g σ', Scan_returns (initial wd std seeds) σ g σ' ∧
          Inv g ∧ todo g = [].
Proof.
  destruct (Scan_enough (weight wd U (initial wd std seeds))
              (initial wd std seeds) σ (Inv_initial) (le_n _))
    as (g & σ' & Hrun).
  exists g, σ'. split; [by eexists|].
  by apply (Scan_preserves_inv _ _ _ _ _ Inv_initial Hrun).
Qed.

End Traversal.

(** ** The two settings of [includeStd] compared *)

Section Toggle.
Context `{Host}.
Variables (wd : string) (seeds : list string).

Lemma eligible_off_on p :
  eligible wd false p = true → eligible wd true p = true.
Proof. unfold eligible. by intros [-> _]%andb_true_iff. Qed.

Lemma eligible_on_off p :
  eligible wd true p = true → is_std wd p = false →
  eligible wd false p = true.
Proof. unfold eligible. by intros [-> _]%andb_true_iff ->. Qed.

Lemma reach_off_on p : reach wd false seeds p → reach wd true seeds p.
Proof.
  induction 1 as [s Hs|q p Hq IH Hel Hp]; [by constructor|].
  apply (reach_import _ _ _ q); auto using eligible_off_on.
Qed.

Lemma reach_on_cases U p :
  universe_ok wd seeds U = true → std_closed wd U = true →
  reach wd true seeds p →
  reach wd false seeds p ∨ (eligible wd true p = true → is_std wd p = true).
Proof.
  intros HU Hcl. induction 1 as [s Hs|q p Hq IH Hel Hp].
  { left. by constructor. }
  destruct (is_std wd q) eqn:Hq_std.
  - right. intros Help.
    pose proof (reach_in_universe _ _ _ _ HU _ Hq) as HqU.
    unfold std_closed in Hcl. rewrite forallb_forall in Hcl.
    apply list_elem_of_In, Hcl in HqU. rewrite Hq_std in HqU. simpl in HqU.
    rewrite forallb_forall in HqU. apply list_elem_of_In, HqU in Hp.
    destruct (is_std wd p); [done|]. simpl in Hp.
    unfold eligible in Help. apply andb_true_iff in Help as [Hc _].
    by rewrite Hc in Hp.
  - destruct IH as [Hoff|Hstd]; [|by specialize (Hstd Hel)].
    left. apply (reach_import _ _ _ q); auto using eligible_on_off.
Qed.

End Toggle.

(** ** Lists *)

Lemma filter_eq_absent (l : list string) (p : string) :
  p ∉ l → filter (p =.) l = [].
Proof.
  induction l as [|x l IH]; [done|].
  intros [Hne Hl]%not_elem_of_cons.
  rewrite filter_cons_False by done. by apply IH.
Qed.

Lemma NoDup_once (l : list string) (p : string) :
  NoDup l → p ∈ l → length (filter (p =.) l) = 1%nat.
Proof.
  induction 1 as [|x l Hx Hl IH]; [by intros ?%elem_of_nil|].
  intros [->|Hin]%elem_of_cons.
  - rewrite filter_cons_True by done. simpl.
    by rewrite filter_eq_absent.
  - rewrite filter_cons_False; [by apply IH|]. by intros ->.
Qed.

(** ** Writers *)

Lemma append_cons x a b : String x a +:+ b = String x (a +:+ b).
Proof. reflexivity. Qed.

Lemma append_assoc (a b c : string) : (a +:+ b) +:+ c = a +:+ (b +:+ c).
Proof.
  induction a as [|x a IH]; [done|]. rewrite !append_cons. by f_equal.
Qed.

Lemma append_nil_r (a : string) : a +:+ EmptyString = a.
Proof.
  induction a as [|x a IH]; [done|]. rewrite append_cons. by f_equal.
Qed.

Lemma cat_cons (x : string) (l : list string) : cat (x :: l) = x +:+ cat l.
Proof. done. Qed.

Lemma cat_app (l1 l2 : list string) : cat (l1 ++ l2) = cat l1 +:+ cat l2.
Proof.
  induction l1 as [|x l1 IH]; [done|].
  rewrite <- app_comm_cons, !cat_cons, IH. by rewrite append_assoc.
Qed.

Lemma cat_elem_of (l : list string) (x : string) :
  x ∈ l → ∃ before after, cat l = before +:+ x +:+ after.
Proof.
  induction l as [|y l IH]; [by intros ?%elem_of_nil|].
  rewrite cat_cons. intros [->|Hin]%elem_of_cons.
  - by exists EmptyString, (cat l).
  - destruct (IH Hin) as (b & a & ->). exists (y +:+ b), a.
    by rewrite append_assoc.
Qed.

Lemma cat_map_filter {A} (keep : A → bool) (b : A → string) (l : list A) :
  cat (map (λ x, if keep x then b x else EmptyString) l) =
  cat (map b (List.filter keep l)).
Proof.
  induction l as [|x l IH]; [done|].
  cbn [map List.filter]. rewrite cat_cons, IH.
  by destruct (keep x).
Qed.

Lemma writes_refl w σ : writes w EmptyString σ σ.
Proof.
  split; [|done]. intros w'. case_decide; [|done]. by rewrite append_nil_r.
Qed.

Lemma writes_trans w t1 t2 σ σ1 σ2 :
  writes w t1 σ σ1 → writes w t2 σ1 σ2 → writes w (t1 +:+ t2) σ σ2.
Proof.
  intros [Hs1 (? & ? & ?)] [Hs2 (? & ? & ?)].
  split; [|repeat split; congruence].
  intros w'. rewrite Hs2, Hs1. case_decide; [|done]. by rewrite append_assoc.
Qed.

Lemma writes_Fprintf w s σ : writes w s σ (Fprintf w s σ).
Proof.
  split; [|by destruct w].
  intros w'. destruct (decide (w' = w)) as [->|Hne].
  - destruct w as [|b]; simpl; [done|]. by rewrite lookup_insert_eq.
  - destruct w as [|b], w' as [|b']; simpl; try done.
    rewrite lookup_insert_ne; [done|]. by intros ->.
Qed.

Lemma foldl_writes {A} (f : World → A → World) (g : A → string) w :
  (∀ σ a, writes w (g a) σ (f σ a)) →
  ∀ l σ, writes w (cat (map g l)) σ (foldl f σ l).
Proof.
  intros Hf l. induction l as [|a l IH]; intros σ.
  - apply writes_refl.
  - cbn [map foldl]. rewrite cat_cons.
    eapply writes_trans; [apply Hf|apply IH].
Qed.

(** ** The renderers *)

Lemma filtered_spec ig mr pn :
  filtered ig mr pn =
  List.filter
    (λ pi, negb (negb (includeStd ig) && bool_decide (pi ∈ Std ig))
           && Match mr pi)
    (default [] (Imports ig !! pn)).
Proof.
  unfold filtered. rewrite (foldl_collect
    (λ pi, negb (negb (includeStd ig) && bool_decide (pi ∈ Std ig))
           && Match mr pi)); [done|].
  intros acc pi.
  destruct (negb (includeStd ig) && bool_decide (pi ∈ Std ig)); [done|].
  by destruct (Match mr pi).
Qed.

Lemma elem_of_filtered ig mr pn pi :
  pi ∈ filtered ig mr pn ↔
  pi ∈ default [] (Imports ig !! pn) ∧
  (includeStd ig = true ∨ pi ∉ Std ig) ∧ Match mr pi = true.
Proof.
  rewrite filtered_spec, elem_of_List_filter, andb_true_iff, negb_true_iff,
    andb_false_iff, negb_false_iff, bool_decide_eq_false.
  tauto.
Qed.

Lemma WriteText_writes ig w mr σ :
  writes w (text_output ig mr) σ (WriteText ig w mr σ).
Proof.
  unfold text_output, text_nodes, WriteText.
  rewrite <- cat_map_filter. apply foldl_writes. clear σ. intros σ pn.
  destruct (Match mr pn); simpl; [|apply writes_refl].
  destruct (length (filtered ig mr pn) =? 0)%nat; simpl; [apply writes_refl|].
  unfold text_block. eapply writes_trans; [apply writes_Fprintf|].
  apply foldl_writes. intros. apply writes_Fprintf.
Qed.

Lemma WriteFlat_writes ig w mr σ :
  writes Stdout (flat_output ig mr) σ (WriteFlat ig w mr σ).
Proof.
  unfold flat_output, WriteFlat.
  rewrite (foldl_collect (Match mr)).
  - apply foldl_writes. intros. apply writes_Fprintf.
  - intros acc pn. by destruct (Match mr pn).
Qed.

Lemma WriteDot_loop_writes ig w mr nodes l : ∀ i σ,
  writes w (cat (dot_stmts ig mr nodes i l)) σ
    (WriteDot_loop ig w mr nodes i l σ).
Proof.
  induction l as [|pn l IH]; intros i σ; [apply writes_refl|].
  cbn [dot_stmts WriteDot_loop]. rewrite cat_app.
  eapply writes_trans; [|apply IH].
  destruct (Match mr pn); cbn [andb negb]; [|apply writes_refl].
  destruct (length (filtered ig mr pn) =? 0)%nat; cbn [andb negb];
    [apply writes_refl|].
  rewrite cat_cons. unfold node_line.
  destruct (Contains (default EmptyString (ImportPaths ig !! pn)) vendor_seg).
  all: eapply writes_trans; [apply writes_Fprintf|].
  all: apply (foldl_writes
             (λ σ pi, Fprintf w ("    " +:+ fmt_d i +:+ " -> "
                        +:+ fmt_d (default 0 (nodes !! pi)) +:+ ";" +:+ nl) σ)
             (λ pi, edge_line i (default 0 (nodes !! pi)))).
  all: intros; apply writes_Fprintf.
Qed.

Lemma WriteDot_writes ig w mr σ :
  writes w (dot_output ig mr) σ (WriteDot ig w mr σ).
Proof.
  unfold dot_output, WriteDot.
  eapply writes_trans; [apply writes_Fprintf|].
  eapply writes_trans; [apply WriteDot_loop_writes|apply writes_Fprintf].
Qed.

Lemma elem_of_text_nodes ig mr pn :
  pn ∈ text_nodes ig mr ↔
  pn ∈ added ig ∧ Match mr pn = true ∧ filtered ig mr pn ≠ [].
Proof.
  unfold text_nodes.
  rewrite elem_of_List_filter, andb_true_iff, negb_true_iff, Nat.eqb_neq.
  split; intros (? & ? & Hne); repeat split; try done.
  - intros Hnil. by rewrite Hnil in Hne.
  - by intros ?%length_zero_iff_nil.
Qed.

Lemma index_nodes_absent (l : list string) : ∀ i (m : gmap string Z) k,
  k ∉ l → index_nodes i l m !! k = m !! k.
Proof.
  induction l as [|x l IH]; intros i m k; [done|].
  intros [Hne Hl]%not_elem_of_cons. simpl.
  rewrite IH by done. by rewrite lookup_insert_ne.
Qed.

Lemma dot_stmts_edge ig mr nodes (l : list string) :
  ∀ (k : nat) i pn pi,
    l !! k = Some pn → Match mr pn = true → pi ∈ filtered ig mr pn →
    edge_line (i + Z.of_nat k) (default 0 (nodes !! pi))
      ∈ dot_stmts ig mr nodes i l.
Proof.
  induction l as [|x l IH]; intros k i pn pi; [done|].
  cbn [dot_stmts]. destruct k as [|k].
  - simpl. intros [= ->] Hm Hpi. apply elem_of_app. left.
    assert ((length (filtered ig mr pn) =? 0)%nat = false) as Hlen.
    { destruct (filtered ig mr pn); [by apply elem_of_nil in Hpi|done]. }
    rewrite Hm, Hlen. cbn [andb negb]. rewrite Z.add_0_r. right.
    apply list_elem_of_In,
      (in_map (λ pi, edge_line i (default 0 (nodes !! pi)))), list_elem_of_In.
    done.
  - intros Hk Hm Hpi. apply elem_of_app. right.
    replace (i + Z.of_nat (S k)) with ((i + 1) + Z.of_nat k) by lia.
    by eapply IH.
Qed.

(** ShowGraph returns only when both commands ran, and only then is the
    image gone; whenever a command fails the process exits with status 1
    and the image exists. *)
Lemma ShowGraph_outcome `{Host} (ig : ImportGraph) (viewer : string)
    (mr : matcher) (σ : World) (fn : string) :
  ioutil_TempFile EmptyString "pkgdag-" (files σ) = inr fn →
  match ShowGraph ig viewer mr σ with
  | Ret _ σ' =>
      cmd_Run "dot" ["-Tsvg"; "-o" +:+ (fn +:+ ".svg")] (dot_output ig mr)
        = None ∧
      cmd_Run viewer [fn +:+ ".svg"] EmptyString = None ∧
      fn +:+ ".svg" ∉ files σ'
  | Exit code σ' =>
      code = 1 ∧
      (is_Some (cmd_Run "dot" ["-Tsvg"; "-o" +:+ (fn +:+ ".svg")]
                  (dot_output ig mr)) ∨
       is_Some (cmd_Run viewer [fn +:+ ".svg"] EmptyString)) ∧
      fn +:+ ".svg" ∈ files σ'
  end.
Proof.
  intros Htmp. unfold ShowGraph, mbind, M_bind, new_Buffer, lift.
  set (b := fresh (dom (buffers σ))).
  set (σ1 := set_buffers (<[b:=EmptyString]> (buffers σ)) σ).
  destruct (WriteDot_writes ig (Buffer b) mr σ1) as (Hsink & _ & _ & Hfiles).
  set (σ2 := WriteDot ig (Buffer b) mr σ1) in *.
  unfold TempFile_or_die. rewrite Hfiles. simpl files. rewrite Htmp.
  unfold os_Rename. simpl files.
  rewrite bool_decide_eq_true_2
    by (apply elem_of_union; left; by apply elem_of_singleton).
  set (fs := {[fn +:+ ".svg"]} ∪ ({[fn]} ∪ files σ) ∖ {[fn]}).
  assert (fn +:+ ".svg" ∈ fs) as Himg
    by (apply elem_of_union; left; by apply elem_of_singleton).
  assert (sink (Buffer b) (set_files fs (set_files ({[fn]} ∪ files σ) σ2))
          = dot_output ig mr) as ->.
  { transitivity (sink (Buffer b) σ2); [done|].
    rewrite Hsink, decide_True by done. unfold σ1. simpl.
    by rewrite lookup_insert_eq. }
  unfold run, log_Fatalf.
  destruct (cmd_Run "dot" _ _) as [e1|] eqn:Hdot.
  { simpl. repeat split; [by left; eexists|done]. }
  cbn [mret M_ret].
  destruct (cmd_Run viewer _ _) as [e2|] eqn:Hview.
  { simpl. repeat split; [by right; eexists|done]. }
  simpl. repeat split.
  intros [_ Hn]%elem_of_difference. by apply Hn, elem_of_singleton.
Qed.

(** ** The matcher *)

Lemma prefix_app (p s : string) : String.prefix p (p +:+ s) = true.
Proof.
  induction p as [|a p IH]; [by destruct s|].
  rewrite append_cons. simpl. by destruct (ascii_dec a a).
Qed.

Lemma prefix_long (p x y : string) :
  (String.length p ≤ String.length x)%nat →
  String.prefix p (x +:+ y) = String.prefix p x.
Proof.
  revert x. induction p as [|a p IH]; intros x Hlen.
  - by destruct x, y.
  - destruct x as [|b x]; [simpl in Hlen; lia|].
    rewrite append_cons. simpl. destruct (ascii_dec a b); [|done].
    apply IH. simpl in Hlen. lia.
Qed.

Lemma length_append (a b : string) :
  String.length (a +:+ b) = (String.length a + String.length b)%nat.
Proof.
  induction a as [|x a IH]; [done|]. rewrite append_cons. simpl. by rewrite IH.
Qed.

Lemma Index_ge (s sep : string) : -1 ≤ Index s sep.
Proof.
  induction s as [|c s IH]; cbn [Index].
  - destruct (String.prefix sep EmptyString); lia.
  - destruct (String.prefix sep (String c s)); [lia|].
    destruct (Index s sep <? 0) eqn:Hr; lia.
Qed.

Lemma slice_from_app (pre s : string) (n : nat) :
  slice_from (String.length pre + n) (pre +:+ s) = slice_from n s.
Proof. induction pre as [|c pre IH]; [done|]. by rewrite append_cons. Qed.

(** If no ["/vendor/"] begins inside [pre], the first one in
    [pre/vendor/rest] is the one written out. *)
Lemma Index_first_vendor (pre rest : string) :
  Index (pre +:+ "/vendor") vendor_seg = -1 →
  Index (pre +:+ vendor_seg +:+ rest) vendor_seg
  = Z.of_nat (String.length pre).
Proof.
  induction pre as [|c pre IH].
  - intros _.
    change (EmptyString +:+ vendor_seg +:+ rest) with (vendor_seg +:+ rest).
    change (vendor_seg +:+ rest)
      with (String "/" ("vendor/" +:+ rest)) at 1.
    cbn [Index].
    change (String "/" ("vendor/" +:+ rest)) with (vendor_seg +:+ rest).
    by rewrite prefix_app.
  - rewrite !append_cons. cbn [Index].
    assert (String c (pre +:+ vendor_seg +:+ rest)
            = String c (pre +:+ "/vendor") +:+ ("/" +:+ rest)) as Hsplit.
    { rewrite append_cons, append_assoc. done. }
    rewrite Hsplit at 1. rewrite prefix_long.
    2:{ simpl. rewrite length_append. simpl. lia. }
    destruct (String.prefix vendor_seg (String c (pre +:+ "/vendor")));
      [done|].
    pose proof (Index_ge (pre +:+ "/vendor") vendor_seg) as Hge.
    destruct (Index (pre +:+ "/vendor") vendor_seg <? 0) eqn:Hneg;
      [|lia].
    intros _. rewrite IH by lia.
    destruct (Z.of_nat (String.length pre) <? 0) eqn:Hn; [lia|].
    simpl String.length. lia.
Qed.

Lemma prefix_split (p s : string) :
  String.prefix p s = true → s = p +:+ slice_from (String.length p) s.
Proof.
  revert s. induction p as [|a p IH]; intros s; [done|].
  destruct s as [|b s]; [done|]. simpl.
  destruct (ascii_dec a b) as [->|]; [|done].
  intros Hp. rewrite append_cons. f_equal. by apply IH.
Qed.

(** An identifier that contains ["/vendor/"] splits at the first one. *)
Lemma Index_split (id : string) :
  0 ≤ Index id vendor_seg →
  ∃ pre rest,
    id = pre +:+ vendor_seg +:+ rest ∧
    Index (pre +:+ "/vendor") vendor_seg = -1.
Proof.
  induction id as [|c id IH]; [done|]. cbn [Index].
  destruct (String.prefix vendor_seg (String c id)) eqn:Hp.
  - intros _. exists EmptyString, (slice_from 8 (String c id)).
    split; [|done]. by apply prefix_split in Hp.
  - pose proof (Index_ge id vendor_seg) as Hge.
    destruct (Index id vendor_seg <? 0) eqn:Hneg; [done|].
    intros _. destruct IH as (pre & rest & -> & Hpre); [lia|].
    exists (String c pre), rest. split; [done|].
    rewrite append_cons. cbn [Index].
    assert (String c (pre +:+ vendor_seg +:+ rest)
            = String c (pre +:+ "/vendor") +:+ ("/" +:+ rest)) as Hsplit.
    { rewrite append_cons, append_assoc. done. }
    rewrite Hsplit, prefix_long in Hp.
    2:{ simpl. rewrite length_append. simpl. lia. }
    by rewrite Hp, Hpre.
Qed.

(** ** The guard of [skip] *)

(** With [includeStd] off, the answer of [skip] does not depend on [Std]. *)
Lemma skip_excluding_ignores_Std `{Host} (ig : ImportGraph) (pn : string) :
  includeStd ig = false →
  skip ig pn =
  (String.eqb pn "C" || HasPrefix pn "golang_org/x/")
  || bool_decide (is_Some (Imports ig !! pn)).
Proof.
  intros Hflag. unfold skip. rewrite Hflag.
  destruct (String.eqb pn "C" || HasPrefix pn "golang_org/x/"); [done|].
  by case_bool_decide.
Qed.

(** ** The start of a run *)

(** When [go list] succeeds, [NewImportGraph] hands over the empty graph
    with the listed packages as worklist. *)
Lemma NewImportGraph_initial `{Host} (wd : string) (std : bool)
    (args pkgs : list string) (σ : World) :
  go_list ("list" :: args) = inr pkgs →
  NewImportGraph wd std args σ = Ret (initial wd std pkgs) σ.
Proof. intros Hlist. unfold NewImportGraph, ig_list. by rewrite Hlist. Qed.

(** * The properties *)

(** C1, amended.  On every finite import relation, cyclic or not, [Scan]
    returns with an empty worklist.  The identifiers in [added] are exactly
    those that are classifiable, not excluded, and reachable from the seeds
    along packages that themselves became nodes; each of them occurs there
    exactly once; the keys of [Imports] are the members of [added]. *)
Theorem Scan_terminates_and_visits_once `{Host}
    (wd : string) (std : bool) (seeds U : list string) (σ : World) :
  universe_ok wd seeds U = true →
  ∃ g σ',
    Scan_returns (initial wd std seeds) σ g σ' ∧
    todo g = [] ∧
    NoDup (added g) ∧
    (∀ p, reach wd std seeds p → eligible wd std p = true →
          p ∈ added g ∧ length (filter (p =.) (added g)) = 1%nat) ∧
    (∀ p, p ∈ added g →
          reach wd std seeds p ∧ eligible wd std p = true) ∧
    dom (Imports g) = list_to_set (added g).
Proof.
  intros HU.
  destruct (Scan_total wd std seeds U HU σ) as (g & σ' & Hrun & HI & Ht).
  exists g, σ'.
  split; [done|]. split; [done|].
  split; [apply (inv_nodup _ _ _ _ HI)|].
  split; [|split].
  - intros p Hr He. split.
    + by apply (finished_nodes _ _ _ _ HI Ht).
    + apply NoDup_once; [apply (inv_nodup _ _ _ _ HI)|].
      by apply (finished_nodes _ _ _ _ HI Ht).
  - apply (inv_sound _ _ _ _ HI).
  - apply set_eq. intros p.
    by rewrite elem_of_dom, elem_of_list_to_set, (inv_dom _ _ _ _ HI).
Qed.

(** The project of [imports_plain], with its cycle, from the seed ["app"]. *)
Lemma Scan_terminates_and_visits_once_witness :
  ∃ g σ',
    Scan_returns (H:=Sample.host_plain)
      (initial "/src" false ["app"]) Sample.world0 g σ' ∧
    todo g = [] ∧
    NoDup (added g) ∧
    (∀ p, reach (H:=Sample.host_plain) "/src" false ["app"] p →
          eligible (H:=Sample.host_plain) "/src" false p = true →
          p ∈ added g ∧ length (filter (p =.) (added g)) = 1%nat) ∧
    (∀ p, p ∈ added g →
          reach (H:=Sample.host_plain) "/src" false ["app"] p ∧
          eligible (H:=Sample.host_plain) "/src" false p = true) ∧
    dom (Imports g) = list_to_set (added g).
Proof.
  apply (Scan_terminates_and_visits_once (H:=Sample.host_plain)
           "/src" false ["app"] Sample.universe_plain Sample.world0).
  vm_compute. reflexivity.
Defined.

(** C1 as stated fails: an identifier can be reachable, classifiable and
    not excluded and still be absent, when every path to it leads through
    a package that does not become a node.  With [imports_odd] and the
    standard library left out, ["golang.org/x/text"] is imported by ["fmt"]
    only; [addPkg] returns for ["fmt"] before its imports are looked at. *)
Lemma Scan_misses_what_only_dropped_packages_import :
  ¬ (∀ (H : Host) (wd : string) (std : bool) (seeds U : list string)
       (σ : World),
       universe_ok wd seeds U = true →
       ∃ g σ',
         Scan_returns (initial wd std seeds) σ g σ' ∧
         ∀ p, reach_any wd seeds p → eligible wd std p = true →
              p ∈ added g ∧ length (filter (p =.) (added g)) = 1%nat).
Proof.
  intros Hall.
  destruct (Hall Sample.host_odd "/src" false ["app"] Sample.universe_odd
              Sample.world0) as (g & σ' & Hrun & Hvisit).
  { vm_compute. reflexivity. }
  pose (off := Sample.outcome
                 (Scan (H:=Sample.host_odd) 10
                    (initial "/src" false ["app"]) Sample.world0)).
  assert (Scan_returns (H:=Sample.host_odd) (initial "/src" false ["app"])
            Sample.world0 off.1 off.2) as Hoff.
  { exists 10%nat. vm_compute. reflexivity. }
  destruct (Scan_returns_functional _ _ _ _ _ _ Hrun Hoff) as [-> _].
  destruct (Hvisit "golang.org/x/text") as [Hin _].
  - apply (reach_any_import _ _ "fmt").
    + apply (reach_any_import _ _ "app").
      * apply reach_any_seed. by apply list_elem_of_singleton.
      * refine (bool_decide_unpack _ _). vm_compute. exact I.
    + refine (bool_decide_unpack _ _). vm_compute. exact I.
  - vm_compute. reflexivity.
  - assert (bool_decide ("golang.org/x/text" ∈ added off.1) = false) as Hno
      by (vm_compute; reflexivity).
    by rewrite bool_decide_eq_true_2 in Hno.
Qed.

(** C2, on the code.  With [includeStd] off, [skip] never looks at [Std]:
    a direct import that is already recorded there is put on the worklist,
    and when it is popped [build.Import] runs for it a second time.  The
    graph itself stays as it was.  Here the seeds are ["fmt"] and ["app"],
    and ["app"] imports ["fmt"]. *)
Example known_std_is_classified_again :
  let ig0 := initial "/src" false ["fmt"; "app"] in
  let '(ig1, σ1) :=
    Scan_iter (H:=Sample.host_plain) "fmt" ["app"] ig0 Sample.world0 in
  let '(ig2, σ2) := Scan_iter (H:=Sample.host_plain) "app" [] ig1 σ1 in
  let '(ig3, σ3) :=
    Scan_iter (H:=Sample.host_plain) "fmt" ["gone"; "libA"; "libB"] ig2 σ2 in
  includeStd ig2 = false ∧
  bool_decide ("fmt" ∈ Std ig1) = true ∧
  bool_decide ("fmt" ∈ Std ig2) = true ∧
  import_calls σ2 = ["fmt"; "app"] ∧
  todo ig2 = ["fmt"; "gone"; "libA"; "libB"] ∧
  skip ig2 "fmt" = false ∧
  import_calls σ3 = ["fmt"; "app"; "fmt"] ∧
  ig3 = set_todo ["gone"; "libA"; "libB"] ig2.
Proof. vm_compute. repeat split; reflexivity. Qed.

(** C3, as the code has it.  An identifier that contains ["/vendor/"]
    splits at the first one (no other begins before it): [Match] with a
    pattern asks the pattern about what follows that first ["/vendor/"].
    A matcher built from the empty pattern accepts every identifier. *)
Theorem Match_strips_first_vendor `{Host} (P : Regexp) (id : string) :
  0 ≤ Index id vendor_seg →
  (∃ pre rest,
     id = pre +:+ vendor_seg +:+ rest ∧
     Index (pre +:+ "/vendor") vendor_seg = -1 ∧
     Index id vendor_seg = Z.of_nat (String.length pre) ∧
     Match (mkMatcher (Some P)) id = MatchString P rest) ∧
  (∀ id', ∃ mr, newMatcher EmptyString = Some mr ∧ Match mr id' = true).
Proof.
  intros Hin. split; [|intros id'; by exists (mkMatcher None)].
  destruct (Index_split id Hin) as (pre & rest & -> & Hfirst).
  exists pre, rest. split; [done|]. split; [done|].
  pose proof (Index_first_vendor pre rest Hfirst) as Hidx.
  split; [done|].
  unfold Match. cbn [re]. rewrite Hidx.
  rewrite (proj2 (Z.leb_le _ _)) by lia.
  replace (Z.to_nat (Z.of_nat (String.length pre) + len vendor_seg))
    with (String.length pre + 8)%nat by (unfold len; simpl; lia).
  by rewrite slice_from_app.
Qed.

(** [github.com/x/vendor/libA] against the pattern [^libA$]. *)
Lemma Match_strips_first_vendor_witness :
  (∃ pre rest,
     "github.com/x/vendor/libA" = pre +:+ vendor_seg +:+ rest ∧
     Index (pre +:+ "/vendor") vendor_seg = -1 ∧
     Index "github.com/x/vendor/libA" vendor_seg
       = Z.of_nat (String.length pre) ∧
     Match (mkMatcher (Some Sample.re_libA)) "github.com/x/vendor/libA"
       = MatchString Sample.re_libA rest) ∧
  (∀ id', ∃ mr, newMatcher (H:=Sample.host_plain) EmptyString = Some mr ∧
                Match mr id' = true).
Proof.
  apply (Match_strips_first_vendor (H:=Sample.host_plain)
           Sample.re_libA "github.com/x/vendor/libA").
  by vm_compute.
Defined.

(** C3 as stated fails: when ["/vendor/"] occurs twice, [strings.Index]
    finds the first, so the pattern is asked about ["b/vendor/c"] and not
    about ["c"]. *)
Lemma Match_does_not_take_last_vendor :
  ¬ (∀ (P : Regexp) (id r : string),
       after_last_vendor id = Some r →
       Match (mkMatcher (Some P)) id = MatchString P r).
Proof.
  intros Hall.
  specialize (Hall Sample.re_c "a/vendor/b/vendor/c" "c" eq_refl).
  by vm_compute in Hall.
Qed.

(** C4, as the code has it.  WriteText appends to its writer one block per
    member of [text_nodes], in that order.  With a pattern these nodes are
    among the nodes printed with no pattern, and they are the visited nodes
    that pass the matcher and keep one import or more after filtering. *)
Theorem WriteText_filter_law (ig : ImportGraph) (mr : matcher) :
  (∀ w σ, sink w (WriteText ig w mr σ) =
          sink w σ +:+ cat (map (text_block ig mr) (text_nodes ig mr))) ∧
  (∀ pn, pn ∈ text_nodes ig mr → pn ∈ text_nodes ig (mkMatcher None)) ∧
  (∀ pn, pn ∈ text_nodes ig mr ↔
         pn ∈ added ig ∧ Match mr pn = true ∧ filtered ig mr pn ≠ []).
Proof.
  split; [|split].
  - intros w σ. destruct (WriteText_writes ig w mr σ) as [Hs _].
    rewrite Hs. by rewrite decide_True.
  - intros pn. rewrite !elem_of_text_nodes.
    intros (Hin & _ & Hne). repeat split; try done.
    destruct (filtered ig mr pn) as [|pi l] eqn:Hf; [done|].
    assert (pi ∈ filtered ig mr pn) as Hpi by (rewrite Hf; by left).
    apply elem_of_filtered in Hpi as (? & ? & _).
    assert (pi ∈ filtered ig (mkMatcher None) pn) as Hpi'
      by by apply elem_of_filtered.
    intros Hnil. rewrite Hnil in Hpi'. by apply elem_of_nil in Hpi'.
  - apply elem_of_text_nodes.
Qed.

(** C4 as stated fails: a visited node that passes the matcher is left out
    when none of its imports is kept.  In the graph of [imports_plain],
    ["libB"] imports nothing and is not printed. *)
Lemma WriteText_omits_nodes_without_edges :
  ¬ (∀ (H : Host) (wd : string) (std : bool) (seeds : list string)
       (σ : World) (g : ImportGraph) (σ' : World) (mr : matcher)
       (pn : string),
       Scan_returns (initial wd std seeds) σ g σ' →
       pn ∈ text_nodes g mr ↔ pn ∈ added g ∧ Match mr pn = true).
Proof.
  intros Hall.
  pose (r := Sample.outcome
               (Scan (H:=Sample.host_plain) 10
                  (initial "/src" false ["app"]) Sample.world0)).
  assert ("libB" ∈ text_nodes r.1 (mkMatcher None)) as Hin.
  { apply (Hall Sample.host_plain "/src" false ["app"] Sample.world0
             r.1 r.2 (mkMatcher None) "libB").
    - exists 10%nat. vm_compute. reflexivity.
    - split; [|done]. refine (bool_decide_unpack _ _). vm_compute. exact I. }
  apply elem_of_text_nodes in Hin as (_ & _ & Hne). by apply Hne.
Qed.

(** C5, as the code has it.  The list stored for a node is what
    [build.Import] returned, put in ascending order: it is sorted and a
    permutation of that list, so it is free of duplicates exactly when the
    returned list is. *)
Theorem stored_imports_sorted `{Host}
    (wd : string) (std : bool) (seeds U : list string) (σ : World) :
  universe_ok wd seeds U = true →
  ∃ g σ',
    Scan_returns (initial wd std seeds) σ g σ' ∧
    ∀ n, n ∈ added g →
      ∃ l, Imports g !! n = Some l ∧
           Sorted String.le l ∧
           l ≡ₚ direct_imports wd n ∧
           (NoDup l ↔ NoDup (direct_imports wd n)).
Proof.
  intros HU.
  destruct (Scan_total wd std seeds U HU σ) as (g & σ' & Hrun & HI & Ht).
  exists g, σ'. split; [done|]. intros n Hn.
  apply (inv_dom _ _ _ _ HI) in Hn as [l Hl]. exists l. split; [done|].
  rewrite (inv_stored _ _ _ _ HI _ _ Hl). unfold sort_Strings.
  split; [apply Sorted_merge_sort, _|].
  split; [apply merge_sort_Permutation|].
  by rewrite merge_sort_Permutation.
Qed.

(** The project of [imports_plain], whose import lists come unsorted. *)
Lemma stored_imports_sorted_witness :
  ∃ g σ',
    Scan_returns (H:=Sample.host_plain)
      (initial "/src" true ["app"]) Sample.world0 g σ' ∧
    ∀ n, n ∈ added g →
      ∃ l, Imports g !! n = Some l ∧
           Sorted String.le l ∧
           l ≡ₚ direct_imports (H:=Sample.host_plain) "/src" n ∧
           (NoDup l ↔ NoDup (direct_imports (H:=Sample.host_plain) "/src" n)).
Proof.
  apply (stored_imports_sorted (H:=Sample.host_plain)
           "/src" true ["app"] Sample.universe_plain Sample.world0).
  vm_compute. reflexivity.
Defined.

(** C5 as stated fails: [sort.Strings] orders the list and keeps repeated
    entries.  With [imports_odd], the node ["twice"] stores
    [["libB"; "libB"]]. *)
Lemma stored_imports_may_repeat :
  ¬ (∀ (H : Host) (wd : string) (std : bool) (seeds : list string)
       (σ : World) (g : ImportGraph) (σ' : World) (n : string)
       (l : list string),
       Scan_returns (initial wd std seeds) σ g σ' →
       Imports g !! n = Some l →
       Sorted String.le l ∧ NoDup l).
Proof.
  intros Hall.
  pose (r := Sample.outcome
               (Scan (H:=Sample.host_odd) 10
                  (initial "/src" false ["twice"]) Sample.world0)).
  destruct (Hall Sample.host_odd "/src" false ["twice"] Sample.world0
              r.1 r.2 "twice" ["libB"; "libB"]) as [_ Hnd].
  - exists 10%nat. vm_compute. reflexivity.
  - vm_compute. reflexivity.
  - apply NoDup_cons in Hnd as [Hnotin _]. apply Hnotin. by left.
Qed.

(** C6, as the code has it.  Every node of the graph built without the
    standard library is a node of the graph built with it, with the same
    stored imports, and every edge the renderers keep in the first they
    keep in the second.  The edges that appear on the shared nodes lead to
    standard-library packages.  The nodes that appear are standard-library
    packages provided that, within the universe, standard-library packages
    import only standard-library packages. *)
Theorem toggle_keeps_nodes `{Host}
    (wd : string) (seeds U : list string) (σ : World) :
  universe_ok wd seeds U = true →
  ∃ g_off σ_off g_on σ_on,
    Scan_returns (initial wd false seeds) σ g_off σ_off ∧
    Scan_returns (initial wd true seeds) σ g_on σ_on ∧
    (∀ p, p ∈ added g_off →
          p ∈ added g_on ∧ Imports g_on !! p = Imports g_off !! p) ∧
    (∀ p mr pi, p ∈ added g_off →
          (pi ∈ filtered g_off mr p → pi ∈ filtered g_on mr p) ∧
          (pi ∈ filtered g_on mr p → pi ∉ filtered g_off mr p →
           is_std wd pi = true)) ∧
    (std_closed wd U = true →
     ∀ p, p ∈ added g_on → p ∉ added g_off → is_std wd p = true).
Proof.
  intros HU.
  destruct (Scan_total wd false seeds U HU σ) as (g0 & σ0 & Hr0 & HI0 & Ht0).
  destruct (Scan_total wd true seeds U HU σ) as (g1 & σ1 & Hr1 & HI1 & Ht1).
  exists g0, σ0, g1, σ1. split; [done|]. split; [done|].
  pose proof (finished_nodes _ _ _ _ HI0 Ht0) as Hn0.
  pose proof (finished_nodes _ _ _ _ HI1 Ht1) as Hn1.
  assert (∀ p, p ∈ added g0 →
            p ∈ added g1 ∧ Imports g1 !! p = Imports g0 !! p) as Hsub.
  { intros p Hp. assert (p ∈ added g1) as Hp1.
    { apply Hn1. apply Hn0 in Hp as [Hr He].
      split; [by apply reach_off_on|by apply eligible_off_on]. }
    split; [done|].
    apply (inv_dom _ _ _ _ HI0) in Hp as [l0 Hl0].
    apply (inv_dom _ _ _ _ HI1) in Hp1 as [l1 Hl1].
    rewrite Hl0, Hl1.
    by rewrite (inv_stored _ _ _ _ HI0 _ _ Hl0),
      (inv_stored _ _ _ _ HI1 _ _ Hl1). }
  split; [done|]. split.
  - intros p mr pi Hp. destruct (Hsub p Hp) as [_ Himps].
    rewrite !elem_of_filtered, Himps, (inv_flag _ _ _ _ HI1),
      (inv_flag _ _ _ _ HI0).
    split; [by intros (? & _ & ?); auto|].
    intros (Hin & _ & Hm) Hnot.
    destruct (decide (pi ∈ Std g0)) as [Hs|Hs].
    + by apply (inv_std_sound _ _ _ _ HI0).
    + destruct Hnot. by auto.
  - intros Hcl p Hp1 Hp0. apply Hn1 in Hp1 as [Hr He].
    destruct (reach_on_cases wd seeds U p HU Hcl Hr) as [Hoff|Hstd];
      [|by auto].
    destruct (is_std wd p) eqn:Hs; [done|].
    destruct Hp0. apply Hn0. split; [done|]. by apply eligible_on_off.
Qed.

(** The project of [imports_plain], where [fmt] imports [os] only. *)
Lemma toggle_keeps_nodes_witness :
  ∃ g_off σ_off g_on σ_on,
    Scan_returns (H:=Sample.host_plain)
      (initial "/src" false ["app"]) Sample.world0 g_off σ_off ∧
    Scan_returns (H:=Sample.host_plain)
      (initial "/src" true ["app"]) Sample.world0 g_on σ_on ∧
    (∀ p, p ∈ added g_off →
          p ∈ added g_on ∧ Imports g_on !! p = Imports g_off !! p) ∧
    (∀ p mr pi, p ∈ added g_off →
          (pi ∈ filtered g_off mr p → pi ∈ filtered g_on mr p) ∧
          (pi ∈ filtered g_on mr p → pi ∉ filtered g_off mr p →
           is_std (H:=Sample.host_plain) "/src" pi = true)) ∧
    (∀ p, p ∈ added g_on → p ∉ added g_off →
          is_std (H:=Sample.host_plain) "/src" p = true).
Proof.
  destruct (toggle_keeps_nodes (H:=Sample.host_plain)
              "/src" ["app"] Sample.universe_plain Sample.world0)
    as (g0 & σ0 & g1 & σ1 & Hr0 & Hr1 & Hsub & Hedges & Hnew).
  { vm_compute. reflexivity. }
  exists g0, σ0, g1, σ1. repeat split; try done.
  - apply Hsub. done.
  - apply Hsub. done.
  - apply Hedges. done.
  - apply Hedges. done.
  - apply Hnew. vm_compute. reflexivity.
Defined.

(** C6 as stated fails: switching the standard library on can bring in a
    package outside it.  With [imports_odd], ["fmt"] imports
    ["golang.org/x/text"], which resolves outside GOROOT and is reachable
    through ["fmt"] only. *)
Lemma toggle_may_add_other_nodes :
  ¬ (∀ (H : Host) (wd : string) (seeds : list string) (σ : World)
       (g_off : ImportGraph) (σ_off : World)
       (g_on : ImportGraph) (σ_on : World) (p : string),
       Scan_returns (initial wd false seeds) σ g_off σ_off →
       Scan_returns (initial wd true seeds) σ g_on σ_on →
       p ∈ added g_on → p ∉ added g_off → is_std wd p = true).
Proof.
  intros Hall.
  pose (off := Sample.outcome
                 (Scan (H:=Sample.host_odd) 10
                    (initial "/src" false ["app"]) Sample.world0)).
  pose (on := Sample.outcome
                (Scan (H:=Sample.host_odd) 10
                   (initial "/src" true ["app"]) Sample.world0)).
  assert (is_std (H:=Sample.host_odd) "/src" "golang.org/x/text" = true)
    as Habs; [|by vm_compute in Habs].
  apply (Hall Sample.host_odd "/src" ["app"] Sample.world0
           off.1 off.2 on.1 on.2).
  - exists 10%nat. vm_compute. reflexivity.
  - exists 10%nat. vm_compute. reflexivity.
  - refine (bool_decide_unpack _ _). vm_compute. exact I.
  - refine (bool_decide_unpack _ _). vm_compute. exact I.
Qed.

(** C7.  When [build.Import] fails for the identifier at the head of the
    worklist, the turn logs one line and calls [build.Import] once; the
    graph is left as it was and the rest of the worklist stays in place.  In
    the finished graph no identifier whose classification fails is a node;
    every node is reachable from the seeds along packages that became nodes
    (so what can only be reached through a failed package is absent); and
    every classifiable, non-excluded identifier reachable that way is a
    node. *)
Theorem classification_error_drops_node `{Host}
    (wd : string) (std : bool) (seeds U : list string) (σ : World) :
  universe_ok wd seeds U = true →
  (∀ ig σ1 pn rest err,
     skip ig pn = false →
     build_Import pn (srcDir ig) = ImportErr err →
     Scan_iter pn rest ig σ1 =
       (set_todo rest ig,
        log_Printf ("import pkg=" +:+ pn +:+ " err=" +:+ err)
          (note_import pn σ1))) ∧
  ∃ g σ',
    Scan_returns (initial wd std seeds) σ g σ' ∧
    (∀ pn err, build_Import pn wd = ImportErr err → pn ∉ added g) ∧
    (∀ p, p ∈ added g → reach wd std seeds p) ∧
    (∀ p, reach wd std seeds p → eligible wd std p = true → p ∈ added g).
Proof.
  intros HU. split.
  { intros ig σ1 pn rest err Hskip Himp.
    unfold Scan_iter, addPkg. by rewrite Hskip, Himp. }
  destruct (Scan_total wd std seeds U HU σ) as (g & σ' & Hrun & HI & Ht).
  pose proof (finished_nodes _ _ _ _ HI Ht) as Hn.
  exists g, σ'. split; [done|]. repeat split.
  - intros pn err Himp [_ He]%Hn. unfold eligible, classifiable in He.
    rewrite Himp in He. by rewrite andb_false_r in He.
  - intros p Hp. by apply Hn.
  - intros p Hr He. by apply Hn.
Qed.

(** The project of [imports_plain], where [gone] cannot be resolved. *)
Lemma classification_error_drops_node_witness :
  (∀ ig σ1 pn rest err,
     skip ig pn = false →
     build_Import (Host:=Sample.host_plain) pn (srcDir ig) = ImportErr err →
     Scan_iter (H:=Sample.host_plain) pn rest ig σ1 =
       (set_todo rest ig,
        log_Printf ("import pkg=" +:+ pn +:+ " err=" +:+ err)
          (note_import pn σ1))) ∧
  ∃ g σ',
    Scan_returns (H:=Sample.host_plain)
      (initial "/src" false ["app"]) Sample.world0 g σ' ∧
    (∀ pn err, build_Import (Host:=Sample.host_plain) pn "/src"
               = ImportErr err → pn ∉ added g) ∧
    (∀ p, p ∈ added g → reach (H:=Sample.host_plain) "/src" false ["app"] p) ∧
    (∀ p, reach (H:=Sample.host_plain) "/src" false ["app"] p →
          eligible (H:=Sample.host_plain) "/src" false p = true →
          p ∈ added g).
Proof.
  apply (classification_error_drops_node (H:=Sample.host_plain)
           "/src" false ["app"] Sample.universe_plain Sample.world0).
  vm_compute. reflexivity.
Defined.

(** C8, on the code.  [run] ends the process through [log.Fatalf], so
    [os.Remove] at the end of ShowGraph is reached only when both commands
    succeed: the image is left behind when [dot] fails and when the viewer
    fails (exit status 1 in both cases), and it is removed when both run. *)
Example ShowGraph_leaves_image_on_failure :
  (match ShowGraph (H:=Sample.host_no_dot) Sample.graph_plain "xdg-open"
           (mkMatcher None) Sample.world0 with
   | Exit code σ' =>
       code = 1 ∧ bool_decide ("/tmp/pkgdag-123.svg" ∈ files σ') = true
   | Ret _ _ => False
   end) ∧
  (match ShowGraph (H:=Sample.host_no_viewer) Sample.graph_plain "xdg-open"
           (mkMatcher None) Sample.world0 with
   | Exit code σ' =>
       code = 1 ∧ bool_decide ("/tmp/pkgdag-123.svg" ∈ files σ') = true
   | Ret _ _ => False
   end) ∧
  (match ShowGraph (H:=Sample.host_plain) Sample.graph_plain "xdg-open"
           (mkMatcher None) Sample.world0 with
   | Ret _ σ' => bool_decide ("/tmp/pkgdag-123.svg" ∈ files σ') = false
   | Exit _ _ => False
   end).
Proof. vm_compute. repeat split; reflexivity. Qed.

(** C9.  If a node that WriteDot renders keeps an import that is not a
    node, the lookup [nodes[pi]] gives 0 and the edge statement written for
    it points to index 0, which is the index of the first node of [added]. *)
Theorem WriteDot_edge_to_absent_node
    (ig : ImportGraph) (w : Writer) (mr : matcher) (σ : World)
    (i : nat) (pn pi : string) :
  added ig !! i = Some pn →
  Match mr pn = true →
  pi ∈ filtered ig mr pn →
  pi ∉ added ig →
  default 0 (index_nodes 0 (added ig) ∅ !! pi) = 0 ∧
  (∃ before after,
     sink w (WriteDot ig w mr σ) =
     sink w σ +:+ before +:+ edge_line (Z.of_nat i) 0 +:+ after) ∧
  (∀ first, added ig !! 0%nat = Some first → NoDup (added ig) →
            index_nodes 0 (added ig) ∅ !! first = Some 0).
Proof.
  intros Hi Hm Hpi Hout.
  assert (default 0 (index_nodes 0 (added ig) ∅ !! pi) = 0) as Hzero.
  { by rewrite index_nodes_absent, lookup_empty. }
  split; [done|]. split.
  - destruct (WriteDot_writes ig w mr σ) as [Hs _].
    rewrite Hs, decide_True by done. unfold dot_output.
    pose proof (dot_stmts_edge ig mr (index_nodes 0 (added ig) ∅)
                  (added ig) i 0 pn pi Hi Hm Hpi) as Hin.
    rewrite Hzero, Z.add_0_l in Hin.
    apply cat_elem_of in Hin as (b & a & ->).
    exists (("digraph pkgdag {" +:+ nl) +:+ b), (a +:+ ("}" +:+ nl)).
    by rewrite !append_assoc.
  - intros first. destruct (added ig) as [|x l]; [done|].
    intros [= ->] [Hx _]%NoDup_cons. simpl.
    rewrite index_nodes_absent by done. by rewrite lookup_insert_eq.
Qed.

(** In the graph of [imports_plain], [app] keeps the import [gone], which is
    no node. *)
Lemma WriteDot_edge_to_absent_node_witness :
  default 0 (index_nodes 0 (added Sample.graph_plain) ∅ !! "gone") = 0 ∧
  (∃ before after,
     sink Stdout (WriteDot Sample.graph_plain Stdout (mkMatcher None)
                    Sample.world0) =
     sink Stdout Sample.world0 +:+ before
       +:+ edge_line (Z.of_nat 0) 0 +:+ after) ∧
  (∀ first, added Sample.graph_plain !! 0%nat = Some first →
            NoDup (added Sample.graph_plain) →
            index_nodes 0 (added Sample.graph_plain) ∅ !! first = Some 0).
Proof.
  apply (WriteDot_edge_to_absent_node Sample.graph_plain Stdout
           (mkMatcher None) Sample.world0 0 "app" "gone").
  - vm_compute. reflexivity.
  - reflexivity.
  - refine (bool_decide_unpack _ _). vm_compute. exact I.
  - refine (bool_decide_unpack _ _). vm_compute. exact I.
Defined.

(** C10.  WriteFlat appends the sorted list of the nodes that pass the
    matcher, one per line, to the standard output and to no other writer,
    whatever writer it is given; WriteText and WriteDot append their text
    to the writer they are given and to no other. *)
Theorem WriteFlat_ignores_its_writer
    (ig : ImportGraph) (w : Writer) (mr : matcher) (σ : World) :
  (∀ w', sink w' (WriteFlat ig w mr σ) =
         if decide (w' = Stdout)
         then sink w' σ +:+
              cat (map (λ p, p +:+ nl)
                     (sort_Strings (List.filter (Match mr) (added ig))))
         else sink w' σ) ∧
  WriteFlat ig w mr σ = WriteFlat ig Stdout mr σ ∧
  (∀ w', sink w' (WriteText ig w mr σ) =
         if decide (w' = w) then sink w' σ +:+ text_output ig mr
         else sink w' σ) ∧
  (∀ w', sink w' (WriteDot ig w mr σ) =
         if decide (w' = w) then sink w' σ +:+ dot_output ig mr
         else sink w' σ).
Proof.
  split; [apply (WriteFlat_writes ig w mr σ)|].
  split; [done|].
  split; [apply (WriteText_writes ig w mr σ)|apply (WriteDot_writes ig w mr σ)].
Qed.

(** * Further properties *)

(** ** What a call of [addPkg] leaves alone *)

Lemma addPkg_frame `{Host} pn ig σ more ig' σ' :
  addPkg pn ig σ = (more, ig', σ') →
  stdout σ' = stdout σ ∧ buffers σ' = buffers σ ∧ files σ' = files σ ∧
  import_calls σ' =
    (if skip ig pn then import_calls σ else import_calls σ ++ [pn]) ∧
  logged σ `prefix_of` logged σ'.
Proof.
  unfold addPkg. destruct (skip ig pn).
  { by intros [= <- <- <-]. }
  destruct (build_Import pn (srcDir ig)) as [pk|err].
  2:{ intros [= <- <- <-]. simpl. repeat split; try done.
      by apply prefix_app_r. }
  destruct (Goroot pk && negb (includeStd ig)).
  { by intros [= <- <- <-]. }
  destruct (String.eqb (ImportPath pk) EmptyString).
  { intros [= <- <- <-]. simpl. repeat split; try done.
    by apply prefix_app_r. }
  by intros [= <- <- <-].
Qed.

Lemma addPkg_grows `{Host} pn ig σ more ig' σ' :
  addPkg pn ig σ = (more, ig', σ') →
  Imports ig ⊆ Imports ig' ∧ added ig `prefix_of` added ig' ∧
  Std ig ⊆ Std ig' ∧ srcDir ig' = srcDir ig ∧
  includeStd ig' = includeStd ig ∧ todo ig' = todo ig.
Proof.
  intros [[-> Hd]|Hb]%addPkg_cases.
  - destruct Hd as [-> _ -> -> -> -> Hstd _]. repeat split; try done.
    destruct Hstd as [->|[-> _]]; [done|]. apply union_subseteq_r.
  - destruct Hb as [Hskip _ -> -> -> -> -> -> _].
    apply skip_false in Hskip as [_ Hnone]. repeat split; try done.
    + by apply insert_subseteq.
    + by apply prefix_app_r.
    + destruct (is_std _ _); [apply union_subseteq_r|done].
Qed.

(** X1.  [Scan] only adds: the nodes, import lists and standard-library
    marks it starts with are still there when it returns, in the same
    order, and the directory and the flag are unchanged.  It writes to no
    writer and touches no file; the log and the record of [build.Import]
    calls only grow at the end. *)
Theorem Scan_only_adds `{Host} (n : nat) (ig g : ImportGraph)
    (σ σ' : World) :
  Scan n ig σ = Some (g, σ') →
  Imports ig ⊆ Imports g ∧ added ig `prefix_of` added g ∧
  Std ig ⊆ Std g ∧ srcDir g = srcDir ig ∧ includeStd g = includeStd ig ∧
  stdout σ' = stdout σ ∧ buffers σ' = buffers σ ∧ files σ' = files σ ∧
  logged σ `prefix_of` logged σ' ∧
  import_calls σ `prefix_of` import_calls σ'.
Proof.
  revert ig σ. induction n as [|n IH]; intros ig σ; simpl.
  - destruct (todo ig); [|done]. by intros [= <- <-].
  - destruct (todo ig) as [|pn rest]; [by intros [= <- <-]|].
    unfold Scan_iter.
    destruct (addPkg pn ig σ) as [[more ig1] σ1] eqn:Hadd.
    intros Hrun. apply IH in Hrun. simpl in Hrun.
    destruct Hrun as (Hi & Ha & Hs & -> & -> & -> & -> & -> & Hl & Hc).
    destruct (addPkg_grows _ _ _ _ _ _ Hadd) as (Hi1 & Ha1 & Hs1 & ? & ? & _).
    destruct (addPkg_frame _ _ _ _ _ _ Hadd) as (? & ? & ? & Hc1 & Hl1).
    repeat split; try done; try by etrans.
    rewrite Hc1 in Hc. destruct (skip ig pn); [done|].
    etrans; [|done]. by apply prefix_app_r.
Qed.

(** The project of [imports_plain], started on an empty graph. *)
Lemma Scan_only_adds_witness :
  Imports (initial "/src" false ["app"]) ⊆ Imports (Demo.run_plain false).1 ∧
  added (initial "/src" false ["app"])
    `prefix_of` added (Demo.run_plain false).1 ∧
  Std (initial "/src" false ["app"]) ⊆ Std (Demo.run_plain false).1 ∧
  srcDir (Demo.run_plain false).1 = srcDir (initial "/src" false ["app"]) ∧
  includeStd (Demo.run_plain false).1
    = includeStd (initial "/src" false ["app"]) ∧
  stdout (Demo.run_plain false).2 = stdout Sample.world0 ∧
  buffers (Demo.run_plain false).2 = buffers Sample.world0 ∧
  files (Demo.run_plain false).2 = files Sample.world0 ∧
  logged Sample.world0 `prefix_of` logged (Demo.run_plain false).2 ∧
  import_calls Sample.world0
    `prefix_of` import_calls (Demo.run_plain false).2.
Proof.
  apply (Scan_only_adds (H:=Sample.host_plain) 10).
  vm_compute. reflexivity.
Defined.

(** ** The record of [build.Import] calls *)

Lemma addPkg_std `{Host} pn ig σ more ig' σ' :
  addPkg pn ig σ = (more, ig', σ') →
  Std ig' = if skip ig pn then Std ig
            else if is_std (srcDir ig) pn then {[pn]} ∪ Std ig else Std ig.
Proof.
  unfold addPkg, is_std. destruct (skip ig pn).
  { by intros [= <- <- <-]. }
  destruct (build_Import pn (srcDir ig)) as [pk|err].
  2:{ by intros [= <- <- <-]. }
  destruct (Goroot pk && negb (includeStd ig)).
  { by intros [= <- <- <-]. }
  destruct (String.eqb (ImportPath pk) EmptyString); by intros [= <- <- <-].
Qed.

Lemma length_filter_eq_snoc (l : list string) (p q : string) :
  length (filter (p =.) (l ++ [q])) =
  (length (filter (p =.) l) + if decide (p = q) then 1 else 0)%nat.
Proof.
  rewrite filter_app, length_app. f_equal.
  destruct (decide (p = q)) as [->|Hne].
  - by rewrite filter_cons_True.
  - by rewrite filter_cons_False.
Qed.

Section Trace.
Context `{Host}.
Variables (wd : string) (std : bool) (seeds : list string).

Local Abbreviation traced ig σ :=
  ((∀ p, p ∈ added ig → length (filter (p =.) (import_calls σ)) = 1%nat) ∧
   (∀ p, eligible wd std p = true → p ∉ added ig → p ∉ import_calls σ) ∧
   (∀ p, p ∈ Std ig ↔ p ∈ import_calls σ ∧ is_std wd p = true) ∧
   (∀ p, p ∈ import_calls σ →
         reach wd std seeds p ∧
         (String.eqb p "C" || HasPrefix p "golang_org/x/") = false)).

Lemma traced_initial σ :
  import_calls σ = [] → traced (initial wd std seeds) σ.
Proof.
  intros Hc. rewrite Hc. simpl. split; [|split; [|split]].
  - by intros p ?%elem_of_nil.
  - by intros p _ _ ?%elem_of_nil.
  - intros p. split; [by intros ?%elem_of_empty|].
    by intros [?%elem_of_nil _].
  - by intros p ?%elem_of_nil.
Qed.

Lemma Scan_iter_traced pn rest ig σ ig' σ' :
  Scan_inv wd std seeds ig → traced ig σ → todo ig = pn :: rest →
  Scan_iter pn rest ig σ = (ig', σ') → traced ig' σ'.
Proof.
  intros HI (Honce & Hnew & Hstd & Hreach) Htodo. unfold Scan_iter.
  destruct (addPkg pn ig σ) as [[more ig1] σ1] eqn:Hadd.
  intros [= <- <-]. simpl.
  destruct (addPkg_frame _ _ _ _ _ _ Hadd) as (_ & _ & _ & Hc & _).
  pose proof (addPkg_std _ _ _ _ _ _ Hadd) as Hs.
  rewrite (inv_dir _ _ _ _ HI) in Hs.
  destruct (skip ig pn) eqn:Hskip.
  { rewrite Hc, Hs. unfold addPkg in Hadd. rewrite Hskip in Hadd.
    injection Hadd as <- <- <-. done. }
  pose proof (skip_false _ _ Hskip) as [Hps Hnone].
  assert (pn ∉ added ig) as Hfresh.
  { intros Hin%(inv_dom _ _ _ _ HI). rewrite Hnone in Hin. by destruct Hin. }
  assert (reach wd std seeds pn) as Hpn.
  { apply (inv_todo _ _ _ _ HI). rewrite Htodo. by left. }
  rewrite Hc, Hs.
  assert ((∀ p, p ∈ (if is_std wd pn then {[pn]} ∪ Std ig else Std ig) ↔
                p ∈ import_calls σ ++ [pn] ∧ is_std wd p = true) ∧
          (∀ p, p ∈ import_calls σ ++ [pn] →
                reach wd std seeds p ∧
                (String.eqb p "C" || HasPrefix p "golang_org/x/") = false))
    as [Hstd' Hreach'].
  { split.
    - intros p. rewrite elem_of_app, list_elem_of_singleton.
      destruct (is_std wd pn) eqn:Hpstd.
      + rewrite elem_of_union, elem_of_singleton, Hstd.
        split; [intros [->|[? ?]]; by auto|intros [[?| ->] ?]; by auto].
      + rewrite Hstd. split; [intros [? ?]; by auto|].
        intros [[?| ->] Hp]; [done|congruence].
    - intros p [Hp| ->%list_elem_of_singleton]%elem_of_app; by auto. }
  apply addPkg_cases in Hadd as [[-> Hd] | Hb].
  - assert (eligible wd std pn = false) as Hinel.
    { destruct (dr_why _ _ _ Hd) as [?|He]; [congruence|].
      by rewrite (inv_dir _ _ _ _ HI), (inv_flag _ _ _ _ HI) in He. }
    rewrite (dr_added _ _ _ Hd). split; [|split; [|by split]].
    + intros p Hp. rewrite length_filter_eq_snoc, (Honce p Hp).
      rewrite decide_False; [lia|]. by intros ->.
    + intros p He Hp [Hin| ->%list_elem_of_singleton]%elem_of_app.
      * by apply (Hnew p).
      * congruence.
  - pose proof (bn_eligible _ _ _ _ Hb) as Hel.
    rewrite (inv_dir _ _ _ _ HI), (inv_flag _ _ _ _ HI) in Hel.
    rewrite (bn_added _ _ _ _ Hb). split; [|split; [|by split]].
    + intros p [Hp| ->%list_elem_of_singleton]%elem_of_app.
      * rewrite length_filter_eq_snoc, (Honce p Hp).
        rewrite decide_False; [lia|]. by intros ->.
      * rewrite length_filter_eq_snoc, decide_True by done.
        rewrite filter_eq_absent; [done|]. by apply Hnew.
    + intros p He Hp [Hin| ->%list_elem_of_singleton]%elem_of_app.
      * apply (Hnew p); [done| |done].
        intros ?. apply Hp, elem_of_app. by left.
      * apply Hp, elem_of_app. right. by left.
Qed.

Lemma Scan_traced n ig σ g σ' :
  Scan_inv wd std seeds ig → traced ig σ →
  Scan n ig σ = Some (g, σ') → traced g σ'.
Proof.
  revert ig σ. induction n as [|n IH]; intros ig σ HI HT; simpl.
  - destruct (todo ig); [|done]. by intros [= <- <-].
  - destruct (todo ig) as [|pn rest] eqn:Ht; [by intros [= <- <-]|].
    destruct (Scan_iter pn rest ig σ) as [ig1 σ1] eqn:Hit.
    apply IH.
    + by eapply Scan_iter_Inv.
    + by eapply Scan_iter_traced.
Qed.

End Trace.

Lemma once_elem_of (l : list string) (p : string) :
  length (filter (p =.) l) = 1%nat → p ∈ l.
Proof.
  intros Hlen. destruct (decide (p ∈ l)) as [|Hn]; [done|].
  by rewrite (filter_eq_absent _ _ Hn) in Hlen.
Qed.

Lemma skip_true_classified `{Host} ig σ p :
  (∀ p, is_Some (Imports ig !! p) → p ∈ added ig) →
  (∀ p, p ∈ added ig → length (filter (p =.) (import_calls σ)) = 1%nat) →
  (∀ p, p ∈ Std ig → p ∈ import_calls σ) →
  skip ig p = true →
  (String.eqb p "C" || HasPrefix p "golang_org/x/") = false →
  p ∈ import_calls σ.
Proof.
  intros Hdom Honce Hstd. unfold skip. intros Hskip Hps. rewrite Hps in Hskip.
  case_bool_decide as Hin; [by apply once_elem_of, Honce, Hdom|].
  destruct (includeStd ig); [|done].
  case_bool_decide as Hs; [|done]. by apply Hstd.
Qed.

Section Covered.
Context `{Host}.
Variables (wd : string) (std : bool) (seeds : list string).

Local Abbreviation traced ig σ :=
  ((∀ p, p ∈ added ig → length (filter (p =.) (import_calls σ)) = 1%nat) ∧
   (∀ p, eligible wd std p = true → p ∉ added ig → p ∉ import_calls σ) ∧
   (∀ p, p ∈ Std ig ↔ p ∈ import_calls σ ∧ is_std wd p = true) ∧
   (∀ p, p ∈ import_calls σ →
         reach wd std seeds p ∧
         (String.eqb p "C" || HasPrefix p "golang_org/x/") = false)).

Local Abbreviation covered ig σ :=
  ((∀ s, s ∈ seeds →
         (String.eqb s "C" || HasPrefix s "golang_org/x/") = false →
         s ∈ import_calls σ ∨ s ∈ todo ig) ∧
   (∀ q p, q ∈ added ig → p ∈ direct_imports wd q →
           (String.eqb p "C" || HasPrefix p "golang_org/x/") = false →
           p ∈ import_calls σ ∨ p ∈ todo ig)).

Lemma covered_initial σ : covered (initial wd std seeds) σ.
Proof.
  split.
  - intros s Hs _. by right.
  - by intros q p ?%elem_of_nil.
Qed.

Lemma Scan_iter_covered pn rest ig σ ig' σ' :
  Scan_inv wd std seeds ig → traced ig σ → covered ig σ →
  todo ig = pn :: rest →
  Scan_iter pn rest ig σ = (ig', σ') → covered ig' σ'.
Proof.
  intros HI HT [Hseeds Hedges] Htodo Hit.
  pose proof (Scan_iter_Inv _ _ _ _ _ _ _ _ _ HI Htodo Hit) as HI'.
  pose proof (Scan_iter_traced _ _ _ _ _ _ _ _ _ HI HT Htodo Hit)
    as (Honce' & _ & Hstd' & _).
  destruct HT as (Honce & _ & Hstd & _).
  revert Hit HI' Honce' Hstd'. unfold Scan_iter.
  destruct (addPkg pn ig σ) as [[more ig1] σ1] eqn:Hadd.
  intros [= <- <-] HI' Honce' Hstd'. simpl in *.
  destruct (addPkg_frame _ _ _ _ _ _ Hadd) as (_ & _ & _ & Hc & _).
  assert (∀ p, p ∈ import_calls σ → p ∈ import_calls σ1) as Hkeep.
  { intros p Hp. rewrite Hc. destruct (skip ig pn); [done|].
    apply elem_of_app. by left. }
  assert ((String.eqb pn "C" || HasPrefix pn "golang_org/x/") = false →
          pn ∈ import_calls σ1) as Hpn.
  { intros Hps. destruct (skip ig pn) eqn:Hskip.
    - apply Hkeep. apply (skip_true_classified ig σ pn); try done.
      + intros p. apply (inv_dom _ _ _ _ HI).
      + intros p Hp. by apply Hstd.
    - rewrite Hc. apply elem_of_app. right. by left. }
  assert (∀ p, (String.eqb p "C" || HasPrefix p "golang_org/x/") = false →
               p ∈ import_calls σ ∨ p ∈ pn :: rest →
               p ∈ import_calls σ1 ∨ p ∈ more ++ rest) as Hstep.
  { intros p Hps [Hp|[->|Hp]%elem_of_cons].
    - left. by apply Hkeep.
    - left. by apply Hpn.
    - right. apply elem_of_app. by right. }
  rewrite Htodo in Hseeds, Hedges. split.
  - intros s Hs Hps. apply Hstep; [done|]. by apply Hseeds.
  - intros q p Hq Hp Hps.
    apply addPkg_cases in Hadd as [[-> Hd] | Hb].
    + rewrite (dr_added _ _ _ Hd) in Hq. apply Hstep; [done|].
      by apply (Hedges q).
    + rewrite (bn_added _ _ _ _ Hb) in Hq.
      apply elem_of_app in Hq as [Hq| ->%list_elem_of_singleton].
      { apply Hstep; [done|]. by apply (Hedges q). }
      destruct (skip ig1 p) eqn:Hsk.
      * left. apply (skip_true_classified ig1 σ1 p); try done.
        -- intros p'. apply (inv_dom _ _ _ _ HI').
        -- intros p' Hp'. by apply Hstd'.
      * right. apply elem_of_app. left. rewrite (bn_more _ _ _ _ Hb).
        apply elem_of_List_filter. rewrite Hsk. split; [|done].
        rewrite sort_Strings_elem_of. by rewrite (inv_dir _ _ _ _ HI).
Qed.

Lemma Scan_covered n ig σ g σ' :
  Scan_inv wd std seeds ig → traced ig σ → covered ig σ →
  Scan n ig σ = Some (g, σ') → covered g σ'.
Proof.
  revert ig σ. induction n as [|n IH]; intros ig σ HI HT HC; simpl.
  - destruct (todo ig) eqn:Ht; [|done]. intros [= <- <-]. by rewrite Ht.
  - destruct (todo ig) as [|pn rest] eqn:Ht.
    { intros [= <- <-]. by rewrite Ht. }
    rewrite <- Ht in HC.
    destruct (Scan_iter pn rest ig σ) as [ig1 σ1] eqn:Hit.
    apply IH.
    + by eapply Scan_iter_Inv.
    + by eapply Scan_iter_traced.
    + by eapply Scan_iter_covered.
Qed.

(** When [Scan] has returned, every identifier reached from the seeds that
    is no pseudo-import has been handed to [build.Import]. *)
Lemma finished_classified g σ' :
  Scan_inv wd std seeds g → todo g = [] → covered g σ' →
  ∀ p, reach wd std seeds p →
       (String.eqb p "C" || HasPrefix p "golang_org/x/") = false →
       p ∈ import_calls σ'.
Proof.
  intros HI Ht [Hseeds Hedges] p Hr Hps. rewrite Ht in Hseeds, Hedges.
  destruct Hr as [s Hs|q p Hq Hel Hp].
  - destruct (Hseeds s Hs Hps) as [?|?%elem_of_nil]; done.
  - assert (q ∈ added g) as Hqn by by apply (finished_nodes _ _ _ _ HI Ht).
    destruct (Hedges q p Hqn Hp Hps) as [?|?%elem_of_nil]; done.
Qed.

End Covered.

(** X2.  In a run that starts with an empty record, [build.Import] is
    called exactly once for every identifier that becomes a node, and the
    identifiers it is called for are exactly those reached from the seeds
    that are neither ["C"] nor under ["golang_org/x/"]. *)
Theorem build_Import_once_per_node `{Host}
    (wd : string) (std : bool) (seeds U : list string) (σ : World) :
  universe_ok wd seeds U = true →
  import_calls σ = [] →
  ∃ g σ',
    Scan_returns (initial wd std seeds) σ g σ' ∧
    (∀ p, p ∈ added g →
          length (filter (p =.) (import_calls σ')) = 1%nat) ∧
    (∀ p, p ∈ import_calls σ' ↔
          reach wd std seeds p ∧
          (String.eqb p "C" || HasPrefix p "golang_org/x/") = false).
Proof.
  intros HU Hc.
  destruct (Scan_total wd std seeds U HU σ) as (g & σ' & [n Hrun] & HI & Ht).
  pose proof (traced_initial wd std seeds σ Hc) as HT.
  pose proof (Scan_covered wd std seeds n _ _ _ _
                (Inv_initial wd std seeds) HT
                (covered_initial wd std seeds σ) Hrun) as HC.
  destruct (Scan_traced wd std seeds n _ _ _ _
              (Inv_initial wd std seeds) HT Hrun) as (Honce & _ & _ & Hreach).
  exists g, σ'. split; [by exists n|]. split; [done|].
  intros p. split; [by apply Hreach|].
  intros [Hr Hps]. by apply (finished_classified wd std seeds g σ' HI Ht HC).
Qed.

(** The project of [imports_plain]: ["C"] is imported and never handed to
    [build.Import]. *)
Lemma build_Import_once_per_node_witness :
  ∃ g σ',
    Scan_returns (H:=Sample.host_plain)
      (initial "/src" false ["app"]) Sample.world0 g σ' ∧
    (∀ p, p ∈ added g →
          length (filter (p =.) (import_calls σ')) = 1%nat) ∧
    (∀ p, p ∈ import_calls σ' ↔
          reach (H:=Sample.host_plain) "/src" false ["app"] p ∧
          (String.eqb p "C" || HasPrefix p "golang_org/x/") = false).
Proof.
  apply (build_Import_once_per_node (H:=Sample.host_plain)
           "/src" false ["app"] Sample.universe_plain Sample.world0).
  - vm_compute. reflexivity.
  - reflexivity.
Defined.

(** X3.  In a run that starts with an empty record, [Std] holds exactly the
    identifiers that were handed to [build.Import] and came back as GOROOT
    packages.  With the standard library left out no node is in [Std]; with
    it included every member of [Std] is a node unless its import path came
    back empty. *)
Theorem Std_is_classified_goroot `{Host}
    (wd : string) (std : bool) (seeds U : list string) (σ : World) :
  universe_ok wd seeds U = true →
  import_calls σ = [] →
  ∃ g σ',
    Scan_returns (initial wd std seeds) σ g σ' ∧
    (∀ p, p ∈ Std g ↔ p ∈ import_calls σ' ∧ is_std wd p = true) ∧
    (std = false → ∀ p, p ∈ added g → p ∉ Std g) ∧
    (std = true →
     ∀ p, p ∈ Std g → p ∈ added g ∨ classifiable wd p = false).
Proof.
  intros HU Hc.
  destruct (Scan_total wd std seeds U HU σ) as (g & σ' & [n Hrun] & HI & Ht).
  destruct (Scan_traced wd std seeds n _ _ _ _
              (Inv_initial wd std seeds) (traced_initial wd std seeds σ Hc)
              Hrun) as (_ & _ & Hstd & _).
  exists g, σ'. split; [by exists n|]. split; [done|]. split.
  - intros -> p [_ He]%(inv_sound _ _ _ _ HI) Hp%(inv_std_sound _ _ _ _ HI).
    unfold eligible in He. rewrite Hp in He. by rewrite andb_false_r in He.
  - intros -> p Hp.
    destruct (inv_std _ _ _ _ HI eq_refl p Hp) as [?|He]; [by left|right].
    unfold eligible in He. by rewrite andb_true_r in He.
Qed.

(** The project of [imports_plain], where ["fmt"] is the standard
    library. *)
Lemma Std_is_classified_goroot_witness :
  ∃ g σ',
    Scan_returns (H:=Sample.host_plain)
      (initial "/src" false ["app"]) Sample.world0 g σ' ∧
    (∀ p, p ∈ Std g ↔
          p ∈ import_calls σ' ∧
          is_std (H:=Sample.host_plain) "/src" p = true) ∧
    (false = false → ∀ p, p ∈ added g → p ∉ Std g) ∧
    (false = true →
     ∀ p, p ∈ Std g →
          p ∈ added g ∨ classifiable (H:=Sample.host_plain) "/src" p = false).
Proof.
  apply (Std_is_classified_goroot (H:=Sample.host_plain)
           "/src" false ["app"] Sample.universe_plain Sample.world0).
  - vm_compute. reflexivity.
  - reflexivity.
Defined.

(** ** The table of import paths *)

Lemma addPkg_paths `{Host} pn ig σ more ig' σ' :
  addPkg pn ig σ = (more, ig', σ') →
  (ImportPaths ig' = ImportPaths ig ∧ added ig' = added ig) ∨
  (∃ pk, build_Import pn (srcDir ig) = ImportOk pk ∧
         ImportPath pk ≠ EmptyString ∧
         ImportPaths ig' = <[pn := ImportPath pk]> (ImportPaths ig) ∧
         added ig' = added ig ++ [pn]).
Proof.
  unfold addPkg. destruct (skip ig pn).
  { intros [= <- <- <-]. by left. }
  destruct (build_Import pn (srcDir ig)) as [pk|err].
  2:{ intros [= <- <- <-]. by left. }
  destruct (Goroot pk && negb (includeStd ig)).
  { intros [= <- <- <-]. by left. }
  destruct (String.eqb_spec (ImportPath pk) EmptyString) as [|Hne].
  { intros [= <- <- <-]. by left. }
  intros [= <- <- <-]. right. by exists pk.
Qed.

Section Paths.
Context `{Host}.
Variable wd : string.

Local Abbreviation paths_ok ig :=
  (∀ p, (p ∈ added ig →
         ∃ pk, build_Import p wd = ImportOk pk ∧
               ImportPaths ig !! p = Some (ImportPath pk) ∧
               ImportPath pk ≠ EmptyString) ∧
        (is_Some (ImportPaths ig !! p) → p ∈ added ig)).

Lemma Scan_paths n ig σ g σ' :
  srcDir ig = wd → paths_ok ig →
  Scan n ig σ = Some (g, σ') → paths_ok g.
Proof.
  revert ig σ. induction n as [|n IH]; intros ig σ Hdir HP; simpl.
  - destruct (todo ig); [|done]. by intros [= <- <-].
  - destruct (todo ig) as [|pn rest] eqn:Ht; [by intros [= <- <-]|].
    unfold Scan_iter.
    destruct (addPkg pn ig σ) as [[more ig1] σ1] eqn:Hadd.
    destruct (addPkg_grows _ _ _ _ _ _ Hadd) as (_ & _ & _ & Hd1 & _).
    apply IH; simpl; [congruence|].
    apply addPkg_paths in Hadd
      as [[-> ->]|(pk & Himp & Hne & -> & ->)]; [done|].
    rewrite Hdir in Himp. intros p. split.
    + intros [Hp| ->%list_elem_of_singleton]%elem_of_app.
      * destruct (decide (pn = p)) as [->|Hpn].
        -- exists pk. by rewrite lookup_insert_eq.
        -- rewrite lookup_insert_ne by done. by apply HP.
      * exists pk. by rewrite lookup_insert_eq.
    + rewrite lookup_insert_is_Some, elem_of_app, list_elem_of_singleton.
      intros [->|[_ Hp]]; [by right|left]. by apply HP.
Qed.

End Paths.

(** X4.  In the finished graph the keys of [ImportPaths] are the keys of
    [Imports], and the path stored for a node is the import path that
    [build.Import] reported for it, which is not empty. *)
Theorem ImportPaths_of_nodes `{Host}
    (wd : string) (std : bool) (seeds U : list string) (σ : World) :
  universe_ok wd seeds U = true →
  ∃ g σ',
    Scan_returns (initial wd std seeds) σ g σ' ∧
    dom (ImportPaths g) = dom (Imports g) ∧
    ∀ n, n ∈ added g →
      ∃ pk, build_Import n wd = ImportOk pk ∧
            ImportPaths g !! n = Some (ImportPath pk) ∧
            ImportPath pk ≠ EmptyString.
Proof.
  intros HU.
  destruct (Scan_total wd std seeds U HU σ) as (g & σ' & [n Hrun] & HI & Ht).
  assert (∀ p, (p ∈ added g →
                ∃ pk, build_Import p wd = ImportOk pk ∧
                      ImportPaths g !! p = Some (ImportPath pk) ∧
                      ImportPath pk ≠ EmptyString) ∧
               (is_Some (ImportPaths g !! p) → p ∈ added g)) as HP.
  { apply (Scan_paths wd n (initial wd std seeds) σ g σ'); [done| |done].
    intros p. simpl. split; [by intros ?%elem_of_nil|].
    rewrite lookup_empty. by intros [? ?]. }
  exists g, σ'. split; [by exists n|]. split.
  - apply set_eq. intros p. rewrite !elem_of_dom, <- (inv_dom _ _ _ _ HI).
    split; [apply HP|]. intros (pk & _ & -> & _)%HP. by eexists.
  - intros p Hp. by apply HP.
Qed.

(** The project of [imports_plain], where ["libA"] is a vendored copy. *)
Lemma ImportPaths_of_nodes_witness :
  ∃ g σ',
    Scan_returns (H:=Sample.host_plain)
      (initial "/src" true ["app"]) Sample.world0 g σ' ∧
    dom (ImportPaths g) = dom (Imports g) ∧
    ∀ n, n ∈ added g →
      ∃ pk, build_Import (Host:=Sample.host_plain) n "/src" = ImportOk pk ∧
            ImportPaths g !! n = Some (ImportPath pk) ∧
            ImportPath pk ≠ EmptyString.
Proof.
  apply (ImportPaths_of_nodes (H:=Sample.host_plain)
           "/src" true ["app"] Sample.universe_plain Sample.world0).
  vm_compute. reflexivity.
Defined.

(** ** The order of the seeds *)

Lemma List_filter_Permutation {A} (f : A → bool) (l1 l2 : list A) :
  l1 ≡ₚ l2 → List.filter f l1 ≡ₚ List.filter f l2.
Proof.
  induction 1 as [|x l1 l2 _ IH|x y l|l1 l2 l3 _ IH1 _ IH2]; simpl.
  - done.
  - destruct (f x); by rewrite IH.
  - destruct (f x), (f y); try done. apply perm_swap.
  - by etrans.
Qed.

Lemma sort_Strings_Permutation (l1 l2 : list string) :
  l1 ≡ₚ l2 → sort_Strings l1 = sort_Strings l2.
Proof.
  intros Hp. unfold sort_Strings.
  apply (Sorted_unique String.le); [apply Sorted_merge_sort, _..|].
  by rewrite !merge_sort_Permutation.
Qed.

Lemma flat_output_Permutation (ig ig' : ImportGraph) (mr : matcher) :
  added ig ≡ₚ added ig' → flat_output ig mr = flat_output ig' mr.
Proof.
  intros Hp. unfold flat_output.
  by rewrite (sort_Strings_Permutation _ _
                (List_filter_Permutation (Match mr) _ _ Hp)).
Qed.

Lemma reach_seeds_ext `{Host} wd std (seeds seeds' : list string) p :
  (∀ s, s ∈ seeds → s ∈ seeds') →
  reach wd std seeds p → reach wd std seeds' p.
Proof.
  intros Hsub. induction 1 as [s Hs|q p Hq IH Hel Hp].
  - constructor. by apply Hsub.
  - by apply (reach_import _ _ _ q).
Qed.

Lemma universe_ok_Permutation `{Host} wd (seeds seeds' U : list string) :
  seeds ≡ₚ seeds' →
  universe_ok wd seeds U = true → universe_ok wd seeds' U = true.
Proof.
  intros Hp. unfold universe_ok. rewrite !andb_true_iff, !forallb_forall.
  intros [Hs HU]. split; [|done].
  intros s Hin. apply Hs. apply list_elem_of_In.
  rewrite Hp. by apply list_elem_of_In.
Qed.

(** X5.  The order in which the seeds are listed changes nothing but the
    order of [added]: the two finished graphs have the same [Imports] and
    [ImportPaths], their [added] lists are permutations of each other, and
    WriteFlat prints the same text for both. *)
Theorem seed_order_irrelevant `{Host}
    (wd : string) (std : bool) (seeds seeds' U : list string) (σ : World) :
  seeds ≡ₚ seeds' →
  universe_ok wd seeds U = true →
  ∃ g σ1 g' σ1',
    Scan_returns (initial wd std seeds) σ g σ1 ∧
    Scan_returns (initial wd std seeds') σ g' σ1' ∧
    Imports g = Imports g' ∧
    ImportPaths g = ImportPaths g' ∧
    added g ≡ₚ added g' ∧
    ∀ mr, flat_output g mr = flat_output g' mr.
Proof.
  intros Hperm HU.
  pose proof (universe_ok_Permutation wd _ _ U Hperm HU) as HU'.
  destruct (Scan_total wd std seeds U HU σ) as (g & σ1 & [n Hrun] & HI & Ht).
  destruct (Scan_total wd std seeds' U HU' σ)
    as (g' & σ1' & [n' Hrun'] & HI' & Ht').
  pose proof (finished_nodes _ _ _ _ HI Ht) as Hn.
  pose proof (finished_nodes _ _ _ _ HI' Ht') as Hn'.
  assert (∀ p, p ∈ added g ↔ p ∈ added g') as Hsame.
  { intros p. rewrite Hn, Hn'.
    split; intros [Hr ?]; (split; [|done]);
      (eapply reach_seeds_ext; [|exact Hr]); intros s; by rewrite Hperm. }
  assert (added g ≡ₚ added g') as Hadded.
  { apply NoDup_Permutation; [apply (inv_nodup _ _ _ _ HI)
                             |apply (inv_nodup _ _ _ _ HI')|done]. }
  exists g, σ1, g', σ1'. split; [by exists n|]. split; [by exists n'|].
  split; [|split; [|split; [done|]]].
  - apply map_eq. intros p.
    destruct (Imports g !! p) as [l|] eqn:Hl.
    + assert (is_Some (Imports g' !! p)) as [l' Hl'].
      { apply (inv_dom _ _ _ _ HI'), Hsame, (inv_dom _ _ _ _ HI). by eexists. }
      by rewrite Hl', (inv_stored _ _ _ _ HI _ _ Hl),
        (inv_stored _ _ _ _ HI' _ _ Hl').
    + symmetry. apply eq_None_not_Some.
      intros Hs%(inv_dom _ _ _ _ HI')%Hsame%(inv_dom _ _ _ _ HI).
      rewrite Hl in Hs. by destruct Hs.
  - pose proof (Scan_paths wd n (initial wd std seeds) σ g σ1 eq_refl) as HP.
    pose proof (Scan_paths wd n' (initial wd std seeds') σ g' σ1' eq_refl)
      as HP'.
    assert (∀ seeds0 p,
              (p ∈ added (initial wd std seeds0) →
               ∃ pk, build_Import p wd = ImportOk pk ∧
                     ImportPaths (initial wd std seeds0) !! p
                       = Some (ImportPath pk) ∧
                     ImportPath pk ≠ EmptyString) ∧
              (is_Some (ImportPaths (initial wd std seeds0) !! p) →
               p ∈ added (initial wd std seeds0))) as Hinit.
    { intros seeds0 p. simpl. split; [by intros ?%elem_of_nil|].
      rewrite lookup_empty. by intros [? ?]. }
    specialize (HP (Hinit seeds) Hrun). specialize (HP' (Hinit seeds') Hrun').
    apply map_eq. intros p.
    destruct (ImportPaths g !! p) as [x|] eqn:Hx.
    + assert (p ∈ added g) as Hp by (apply HP; by eexists).
      destruct (proj1 (HP p) Hp) as (pk & Hpk & Hpath & _).
      destruct (proj1 (HP' p) (proj1 (Hsame p) Hp)) as (pk' & Hpk' & -> & _).
      congruence.
    + symmetry. apply eq_None_not_Some.
      intros Hs%HP'%Hsame. destruct (proj1 (HP p) Hs) as (pk & _ & Hpath & _).
      congruence.
  - intros mr. by apply flat_output_Permutation.
Qed.

(** The seeds ["libA"] and ["app"] of [imports_plain], in both orders. *)
Lemma seed_order_irrelevant_witness :
  ∃ g σ1 g' σ1',
    Scan_returns (H:=Sample.host_plain)
      (initial "/src" false ["libA"; "app"]) Sample.world0 g σ1 ∧
    Scan_returns (H:=Sample.host_plain)
      (initial "/src" false ["app"; "libA"]) Sample.world0 g' σ1' ∧
    Imports g = Imports g' ∧
    ImportPaths g = ImportPaths g' ∧
    added g ≡ₚ added g' ∧
    ∀ mr, flat_output g mr = flat_output g' mr.
Proof.
  apply (seed_order_irrelevant (H:=Sample.host_plain) "/src" false
           ["libA"; "app"] ["app"; "libA"] Sample.universe_plain
           Sample.world0).
  - apply perm_swap.
  - vm_compute. reflexivity.
Defined.

(** ** The first node *)

Section FirstNode.
Context `{Host}.
Variables (wd : string) (std : bool) (seeds : list string).

Local Abbreviation heads ig :=
  (match added ig with
   | [] => ∃ pre, seeds = pre ++ todo ig ∧
                  ∀ s, s ∈ pre → eligible wd std s = false
   | first :: _ =>
       ∃ pre post, seeds = pre ++ first :: post ∧
                   (∀ s, s ∈ pre → eligible wd std s = false) ∧
                   eligible wd std first = true
   end).

Lemma Scan_iter_heads pn rest ig σ ig' σ' :
  Scan_inv wd std seeds ig → heads ig → todo ig = pn :: rest →
  Scan_iter pn rest ig σ = (ig', σ') → heads ig'.
Proof.
  intros HI Hh Htodo. unfold Scan_iter.
  destruct (addPkg pn ig σ) as [[more ig1] σ1] eqn:Hadd.
  intros [= <- <-]. simpl.
  apply addPkg_cases in Hadd as [[-> Hd] | Hb].
  - pose proof (dropped_why _ _ _ _ _ _ HI Hd) as Hwhy.
    rewrite (dr_added _ _ _ Hd). destruct (added ig) as [|first l]; [|done].
    destruct Hh as (pre & Hseeds & Hpre). rewrite Htodo in Hseeds.
    exists (pre ++ [pn]). split; [by rewrite <- app_assoc|].
    intros s [?| ->%list_elem_of_singleton]%elem_of_app; [by auto|].
    destruct Hwhy as [?%elem_of_nil|?]; done.
  - pose proof (bn_eligible _ _ _ _ Hb) as Hel.
    rewrite (inv_dir _ _ _ _ HI), (inv_flag _ _ _ _ HI) in Hel.
    rewrite (bn_added _ _ _ _ Hb). destruct (added ig) as [|first l]; [|done].
    destruct Hh as (pre & Hseeds & Hpre). rewrite Htodo in Hseeds.
    simpl. by exists pre, rest.
Qed.

Lemma Scan_heads n ig σ g σ' :
  Scan_inv wd std seeds ig → heads ig →
  Scan n ig σ = Some (g, σ') → heads g.
Proof.
  revert ig σ. induction n as [|n IH]; intros ig σ HI Hh; simpl.
  - destruct (todo ig) eqn:Ht; [|done]. intros [= <- <-]. by rewrite Ht.
  - destruct (todo ig) as [|pn rest] eqn:Ht.
    { intros [= <- <-]. by rewrite Ht. }
    rewrite <- Ht in Hh.
    destruct (Scan_iter pn rest ig σ) as [ig1 σ1] eqn:Hit.
    apply IH.
    + by eapply Scan_iter_Inv.
    + by eapply Scan_iter_heads.
Qed.

End FirstNode.

(** X6.  The first node of the finished graph (index 0 in WriteDot) is the
    first seed that is classifiable and not excluded; the graph has no node
    exactly when no seed is. *)
Theorem first_node_is_first_eligible_seed `{Host}
    (wd : string) (std : bool) (seeds U : list string) (σ : World) :
  universe_ok wd seeds U = true →
  ∃ g σ',
    Scan_returns (initial wd std seeds) σ g σ' ∧
    (∀ first, added g !! 0%nat = Some first →
       ∃ pre post, seeds = pre ++ first :: post ∧
                   (∀ s, s ∈ pre → eligible wd std s = false) ∧
                   eligible wd std first = true) ∧
    (added g = [] ↔ ∀ s, s ∈ seeds → eligible wd std s = false).
Proof.
  intros HU.
  destruct (Scan_total wd std seeds U HU σ) as (g & σ' & [n Hrun] & HI & Ht).
  assert (match added g with
          | [] => ∃ pre, seeds = pre ++ todo g ∧
                         ∀ s, s ∈ pre → eligible wd std s = false
          | first :: _ =>
              ∃ pre post, seeds = pre ++ first :: post ∧
                          (∀ s, s ∈ pre → eligible wd std s = false) ∧
                          eligible wd std first = true
          end) as Hh.
  { apply (Scan_heads wd std seeds n (initial wd std seeds) σ g σ');
      [apply Inv_initial| |done].
    simpl. exists []. split; [done|]. by intros s ?%elem_of_nil. }
  exists g, σ'. split; [by exists n|]. split.
  - intros first Hfirst. destruct (added g) as [|x l]; [done|].
    by injection Hfirst as ->.
  - destruct (added g) as [|x l] eqn:Hadded.
    + split; [|done]. intros _. destruct Hh as (pre & -> & Hpre).
      rewrite Ht, app_nil_r. done.
    + split; [done|]. intros Hnone. exfalso.
      destruct Hh as (pre & post & -> & _ & Hx).
      rewrite Hnone in Hx; [done|]. apply elem_of_app. right. by left.
Qed.

(** The seeds ["gone"], ["fmt"], ["libA"] and ["app"] of [imports_plain]:
    the first two are dropped. *)
Lemma first_node_is_first_eligible_seed_witness :
  ∃ g σ',
    Scan_returns (H:=Sample.host_plain)
      (initial "/src" false ["gone"; "fmt"; "libA"; "app"])
      Sample.world0 g σ' ∧
    (∀ first, added g !! 0%nat = Some first →
       ∃ pre post,
         ["gone"; "fmt"; "libA"; "app"] = pre ++ first :: post ∧
         (∀ s, s ∈ pre →
               eligible (H:=Sample.host_plain) "/src" false s = false) ∧
         eligible (H:=Sample.host_plain) "/src" false first = true) ∧
    (added g = [] ↔
     ∀ s, s ∈ ["gone"; "fmt"; "libA"; "app"] →
          eligible (H:=Sample.host_plain) "/src" false s = false).
Proof.
  apply (first_node_is_first_eligible_seed (H:=Sample.host_plain)
           "/src" false ["gone"; "fmt"; "libA"; "app"]
           Sample.universe_plain Sample.world0).
  vm_compute. reflexivity.
Defined.

(** ** Node indices in WriteDot *)

Lemma index_nodes_lookup (l : list string) :
  ∀ (i : Z) (m : gmap string Z) (j : nat) (pn : string),
    NoDup l → l !! j = Some pn →
    index_nodes i l m !! pn = Some (i + Z.of_nat j).
Proof.
  induction l as [|x l IH]; intros i m j pn; [done|].
  intros [Hx Hl]%NoDup_cons. destruct j as [|j]; simpl.
  - intros [= ->]. rewrite index_nodes_absent by done.
    rewrite lookup_insert_eq. f_equal. lia.
  - intros Hj. rewrite (IH (i + 1) _ j pn Hl Hj). f_equal. lia.
Qed.

Lemma dot_stmts_node ig mr nodes (l : list string) :
  ∀ (k : nat) i pn,
    l !! k = Some pn → Match mr pn = true → filtered ig mr pn ≠ [] →
    node_line ig (i + Z.of_nat k) pn ∈ dot_stmts ig mr nodes i l.
Proof.
  induction l as [|x l IH]; intros k i pn; [done|].
  cbn [dot_stmts]. destruct k as [|k].
  - simpl. intros [= ->] Hm Hne. apply elem_of_app. left.
    assert ((length (filtered ig mr pn) =? 0)%nat = false) as Hlen.
    { by destruct (filtered ig mr pn). }
    rewrite Hm, Hlen. cbn [andb negb]. rewrite Z.add_0_r. by left.
  - intros Hk Hm Hne. apply elem_of_app. right.
    replace (i + Z.of_nat (S k)) with ((i + 1) + Z.of_nat k) by lia.
    by eapply IH.
Qed.

(** X7.  When [added] has no duplicates, the index map of WriteDot gives
    every node its position in [added]; WriteDot writes for every node it
    renders (one that passes the matcher and keeps an import) a declaration
    under that position, and for every import such a node keeps that is
    itself a node an edge statement whose target is that node's position. *)
Theorem WriteDot_edge_to_node
    (ig : ImportGraph) (w : Writer) (mr : matcher) (σ : World) :
  NoDup (added ig) →
  (∀ (j : nat) (p : string),
     added ig !! j = Some p →
     index_nodes 0 (added ig) ∅ !! p = Some (Z.of_nat j)) ∧
  (∀ (i : nat) (pn : string),
     added ig !! i = Some pn →
     Match mr pn = true →
     filtered ig mr pn ≠ [] →
     ∃ before after,
       sink w (WriteDot ig w mr σ) =
       sink w σ +:+ before +:+ node_line ig (Z.of_nat i) pn +:+ after) ∧
  (∀ (i j : nat) (pn pi : string),
     added ig !! i = Some pn →
     Match mr pn = true →
     pi ∈ filtered ig mr pn →
     added ig !! j = Some pi →
     ∃ before after,
       sink w (WriteDot ig w mr σ) =
       sink w σ +:+ before
         +:+ edge_line (Z.of_nat i) (Z.of_nat j) +:+ after).
Proof.
  intros Hnd.
  assert (∀ (j : nat) (p : string),
            added ig !! j = Some p →
            index_nodes 0 (added ig) ∅ !! p = Some (Z.of_nat j)) as Hidx.
  { intros j p Hj.
    pose proof (index_nodes_lookup (added ig) 0 ∅ j p Hnd Hj) as Hl.
    by rewrite Z.add_0_l in Hl. }
  split; [done|].
  destruct (WriteDot_writes ig w mr σ) as [Hs _].
  rewrite Hs, decide_True by done. unfold dot_output.
  assert (∀ x, x ∈ dot_stmts ig mr (index_nodes 0 (added ig) ∅) 0 (added ig) →
            ∃ before after,
              sink w σ +:+ ("digraph pkgdag {" +:+ nl) +:+
                cat (dot_stmts ig mr (index_nodes 0 (added ig) ∅) 0
                       (added ig)) +:+ "}" +:+ nl
              = sink w σ +:+ before +:+ x +:+ after) as Hfind.
  { intros x (b & a & ->)%cat_elem_of.
    exists (("digraph pkgdag {" +:+ nl) +:+ b), (a +:+ ("}" +:+ nl)).
    by rewrite !append_assoc. }
  split.
  - intros i pn Hi Hm Hne. apply Hfind.
    replace (Z.of_nat i) with (0 + Z.of_nat i) by lia.
    by apply dot_stmts_node.
  - intros i j pn pi Hi Hm Hpi Hj. apply Hfind.
    pose proof (dot_stmts_edge ig mr (index_nodes 0 (added ig) ∅)
                  (added ig) i 0 pn pi Hi Hm Hpi) as Hin.
    by rewrite (Hidx j pi Hj), Z.add_0_l in Hin.
Qed.

(** The graph of [imports_plain], where [app] (index 0) imports [libB]
    (index 2) and [gone], which is no node. *)
Lemma WriteDot_edge_to_node_witness :
  (∀ (j : nat) (p : string),
     added Sample.graph_plain !! j = Some p →
     index_nodes 0 (added Sample.graph_plain) ∅ !! p = Some (Z.of_nat j)) ∧
  (∀ (i : nat) (pn : string),
     added Sample.graph_plain !! i = Some pn →
     Match (mkMatcher None) pn = true →
     filtered Sample.graph_plain (mkMatcher None) pn ≠ [] →
     ∃ before after,
       sink Stdout (WriteDot Sample.graph_plain Stdout (mkMatcher None)
                      Sample.world0) =
       sink Stdout Sample.world0 +:+ before
         +:+ node_line Sample.graph_plain (Z.of_nat i) pn +:+ after) ∧
  (∀ (i j : nat) (pn pi : string),
     added Sample.graph_plain !! i = Some pn →
     Match (mkMatcher None) pn = true →
     pi ∈ filtered Sample.graph_plain (mkMatcher None) pn →
     added Sample.graph_plain !! j = Some pi →
     ∃ before after,
       sink Stdout (WriteDot Sample.graph_plain Stdout (mkMatcher None)
                      Sample.world0) =
       sink Stdout Sample.world0 +:+ before
         +:+ edge_line (Z.of_nat i) (Z.of_nat j) +:+ after).
Proof.
  apply (WriteDot_edge_to_node Sample.graph_plain Stdout (mkMatcher None)
           Sample.world0).
  refine (bool_decide_unpack _ _). vm_compute. exact I.
Defined.

(** ** The command *)

(** X8.  When the working directory and the seeds are obtained, the import
    relation is finite and the pattern compiles, [doDAG] with any format
    other than [svg] returns after appending to the standard output the
    text of the chosen renderer for the finished graph and nothing else:
    [dot] and [text] choose WriteDot and WriteText, every other word
    chooses WriteFlat.  Files and buffers are as before. *)
Theorem doDAG_prints_the_graph `{Host} `{Process}
    (fl : Flags) (wd : string) (seeds U : list string) (mr : matcher)
    (σ : World) :
  os_Getwd = inr wd →
  go_list ("list" :: flag_Args fl) = inr seeds →
  universe_ok wd seeds U = true →
  newMatcher (flag_m fl) = Some mr →
  String.eqb (flag_f fl) "svg" = false →
  ∃ n g σs σ',
    Scan_returns (initial wd (flag_std fl) seeds) σ g σs ∧
    doDAG n fl σ = Some (Ret tt σ') ∧
    stdout σ' = stdout σ +:+ rendered (flag_f fl) g mr ∧
    (∀ b, sink (Buffer b) σ' = sink (Buffer b) σ) ∧
    files σ' = files σ ∧
    logged σ' = logged σs ∧ import_calls σ' = import_calls σs.
Proof.
  intros Hwd Hlist HU Hmr Hsvg.
  destruct (Scan_total wd (flag_std fl) seeds U HU σ)
    as (g & σs & [n Hrun] & _ & _).
  destruct (Scan_only_adds _ _ _ _ _ Hrun)
    as (_ & _ & _ & _ & _ & Hout & Hbuf & Hfiles & _ & _).
  assert (∀ t σ', writes Stdout t σs σ' →
            stdout σ' = stdout σ +:+ t ∧
            (∀ b, sink (Buffer b) σ' = sink (Buffer b) σ) ∧
            files σ' = files σ ∧
            logged σ' = logged σs ∧ import_calls σ' = import_calls σs)
    as Hw.
  { intros t σ' (Hs & Hl & Hc & Hf). split; [|split; [|split; [|done]]].
    - pose proof (Hs Stdout) as Hso. rewrite decide_True in Hso by done.
      simpl in Hso. by rewrite Hso, Hout.
    - intros b. rewrite (Hs (Buffer b)), decide_False by done.
      simpl. by rewrite Hbuf.
    - congruence. }
  exists n, g, σs.
  unfold doDAG, rendered.
  rewrite Hwd, (NewImportGraph_initial _ _ _ _ _ Hlist), Hrun, Hmr, Hsvg.
  destruct (String.eqb (flag_f fl) "dot").
  { eexists. split; [by exists n|]. split; [done|].
    apply Hw, WriteDot_writes. }
  destruct (String.eqb (flag_f fl) "text").
  { eexists. split; [by exists n|]. split; [done|].
    apply Hw, WriteText_writes. }
  eexists. split; [by exists n|]. split; [done|].
  apply Hw, WriteFlat_writes.
Qed.

(** [dag app] in the project of [imports_plain], with the default flags. *)
Lemma doDAG_prints_the_graph_witness :
  ∃ n g σs σ',
    Scan_returns (H:=Sample.host_plain)
      (initial "/src" false ["app"]) Sample.world0 g σs ∧
    doDAG (H:=Sample.host_plain) (H0:=Demo.in_src) n
      (default_Flags ["app"]) Sample.world0 = Some (Ret tt σ') ∧
    stdout σ' =
      stdout Sample.world0 +:+ rendered "flat" g (mkMatcher None) ∧
    (∀ b, sink (Buffer b) σ' = sink (Buffer b) Sample.world0) ∧
    files σ' = files Sample.world0 ∧
    logged σ' = logged σs ∧ import_calls σ' = import_calls σs.
Proof.
  apply (doDAG_prints_the_graph (H:=Sample.host_plain) (H0:=Demo.in_src)
           (default_Flags ["app"]) "/src" ["app"] Sample.universe_plain
           (mkMatcher None) Sample.world0).
  - reflexivity.
  - reflexivity.
  - vm_compute. reflexivity.
  - reflexivity.
  - reflexivity.
Defined.

(** X9.  When [os.Getwd] fails, or [go list] fails, [doDAG] logs one line
    and exits with status 1 whatever the bound: nothing is classified,
    written or created. *)
Theorem doDAG_stops_before_the_traversal `{Host} `{Process}
    (n : nat) (fl : Flags) (σ : World) :
  (∃ err, os_Getwd = inl err) ∨
  (∃ err, go_list ("list" :: flag_Args fl) = inl err) →
  ∃ msg, doDAG n fl σ = Some (Exit 1 (log_Printf msg σ)).
Proof.
  intros Hfail. unfold doDAG.
  destruct os_Getwd as [err|wd] eqn:Hwd; [by eexists|].
  destruct Hfail as [[err [=]]|[err Hlist]].
  unfold NewImportGraph, ig_list. rewrite Hlist. by eexists.
Qed.

(** [go list] cannot be run. *)
Lemma doDAG_stops_before_the_traversal_witness :
  ∃ msg,
    doDAG (H:=Demo.host_no_list) (H0:=Demo.in_src) 100
      (default_Flags ["app"]) Sample.world0
    = Some (Exit 1 (log_Printf msg Sample.world0)).
Proof.
  apply (doDAG_stops_before_the_traversal (H:=Demo.host_no_list)
           (H0:=Demo.in_src) 100 (default_Flags ["app"]) Sample.world0).
  right. by eexists.
Defined.

(** X10.  A malformed pattern is found only after the traversal: [doDAG]
    runs [Scan] to its end, with its calls of [build.Import] and its log
    lines, and then panics (status 2) without having written anything. *)
Theorem doDAG_bad_pattern_panics_after_Scan `{Host} `{Process}
    (fl : Flags) (wd : string) (seeds U : list string) (σ : World) :
  os_Getwd = inr wd →
  go_list ("list" :: flag_Args fl) = inr seeds →
  universe_ok wd seeds U = true →
  newMatcher (flag_m fl) = None →
  ∃ n g σs,
    Scan_returns (initial wd (flag_std fl) seeds) σ g σs ∧
    doDAG n fl σ = Some (Exit 2 σs) ∧
    stdout σs = stdout σ ∧ files σs = files σ.
Proof.
  intros Hwd Hlist HU Hmr.
  destruct (Scan_total wd (flag_std fl) seeds U HU σ)
    as (g & σs & [n Hrun] & _ & _).
  destruct (Scan_only_adds _ _ _ _ _ Hrun)
    as (_ & _ & _ & _ & _ & Hout & _ & Hfiles & _ & _).
  exists n, g, σs. split; [by exists n|]. split; [|done].
  unfold doDAG.
  by rewrite Hwd, (NewImportGraph_initial _ _ _ _ _ Hlist), Hrun, Hmr.
Qed.

(** [dag -m "(" app] in the project of [imports_plain]. *)
Lemma doDAG_bad_pattern_panics_after_Scan_witness :
  ∃ n g σs,
    Scan_returns (H:=Sample.host_plain)
      (initial "/src" false ["app"]) Sample.world0 g σs ∧
    doDAG (H:=Sample.host_plain) (H0:=Demo.in_src) n
      (mkFlags false "text" "xdg-open" "(" ["app"]) Sample.world0
    = Some (Exit 2 σs) ∧
    stdout σs = stdout Sample.world0 ∧ files σs = files Sample.world0.
Proof.
  apply (doDAG_bad_pattern_panics_after_Scan (H:=Sample.host_plain)
           (H0:=Demo.in_src) (mkFlags false "text" "xdg-open" "(" ["app"])
           "/src" ["app"] Sample.universe_plain Sample.world0).
  - reflexivity.
  - reflexivity.
  - vm_compute. reflexivity.
  - reflexivity.
Defined.

(** ** The image renderer, in every case *)

Lemma append_ne_self (a b : string) : b ≠ EmptyString → a ≠ a +:+ b.
Proof.
  intros Hb Heq. apply (f_equal String.length) in Heq.
  rewrite length_append in Heq. destruct b; [done|]. simpl in Heq. lia.
Qed.

(** X11.  ShowGraph writes nothing of its own to the standard output: what
    appears there is what [dot] and, if [dot] ran, the viewer print, the
    two commands being given the standard output of the process.  It leaves
    every file other than its temporary file and the image as it was.  If
    the temporary file cannot be created it exits with status 1, no command
    is started and no file has changed.  Otherwise [dot] reads the text of
    WriteDot; if [dot] or, after it, the viewer fails, ShowGraph exits with
    status 1, one more log line, and the image in place; if both run it
    returns and the image is gone.  The temporary file under its first name
    is gone in each case. *)
Theorem ShowGraph_outcomes `{Host} (ig : ImportGraph) (viewer : string)
    (mr : matcher) (σ : World) :
  match ioutil_TempFile EmptyString "pkgdag-" (files σ) with
  | inl err =>
      ∃ σ', ShowGraph ig viewer mr σ = Exit 1 σ' ∧
            stdout σ' = stdout σ ∧ files σ' = files σ ∧
            logged σ' = logged σ ++ ["create tempfile err=" +:+ err]
  | inr fn =>
      let dot_args := ["-Tsvg"; "-o" +:+ (fn +:+ ".svg")] in
      let dot_says := cmd_Stdout "dot" dot_args (dot_output ig mr) in
      let viewer_says := cmd_Stdout viewer [fn +:+ ".svg"] EmptyString in
      ∃ σ',
        (fn ∉ files σ') ∧
        (∀ f, f ≠ fn → f ≠ fn +:+ ".svg" →
              (f ∈ files σ' ↔ f ∈ files σ)) ∧
        match cmd_Run "dot" dot_args (dot_output ig mr) with
        | Some _ =>
            ShowGraph ig viewer mr σ = Exit 1 σ' ∧
            stdout σ' = stdout σ +:+ dot_says ∧
            (fn +:+ ".svg") ∈ files σ' ∧
            ∃ msg, logged σ' = logged σ ++ [msg]
        | None =>
            stdout σ' = (stdout σ +:+ dot_says) +:+ viewer_says ∧
            match cmd_Run viewer [fn +:+ ".svg"] EmptyString with
            | Some _ =>
                ShowGraph ig viewer mr σ = Exit 1 σ' ∧
                (fn +:+ ".svg") ∈ files σ' ∧
                ∃ msg, logged σ' = logged σ ++ [msg]
            | None =>
                ShowGraph ig viewer mr σ = Ret tt σ' ∧
                ((fn +:+ ".svg") ∉ files σ') ∧ logged σ' = logged σ
            end
        end
  end.
Proof.
  unfold ShowGraph, mbind, M_bind, new_Buffer, lift.
  set (b := fresh (dom (buffers σ))).
  set (σ1 := set_buffers (<[b:=EmptyString]> (buffers σ)) σ).
  destruct (WriteDot_writes ig (Buffer b) mr σ1) as (Hsink & Hlog & _ & Hfiles).
  set (σ2 := WriteDot ig (Buffer b) mr σ1) in *.
  assert (stdout σ2 = stdout σ) as Hout.
  { pose proof (Hsink Stdout) as Hso. by rewrite decide_False in Hso. }
  unfold TempFile_or_die. rewrite Hfiles. simpl files.
  destruct (ioutil_TempFile EmptyString "pkgdag-" (files σ)) as [err|fn].
  { eexists. split; [done|]. unfold log_Printf. cbn [stdout files logged].
    by rewrite Hout, Hfiles, Hlog. }
  unfold os_Rename. simpl files.
  rewrite bool_decide_eq_true_2
    by (apply elem_of_union; left; by apply elem_of_singleton).
  set (fs := {[fn +:+ ".svg"]} ∪ ({[fn]} ∪ files σ) ∖ {[fn]}).
  assert (fn ≠ fn +:+ ".svg") as Hne by by apply append_ne_self.
  assert (fn +:+ ".svg" ∈ fs) as Himg
    by (apply elem_of_union; left; by apply elem_of_singleton).
  assert (fn ∉ fs) as Hfn.
  { unfold fs. rewrite elem_of_union, elem_of_singleton, elem_of_difference,
      elem_of_singleton. intros [?|[_ ?]]; done. }
  assert (∀ f, f ≠ fn → f ≠ fn +:+ ".svg" → (f ∈ fs ↔ f ∈ files σ))
    as Hother.
  { intros f Hf1 Hf2. unfold fs.
    rewrite elem_of_union, elem_of_singleton, elem_of_difference,
      elem_of_union, !elem_of_singleton.
    split; [intros [?|[[?|?] _]]; done|by auto]. }
  assert (sink (Buffer b) (set_files fs (set_files ({[fn]} ∪ files σ) σ2))
          = dot_output ig mr) as ->.
  { transitivity (sink (Buffer b) σ2); [done|].
    rewrite Hsink, decide_True by done. unfold σ1. simpl.
    by rewrite lookup_insert_eq. }
  cbv zeta. unfold run, mbind, M_bind, lift, log_Fatalf.
  destruct (cmd_Run "dot" _ _) as [e1|] eqn:Hdot.
  { eexists. split; [|split; [|split; [done|split; [|split]]]];
      unfold log_Printf, Fprintf, set_stdout, set_files;
      cbn [stdout files logged]; try done.
    - by rewrite Hout.
    - rewrite Hlog. by eexists. }
  cbn [mret M_ret].
  destruct (cmd_Run viewer _ _) as [e2|] eqn:Hview.
  { eexists. split; [|split; [|split; [|split; [done|split]]]];
      unfold log_Printf, Fprintf, set_stdout, set_files;
      cbn [stdout files logged]; try done.
    - by rewrite Hout.
    - rewrite Hlog. by eexists. }
  eexists. split; [|split; [|split; [|split; [done|split]]]];
    unfold os_Remove, Fprintf, set_stdout, set_files;
    cbn [stdout files logged]; try done.
  - rewrite elem_of_difference. by intros [? _].
  - intros f Hf1 Hf2. rewrite elem_of_difference, elem_of_singleton.
    rewrite (Hother f Hf1 Hf2). split; [by intros [? _]|by auto].
  - by rewrite Hout.
  - rewrite elem_of_difference, elem_of_singleton. by intros [_ ?].
Qed.

(** ** More on the matcher and the listings *)

(** X12.  A vendored copy is matched like the package it copies: if
    ["/vendor/"] occurs neither in [rest] nor before the place where it is
    written out, [Match] gives the same answer for [pre/vendor/rest] and for
    [rest], with or without a pattern. *)
Theorem Match_vendored_like_original (mr : matcher) (pre rest : string) :
  Index (pre +:+ "/vendor") vendor_seg = -1 →
  Index rest vendor_seg = -1 →
  Match mr (pre +:+ vendor_seg +:+ rest) = Match mr rest.
Proof.
  intros Hpre Hrest. unfold Match. destruct (re mr) as [P|]; [|done].
  rewrite (Index_first_vendor _ _ Hpre), Hrest.
  rewrite (proj2 (Z.leb_le _ _)) by lia.
  replace (Z.to_nat (Z.of_nat (String.length pre) + len vendor_seg))
    with (String.length pre + 8)%nat by (unfold len; simpl; lia).
  by rewrite slice_from_app.
Qed.

(** [github.com/x/vendor/github.com/y] and [github.com/y]. *)
Lemma Match_vendored_like_original_witness :
  Match (mkMatcher (Some Sample.re_libA))
    ("github.com/x" +:+ vendor_seg +:+ "github.com/y")
  = Match (mkMatcher (Some Sample.re_libA)) "github.com/y".
Proof.
  apply (Match_vendored_like_original (mkMatcher (Some Sample.re_libA))
           "github.com/x" "github.com/y"); reflexivity.
Defined.

Lemma foldl_unchanged {A B} (f : A → B → A) (l : list B) (a : A) :
  (∀ a x, x ∈ l → f a x = a) → foldl f a l = a.
Proof.
  revert a. induction l as [|x l IH]; intros a Hf; [done|]. simpl.
  rewrite Hf by by left. apply IH. intros a' y Hy. apply Hf. by right.
Qed.

Lemma dot_stmts_nothing ig mr nodes (l : list string) :
  (∀ pn, pn ∈ l → Match mr pn = false ∨ filtered ig mr pn = []) →
  ∀ i, dot_stmts ig mr nodes i l = [].
Proof.
  induction l as [|x l IH]; intros Hhid i; [done|]. cbn [dot_stmts].
  rewrite IH by (intros pn Hpn; apply Hhid; by right).
  destruct (Hhid x) as [->| ->]; [by left|done|].
  by rewrite andb_false_r.
Qed.

(** X13.  When no node both passes the matcher and keeps an import (an
    empty graph, a graph of leaves, a pattern that matches nothing),
    WriteText leaves the world as it is and WriteDot writes the empty
    digraph: its first line and its last line. *)
Theorem renderers_with_nothing_to_show
    (ig : ImportGraph) (w : Writer) (mr : matcher) (σ : World) :
  (∀ pn, pn ∈ added ig → Match mr pn = false ∨ filtered ig mr pn = []) →
  WriteText ig w mr σ = σ ∧
  sink w (WriteDot ig w mr σ) =
    sink w σ +:+ ("digraph pkgdag {" +:+ nl) +:+ ("}" +:+ nl).
Proof.
  intros Hhid. split.
  - unfold WriteText. apply foldl_unchanged. intros σ0 pn Hpn.
    destruct (Hhid pn Hpn) as [->| ->]; [done|].
    by destruct (negb (Match mr pn)).
  - destruct (WriteDot_writes ig w mr σ) as [Hs _].
    rewrite Hs, decide_True by done. unfold dot_output.
    by rewrite dot_stmts_nothing.
Qed.

(** The graph of [imports_plain] under the pattern [^c$], which no node
    matches. *)
Lemma renderers_with_nothing_to_show_witness :
  WriteText Sample.graph_plain Stdout (mkMatcher (Some Sample.re_c))
    Sample.world0 = Sample.world0 ∧
  sink Stdout (WriteDot Sample.graph_plain Stdout
                 (mkMatcher (Some Sample.re_c)) Sample.world0) =
    sink Stdout Sample.world0 +:+ ("digraph pkgdag {" +:+ nl)
      +:+ ("}" +:+ nl).
Proof.
  apply (renderers_with_nothing_to_show Sample.graph_plain Stdout
           (mkMatcher (Some Sample.re_c)) Sample.world0).
  intros pn Hpn. left.
  assert (pn ∈ ["app"; "libA"; "libB"]) as Hin by exact Hpn.
  rewrite !elem_of_cons in Hin.
  destruct Hin as [->|[->|[->|?%elem_of_nil]]]; done.
Defined.

Lemma NoDup_List_filter {A} (f : A → bool) (l : list A) :
  NoDup l → NoDup (List.filter f l).
Proof.
  induction 1 as [|x l Hx Hl IH]; simpl; [constructor|].
  destruct (f x); [|done]. constructor; [|done].
  by intros [? _]%elem_of_List_filter.
Qed.

(** X14.  WriteFlat prints, one per line and in ascending order, the nodes
    that pass the matcher: when [added] has no duplicates, each of them
    once. *)
Theorem WriteFlat_lists_matching_nodes
    (ig : ImportGraph) (w : Writer) (mr : matcher) (σ : World) :
  NoDup (added ig) →
  ∃ out,
    stdout (WriteFlat ig w mr σ) =
      stdout σ +:+ cat (map (λ p, p +:+ nl) out) ∧
    Sorted String.le out ∧ NoDup out ∧
    (∀ p, p ∈ out ↔ p ∈ added ig ∧ Match mr p = true).
Proof.
  intros Hnd. exists (sort_Strings (List.filter (Match mr) (added ig))).
  split; [|split; [|split]].
  - destruct (WriteFlat_writes ig w mr σ) as [Hs _].
    pose proof (Hs Stdout) as Hso. by rewrite decide_True in Hso.
  - apply Sorted_merge_sort, _.
  - unfold sort_Strings. rewrite merge_sort_Permutation.
    by apply NoDup_List_filter.
  - intros p. by rewrite sort_Strings_elem_of, elem_of_List_filter.
Qed.

(** The graph of [imports_plain] under the pattern [^libA$]. *)
Lemma WriteFlat_lists_matching_nodes_witness :
  ∃ out,
    stdout (WriteFlat Sample.graph_plain Stdout
              (mkMatcher (Some Sample.re_libA)) Sample.world0) =
      stdout Sample.world0 +:+ cat (map (λ p, p +:+ nl) out) ∧
    Sorted String.le out ∧ NoDup out ∧
    (∀ p, p ∈ out ↔
          p ∈ added Sample.graph_plain ∧
          Match (mkMatcher (Some Sample.re_libA)) p = true).
Proof.
  apply (WriteFlat_lists_matching_nodes Sample.graph_plain Stdout
           (mkMatcher (Some Sample.re_libA)) Sample.world0).
  refine (bool_decide_unpack _ _). vm_compute. exact I.
Defined.

(** X15.  The imports the text and dot renderers keep under a node of the
    finished graph: with the standard library included, the node's direct
    imports that pass the matcher; with it left out, those of them that
    [build.Import] does not report as GOROOT packages, together with the
    pseudo-imports, which are never classified. *)
Theorem kept_imports_of_a_node `{Host}
    (wd : string) (std : bool) (seeds U : list string) (σ : World) :
  universe_ok wd seeds U = true →
  import_calls σ = [] →
  ∃ g σ',
    Scan_returns (initial wd std seeds) σ g σ' ∧
    ∀ mr pn pi,
      pn ∈ added g →
      (pi ∈ filtered g mr pn ↔
       pi ∈ direct_imports wd pn ∧
       (std = true ∨ is_std wd pi = false ∨
        (String.eqb pi "C" || HasPrefix pi "golang_org/x/") = true) ∧
       Match mr pi = true).
Proof.
  intros HU Hc.
  destruct (Scan_total wd std seeds U HU σ) as (g & σ' & [n Hrun] & HI & Ht).
  pose proof (traced_initial wd std seeds σ Hc) as HT.
  pose proof (Scan_covered wd std seeds n _ _ _ _
                (Inv_initial wd std seeds) HT
                (covered_initial wd std seeds σ) Hrun) as [_ Hedges].
  destruct (Scan_traced wd std seeds n _ _ _ _
              (Inv_initial wd std seeds) HT Hrun) as (_ & _ & Hstd & Hreach).
  exists g, σ'. split; [by exists n|].
  intros mr pn pi Hpn. rewrite elem_of_filtered, (inv_flag _ _ _ _ HI).
  destruct (proj1 (inv_dom _ _ _ _ HI pn) Hpn) as [l Hl].
  rewrite Hl. simpl. rewrite (inv_stored _ _ _ _ HI _ _ Hl).
  rewrite sort_Strings_elem_of.
  split; intros (Hin & Hkeep & Hm); (split; [done|split; [|done]]).
  - destruct Hkeep as [?|Hns]; [by left|right].
    destruct (is_std wd pi) eqn:His; [|by left]. right.
    destruct (String.eqb pi "C" || HasPrefix pi "golang_org/x/") eqn:Hps;
      [done|].
    destruct Hns. apply Hstd. split; [|done].
    rewrite Ht in Hedges.
    by destruct (Hedges pn pi Hpn Hin Hps) as [?|?%elem_of_nil].
  - destruct Hkeep as [?|[His|Hps]]; [by left|right..].
    + intros Hs%(inv_std_sound _ _ _ _ HI). by rewrite His in Hs.
    + intros [[_ Hn]%Hreach _]%Hstd. by rewrite Hps in Hn.
Qed.

(** The project of [imports_plain], standard library left out: ["fmt"] is
    imported by a node and is kept under none. *)
Lemma kept_imports_of_a_node_witness :
  ∃ g σ',
    Scan_returns (H:=Sample.host_plain)
      (initial "/src" false ["app"]) Sample.world0 g σ' ∧
    ∀ mr pn pi,
      pn ∈ added g →
      (pi ∈ filtered g mr pn ↔
       pi ∈ direct_imports (H:=Sample.host_plain) "/src" pn ∧
       (false = true ∨ is_std (H:=Sample.host_plain) "/src" pi = false ∨
        (String.eqb pi "C" || HasPrefix pi "golang_org/x/") = true) ∧
       Match mr pi = true).
Proof.
  apply (kept_imports_of_a_node (H:=Sample.host_plain)
           "/src" false ["app"] Sample.universe_plain Sample.world0).
  - vm_compute. reflexivity.
  - reflexivity.
Defined.

(** ** The vendor-manifest tool *)

Section VendorFacts.
Import Vendor.
Context `{Env}.
Variable c : Config.

Lemma bind_Some {A B} (m : Run A) (k : A → Run B) σ :
  (m ≫= k) σ =
  match m σ with
  | Some (Done a σ') => k a σ'
  | Some (Fatal code σ') => Some (Fatal code σ')
  | None => None
  end.
Proof. done. Qed.

Lemma keeps_bind {A B} f (m : Run A) (k : A → Run B) :
  keeps f m → (∀ a, keeps f (k a)) → keeps f (m ≫= k).
Proof.
  intros Hm Hk σ r. rewrite bind_Some.
  destruct (m σ) as [[a σ1|code σ1]|] eqn:Hrun; [| |done].
  - intros Hr. rewrite (Hk a σ1 r Hr). apply (Hm σ _ Hrun).
  - intros [= <-]. apply (Hm σ _ Hrun).
Qed.

Lemma keeps_ret {A} f (a : A) : keeps f (mret a).
Proof. by intros σ r [= <-]. Qed.

Lemma keeps_lgf f msg :
  (∀ m σ, f (log_Printf m σ) = f σ) → keeps f (lgf c msg).
Proof.
  intros Hf σ r. unfold lgf. intros [= <-]. simpl.
  by destruct (verbose c).
Qed.

Lemma keeps_Fatalf {A} f msg :
  (∀ m σ, f (log_Printf m σ) = f σ) → keeps f (log_Fatalf (A:=A) msg).
Proof. intros Hf σ r [= <-]. apply Hf. Qed.



Lemma exits_bind {A B} code (m : Run A) (k : A → Run B) :
  exits_with code m → (∀ a, exits_with code (k a)) →
  exits_with code (m ≫= k).
Proof.
  intros Hm Hk σ code' σ'. rewrite bind_Some.
  destruct (m σ) as [[a σ1|code1 σ1]|] eqn:Hrun; [| |done].
  - apply Hk.
  - intros [= -> ->]. by apply (Hm σ _ _ Hrun).
Qed.

Lemma exits_ret {A} code (a : A) : exits_with code (mret a).
Proof. by intros σ code' σ'. Qed.

Lemma exits_lgf code msg : exits_with code (lgf c msg).
Proof. by intros σ code' σ'. Qed.

Lemma exits_Fatalf {A} msg : exits_with 1 (log_Fatalf (A:=A) msg).
Proof. by intros σ code' σ' [= <- _]. Qed.

Lemma gitDir_Some n dir σ r :
  gitDir n dir σ = Some r ↔
  n ≠ 0%nat ∧ r = Done dir σ ∧
  (dir = EmptyString ∨
   fs_Stat (cwd σ) (filepath_Join [dir; ".git"]) = true).
Proof.
  induction n as [|n IH]; simpl.
  { split; [done|]. by intros [? _]. }
  destruct (String.eqb_spec dir EmptyString) as [->|Hne].
  { unfold mret, Run_ret. split.
    - intros [= <-]. split; [done|]. split; [done|by left].
    - by intros (_ & -> & _). }
  rewrite bind_Some. unfold os_Stat.
  destruct (fs_Stat (cwd σ) (filepath_Join [dir; ".git"])) eqn:Hst.
  - unfold mret, Run_ret. split.
    + intros [= <-]. split; [done|]. split; [done|by right].
    + by intros (_ & -> & _).
  - rewrite IH. split.
    + by intros (_ & _ & [?|?]).
    + by intros (_ & _ & [?|?]).
Qed.


Lemma written_log m σ : written (log_Printf m σ) = written σ.
Proof. done. Qed.

Lemma cwd_log m σ : cwd (log_Printf m σ) = cwd σ.
Proof. done. Qed.

Lemma keeps_relPath f dir :
  (∀ m σ, f (log_Printf m σ) = f σ) → keeps f (relPath dir).
Proof.
  intros Hf σ r. unfold relPath.
  destruct (fs_Getwd (cwd σ)) as [err|wd].
  { intros [= <-]. apply Hf. }
  destruct (filepath_Rel wd dir) as [err|rel]; intros [= <-]; [apply Hf|done].
Qed.

Lemma exits_relPath dir : exits_with 1 (relPath dir).
Proof.
  intros σ code σ'. unfold relPath.
  destruct (fs_Getwd (cwd σ)) as [err|wd].
  { by intros [= <- _]. }
  by destruct (filepath_Rel wd dir) as [err|rel]; intros [= <- _].
Qed.

Lemma read_bytes_Done ver fn σ :
  ∃ b, read_bytes ver fn σ = Some (Done b σ).
Proof.
  unfold read_bytes. destruct (String.eqb ver EmptyString); [by eexists|].
  destruct (git_show (cwd σ) (ver +:+ ":" +:+ fn)) as [[out errout] [err|]];
    by eexists.
Qed.

Lemma keeps_read_bytes f ver fn : keeps f (read_bytes ver fn).
Proof.
  intros σ r. destruct (read_bytes_Done ver fn σ) as [b ->].
  by intros [= <-].
Qed.

Lemma exits_read_bytes code ver fn : exits_with code (read_bytes ver fn).
Proof.
  intros σ code' σ'. by destruct (read_bytes_Done ver fn σ) as [b ->].
Qed.

Lemma keeps_readSpec_read f dir ver :
  (∀ m σ, f (log_Printf m σ) = f σ) → keeps f (readSpec_read c dir ver).
Proof.
  intros Hf. unfold readSpec_read.
  apply keeps_bind; [by apply keeps_relPath|]. intros rel.
  apply keeps_bind; [apply keeps_read_bytes|]. intros [err|b].
  - destruct (String.eqb ver EmptyString); [by apply keeps_Fatalf|].
    apply keeps_bind; [by apply keeps_lgf|]. intros _. apply keeps_ret.
  - destruct (json_Unmarshal b); [by apply keeps_Fatalf|apply keeps_ret].
Qed.

Lemma exits_readSpec_read dir ver : exits_with 1 (readSpec_read c dir ver).
Proof.
  unfold readSpec_read.
  apply exits_bind; [apply exits_relPath|]. intros rel.
  apply exits_bind; [apply exits_read_bytes|]. intros [err|b].
  - destruct (String.eqb ver EmptyString); [apply exits_Fatalf|].
    apply exits_bind; [apply exits_lgf|]. intros _. apply exits_ret.
  - destruct (json_Unmarshal b); [apply exits_Fatalf|apply exits_ret].
Qed.

(** [readSpec_read] always comes back, and for the working tree ([ver]
    empty) never with the nil manifest. *)
Lemma readSpec_read_total dir ver σ :
  ∃ r, readSpec_read c dir ver σ = Some r ∧
       (ver = EmptyString → ∀ σ', r ≠ Done None σ').
Proof.
  unfold readSpec_read. rewrite bind_Some. unfold relPath.
  destruct (fs_Getwd (cwd σ)) as [err|wd].
  { by eexists. }
  destruct (filepath_Rel wd dir) as [err|rel].
  { by eexists. }
  rewrite bind_Some.
  destruct (read_bytes_Done ver (filepath_Join [rel; "vendor/vendor.json"]) σ)
    as [[err|b] ->].
  - destruct (String.eqb_spec ver EmptyString) as [->|Hne].
    + by eexists.
    + eexists. split; [done|]. by intros ->.
  - destruct (json_Unmarshal b) as [err|spec]; by eexists.
Qed.


Lemma exits_gitDir code n dir : exits_with code (gitDir n dir).
Proof. intros σ code' σ' (_ & ? & _)%gitDir_Some. done. Qed.


Lemma exits_os_Chdir code dir : exits_with code (os_Chdir dir).
Proof. by intros σ code' σ'. Qed.


Lemma readSpec_ver n dir ver σ :
  String.eqb ver EmptyString = false →
  readSpec c n dir ver σ =
  (gd ← gitDir n dir;
   if String.eqb gd EmptyString then
     lgf c ("dir=" +:+ dir +:+ " is not in git") ;; mret None
   else
     os_Chdir gd ;;
     r ← readSpec_read c dir ver;
     os_Chdir dir ;;
     mret r)
    (if verbose c
     then log_Printf ("read spec=" +:+ dir +:+ " at ver=" +:+ ver) σ
     else σ).
Proof.
  intros Hver. unfold readSpec. rewrite bind_Some. unfold lgf at 1.
  cbv beta iota. by rewrite Hver.
Qed.


Lemma exits_readSpec n dir ver : exits_with 1 (readSpec c n dir ver).
Proof.
  unfold readSpec. apply exits_bind; [apply exits_lgf|]. intros _.
  destruct (String.eqb ver EmptyString); [apply exits_readSpec_read|].
  apply exits_bind; [apply exits_gitDir|]. intros gd.
  destruct (String.eqb gd EmptyString).
  { apply exits_bind; [apply exits_lgf|]. intros _. apply exits_ret. }
  apply exits_bind; [apply exits_os_Chdir|]. intros _.
  apply exits_bind; [apply exits_readSpec_read|]. intros r.
  apply exits_bind; [apply exits_os_Chdir|]. intros _. apply exits_ret.
Qed.

End VendorFacts.

(** X16.  [gitDir] never looks at a parent directory.  It returns its
    argument, when that is the empty string or a directory that holds
    [.git]; for any other argument it tests the same directory again and
    again and never returns.  It changes nothing and never ends the
    process. *)
Theorem gitDir_returns_its_argument_or_never `{Vendor.Env}
    (n : nat) (dir : string) (σ : Vendor.State) (r : Vendor.Out string) :
  Vendor.gitDir n dir σ = Some r ↔
  n ≠ 0%nat ∧ r = Vendor.Done dir σ ∧
  (dir = EmptyString ∨
   Vendor.fs_Stat (Vendor.cwd σ) (Vendor.filepath_Join [dir; ".git"])
   = true).
Proof. apply gitDir_Some. Qed.

(** X17.  [readSpec] at a version, for a directory [dir] that [os.Chdir]
    reaches under that name: if [dir] does not hold [.git] the call never
    returns (the branch that reports a directory outside git is not
    reached); if it does, the call ends, and however it ends (the manifest,
    nil, or [log.Fatalf]) the process is left in [dir], not in the
    directory it was called in.  Nothing is written to the table. *)
Theorem readSpec_at_version `{Vendor.Env}
    (c : Vendor.Config) (n : nat) (dir ver : string) (σ : Vendor.State) :
  ver ≠ EmptyString → dir ≠ EmptyString →
  (∀ from, Vendor.fs_Chdir from dir = Some dir) →
  (Vendor.fs_Stat (Vendor.cwd σ) (Vendor.filepath_Join [dir; ".git"])
   = false →
   Vendor.readSpec c n dir ver σ = None) ∧
  (Vendor.fs_Stat (Vendor.cwd σ) (Vendor.filepath_Join [dir; ".git"])
   = true →
   n ≠ 0%nat →
   ∃ r, Vendor.readSpec c n dir ver σ = Some r ∧
        Vendor.cwd (Vendor.state_of r) = dir ∧
        Vendor.written (Vendor.state_of r) = Vendor.written σ ∧
        (∀ code σ', r = Vendor.Fatal code σ' → code = 1)).
Proof.
  intros Hver Hdir Hcd.
  apply String.eqb_neq in Hver. apply String.eqb_neq in Hdir.
  rewrite (readSpec_ver c n dir ver σ Hver), bind_Some.
  set (σ1 := if Vendor.verbose c then _ else σ).
  assert (Vendor.cwd σ1 = Vendor.cwd σ) as Hc1
    by (subst σ1; by destruct (Vendor.verbose c)).
  assert (Vendor.written σ1 = Vendor.written σ) as Hw1
    by (subst σ1; by destruct (Vendor.verbose c)).
  split.
  - intros Hst.
    destruct (Vendor.gitDir n dir σ1) as [r|] eqn:Hg; [|done].
    apply gitDir_Some in Hg as (_ & _ & [->|Hs]); [done|].
    rewrite Hc1 in Hs. congruence.
  - intros Hst Hn.
    assert (Vendor.gitDir n dir σ1 = Some (Vendor.Done dir σ1)) as ->.
    { apply gitDir_Some. split; [done|]. split; [done|]. right.
      by rewrite Hc1. }
    cbv beta iota. rewrite Hdir, bind_Some. unfold Vendor.os_Chdir at 1.
    cbv beta iota. rewrite Hcd, bind_Some.
    set (σ2 := Vendor.set_cwd dir σ1).
    destruct (readSpec_read_total c dir ver σ2) as (r0 & Hr0 & _).
    rewrite Hr0.
    pose proof (keeps_readSpec_read c Vendor.written dir ver
                  (written_log) σ2 r0 Hr0) as Hw.
    pose proof (keeps_readSpec_read c Vendor.cwd dir ver
                  (cwd_log) σ2 r0 Hr0) as Hc.
    destruct r0 as [s σ3|code σ3]; simpl in Hw, Hc.
    + rewrite bind_Some. unfold Vendor.os_Chdir. cbv beta iota.
      rewrite Hcd.
      eexists. split; [done|]. simpl. split; [done|]. split; [|done].
      by rewrite Hw.
    + eexists. split; [done|]. simpl. split; [done|]. split.
      * by rewrite Hw.
      * intros code' σ' [= <- _].
        by apply (exits_readSpec_read c dir ver σ2 code σ3).
Qed.

(** The library checked out under [/go], read at the revision [r2]. *)
Lemma readSpec_at_version_witness :
  (Vendor.fs_Stat (Env:=Vendor.Fixture.env)
     (Vendor.cwd Vendor.Fixture.start)
     (Vendor.filepath_Join (Env:=Vendor.Fixture.env) ["/go/src/lib"; ".git"])
   = false →
   Vendor.readSpec (H:=Vendor.Fixture.env) Vendor.Fixture.conf 1
     "/go/src/lib" "r2" Vendor.Fixture.start = None) ∧
  (Vendor.fs_Stat (Env:=Vendor.Fixture.env)
     (Vendor.cwd Vendor.Fixture.start)
     (Vendor.filepath_Join (Env:=Vendor.Fixture.env) ["/go/src/lib"; ".git"])
   = true →
   1%nat ≠ 0%nat →
   ∃ r, Vendor.readSpec (H:=Vendor.Fixture.env) Vendor.Fixture.conf 1
          "/go/src/lib" "r2" Vendor.Fixture.start = Some r ∧
        Vendor.cwd (Vendor.state_of r) = "/go/src/lib" ∧
        Vendor.written (Vendor.state_of r)
        = Vendor.written Vendor.Fixture.start ∧
        (∀ code σ', r = Vendor.Fatal code σ' → code = 1)).
Proof.
  apply (readSpec_at_version (H:=Vendor.Fixture.env) Vendor.Fixture.conf 1
           "/go/src/lib" "r2" Vendor.Fixture.start).
  - done.
  - done.
  - intros from. reflexivity.
Defined.

(** X18.  [readSpec] of the working tree (no version) always comes back: it
    returns a manifest, never nil, or ends the process with status 1 after
    one [log.Fatalf].  It leaves the process in the directory it was in and
    writes nothing to the table; [gitDir] is not called. *)
Theorem readSpec_worktree `{Vendor.Env}
    (c : Vendor.Config) (n : nat) (dir : string) (σ : Vendor.State) :
  ∃ r, Vendor.readSpec c n dir EmptyString σ = Some r ∧
       Vendor.cwd (Vendor.state_of r) = Vendor.cwd σ ∧
       Vendor.written (Vendor.state_of r) = Vendor.written σ ∧
       (∀ σ', r ≠ Vendor.Done None σ') ∧
       (∀ code σ', r = Vendor.Fatal code σ' → code = 1).
Proof.
  unfold Vendor.readSpec. rewrite bind_Some. unfold Vendor.lgf at 1.
  simpl.
  set (σ1 := if Vendor.verbose c then _ else σ).
  assert (Vendor.cwd σ1 = Vendor.cwd σ) as Hc1
    by (subst σ1; by destruct (Vendor.verbose c)).
  assert (Vendor.written σ1 = Vendor.written σ) as Hw1
    by (subst σ1; by destruct (Vendor.verbose c)).
  destruct (readSpec_read_total c dir EmptyString σ1) as (r & Hr & Hnil).
  exists r. split; [done|].
  rewrite (keeps_readSpec_read c Vendor.cwd dir _ cwd_log σ1 r Hr).
  rewrite (keeps_readSpec_read c Vendor.written dir _ written_log σ1 r Hr).
  split; [done|]. split; [done|]. split; [by apply Hnil|].
  intros code σ' ->.
  by apply (exits_readSpec_read c dir EmptyString σ1 code σ').
Qed.

Section VendorChain.
Import Vendor.
Context `{Env}.
Variable c : Config.

Lemma lgf_run msg σ :
  lgf c msg σ = Some (Done tt (if verbose c then log_Printf msg σ else σ)).
Proof. done. Qed.


















End VendorChain.





Section VendorTables.
Import Vendor.
Context `{Env}.
Variable c : Config.

Lemma written_add s σ : written (add_written s σ) = written σ +:+ s.
Proof. done. Qed.

Lemma add_written_add s t σ :
  add_written t (add_written s σ) = add_written (s +:+ t) σ.
Proof. unfold add_written. simpl. by rewrite append_assoc. Qed.

Lemma add_written_nil σ : add_written EmptyString σ = σ.
Proof. destruct σ. unfold add_written. simpl. by rewrite append_nil_r. Qed.

Lemma doList_loop_run pkgs σ :
  doList_loop (Some <$> pkgs) σ
  = Some (Done tt (add_written (cat (list_row <$> pkgs)) σ)).
Proof.
  revert σ. induction pkgs as [|p pkgs IH]; intros σ; simpl.
  { by rewrite add_written_nil. }
  rewrite bind_Some. unfold Fprintf_w at 1. cbv beta iota.
  by rewrite IH, add_written_add.
Qed.

Lemma doDirect_loop_run pkgs σ :
  doDirect_loop (Some <$> pkgs) σ
  = Some (Done tt
      (add_written (cat (list_row <$> List.filter is_direct pkgs)) σ)).
Proof.
  revert σ. induction pkgs as [|p pkgs IH]; intros σ; simpl.
  { by rewrite add_written_nil. }
  unfold is_direct at 1. destruct (String.eqb (Origin p) EmptyString); simpl.
  - rewrite bind_Some. unfold Fprintf_w at 1. cbv beta iota.
    by rewrite IH, add_written_add.
  - apply IH.
Qed.

Lemma doIndirect_loop_run pkgs σ :
  doIndirect_loop (Some <$> pkgs) σ
  = Some (Done tt
      (add_written
         (cat (indirect_row <$> List.filter (λ p, negb (is_direct p)) pkgs))
         σ)).
Proof.
  revert σ. induction pkgs as [|p pkgs IH]; intros σ; simpl.
  { by rewrite add_written_nil. }
  unfold is_direct at 1. destruct (String.eqb (Origin p) EmptyString); simpl.
  - apply IH.
  - rewrite bind_Some. unfold Fprintf_w at 1. cbv beta iota.
    by rewrite IH, add_written_add.
Qed.

Lemma findTrueVersion_no_gopath n p depth σ :
  gopaths c = [] → 0 ≤ Index (Origin p) "/vendor/" →
  ∃ σ', findTrueVersion c (S n) p depth σ
        = Some (Done [mkVersionOrigin (Revision p) (Revision p)] σ') ∧
        cwd σ' = cwd σ ∧ written σ' = written σ.
Proof.
  intros Hg Hi. cbn [findTrueVersion].
  rewrite bind_Some, lgf_run. cbv beta iota. rewrite bind_Some.
  unfold vendorRepo. rewrite Hg.
  destruct (Z.ltb_spec (Index (Origin p) "/vendor/") 0) as [?|_]; [lia|].
  cbn [vendorRepo_loop]. unfold mret at 1, Run_ret at 1. cbv beta iota.
  rewrite bind_Some, lgf_run. cbv beta iota. simpl String.eqb. cbv iota.
  eexists. split; [done|]. by destruct (verbose c).
Qed.

Lemma doShowVersion_loop_no_gopath n maxDepth chk pkgs σ :
  gopaths c = [] →
  Forall (λ p, is_direct p = true ∨ 0 ≤ Index (Origin p) "/vendor/") pkgs →
  ∃ σ', doShowVersion_loop c (S n) maxDepth chk (Some <$> pkgs) σ
        = Some (Done tt σ') ∧
        cwd σ' = cwd σ ∧
        written σ' =
        written σ +:+
        cat ((λ p, if is_direct p then list_row p else unknown_row p)
             <$> List.filter (selected chk) pkgs).
Proof.
  intros Hg Hall. revert σ.
  induction Hall as [|p pkgs Hp Hall IH]; intros σ.
  { exists σ. by rewrite append_nil_r. }
  cbn [fmap list_fmap doShowVersion_loop List.filter].
  unfold selected at 1.
  rewrite <- negb_orb.
  destruct (String.eqb chk EmptyString || String.eqb chk (Path p));
    cbn [negb]; [|apply IH].
  unfold is_direct at 1 in Hp. unfold is_direct at 1.
  destruct (String.eqb (Origin p) EmptyString) eqn:Ho.
  - rewrite bind_Some. unfold Fprintf_w at 1. cbv beta iota.
    fold (list_row p).
    destruct (IH (add_written (list_row p) σ)) as (σ' & -> & Hc & Hw).
    exists σ'. split; [done|]. split; [done|].
    rewrite Hw, written_add. cbn [fmap list_fmap]. rewrite cat_cons, Ho.
    by rewrite append_assoc.
  - destruct Hp as [?|Hi]; [done|].
    rewrite bind_Some.
    destruct (findTrueVersion_no_gopath n p maxDepth σ Hg Hi)
      as (σ1 & -> & Hc1 & Hw1).
    rewrite bind_Some, lgf_run. cbv beta iota.
    rewrite bind_Some. unfold Fprintf_w at 1. cbv beta iota.
    destruct (IH (add_written
                    (Path p +:+ tab +:+
                     shown_version
                       [mkVersionOrigin (Revision p) (Revision p)] +:+ tab
                     +:+ Origin p +:+ "@" +:+ Revision p +:+ nl)
                    (if verbose c
                     then log_Printf
                            ("true version of pkg=p.Path: " +:+
                             fmt_v (VersionOrigin_String <$>
                                    [mkVersionOrigin (Revision p)
                                       (Revision p)])) σ1
                     else σ1))) as (σ' & -> & Hc & Hw).
    exists σ'. split; [done|]. split.
    { rewrite Hc. simpl. by destruct (verbose c). }
    rewrite Hw, written_add. cbn [fmap list_fmap]. rewrite cat_cons, Ho.
    rewrite append_assoc.
    f_equal. by destruct (verbose c); simpl; rewrite Hw1.
Qed.

Lemma doList_loop_null pre rest σ :
  doList_loop ((Some <$> pre) ++ None :: rest) σ
  = Some (Fatal 2 (add_written (cat (list_row <$> pre)) σ)).
Proof.
  revert σ. induction pre as [|p pre IH]; intros σ; simpl.
  { by rewrite add_written_nil. }
  rewrite bind_Some. unfold Fprintf_w at 1. cbv beta iota.
  by rewrite IH, add_written_add.
Qed.

End VendorTables.

(** X21.  Without a GOPATH entry no origin repository is found:
    [doShowVersion] prints for every selected copy the version [UNKNOWN]
    beside its origin and revision, and for every selected package without
    origin its revision, in the order of the manifest.  ([-p] selects one
    path, no [-p] all of them.)  The process stays in its directory. *)
Theorem doShowVersion_without_gopath `{Vendor.Env}
    (c : Vendor.Config) (n : nat) (maxDepth : Z) (pkgToCheck : string)
    (σ σ1 : Vendor.State) (spec : Vendor.Spec)
    (pkgs : list Vendor.PkgSpec) :
  Vendor.gopaths c = [] →
  n ≠ 0%nat →
  Vendor.readSpec c 0 (Vendor.repo c) EmptyString σ
  = Some (Vendor.Done (Some spec) σ1) →
  Vendor.Pkgs spec = Some <$> pkgs →
  Forall (λ p, Vendor.is_direct p = true ∨
               0 ≤ Index (Vendor.Origin p) "/vendor/") pkgs →
  ∃ σ', Vendor.doShowVersion c n maxDepth pkgToCheck σ
        = Some (Vendor.Done tt σ') ∧
        Vendor.cwd σ' = Vendor.cwd σ ∧
        Vendor.written σ' =
        Vendor.written σ +:+
        cat ((λ p, if Vendor.is_direct p then Vendor.list_row p
                   else Vendor.unknown_row p)
             <$> List.filter (Vendor.selected pkgToCheck) pkgs).
Proof.
  intros Hg Hn Hread Hpk Hall. destruct n as [|n]; [done|].
  unfold Vendor.doShowVersion. rewrite bind_Some, Hread, Hpk.
  destruct (doShowVersion_loop_no_gopath c n maxDepth pkgToCheck pkgs σ1
              Hg Hall) as (σ' & -> & Hc & Hw).
  destruct (readSpec_worktree c 0 (Vendor.repo c) σ)
    as (r & Hr & Hc1 & Hw1 & _).
  rewrite Hread in Hr. injection Hr as <-. simpl in Hc1, Hw1.
  exists σ'. split; [done|]. by rewrite Hc, Hw, Hc1, Hw1.
Qed.

(** The fixture without GOPATH: [a] with its revision, [b] with
    [UNKNOWN]. *)
Lemma doShowVersion_without_gopath_witness :
  ∃ σ', Vendor.doShowVersion (H:=Vendor.Fixture.env)
          Vendor.Fixture.conf_no_gopath 5 5 EmptyString Vendor.Fixture.start
        = Some (Vendor.Done tt σ') ∧
        Vendor.cwd σ' = Vendor.cwd Vendor.Fixture.start ∧
        Vendor.written σ' =
        Vendor.written Vendor.Fixture.start +:+
        cat ((λ p, if Vendor.is_direct p then Vendor.list_row p
                   else Vendor.unknown_row p)
             <$> List.filter (Vendor.selected EmptyString)
                   [Vendor.Fixture.pkg_a; Vendor.Fixture.pkg_b]).
Proof.
  apply (doShowVersion_without_gopath (H:=Vendor.Fixture.env)
           Vendor.Fixture.conf_no_gopath 5 5 EmptyString
           Vendor.Fixture.start Vendor.Fixture.start Vendor.Fixture.spec_top
           [Vendor.Fixture.pkg_a; Vendor.Fixture.pkg_b]).
  - reflexivity.
  - lia.
  - vm_compute. reflexivity.
  - reflexivity.
  - repeat constructor; vm_compute; intros; discriminate.
Defined.

(** X22.  The three listing commands on a manifest without null entries:
    [doList] writes one row (path, revision) per package, in the order of
    the manifest; [doDirect] writes those of these rows whose package has
    no origin; [doIndirect] writes a row (path, origin) for each of the
    other packages.  So every package is in exactly one of the last two
    tables. *)
Theorem listing_commands `{Vendor.Env}
    (c : Vendor.Config) (σ σ1 : Vendor.State) (spec : Vendor.Spec)
    (pkgs : list Vendor.PkgSpec) :
  Vendor.readSpec c 0 (Vendor.repo c) EmptyString σ
  = Some (Vendor.Done (Some spec) σ1) →
  Vendor.Pkgs spec = Some <$> pkgs →
  Vendor.doList c σ
  = Some (Vendor.Done tt
      (Vendor.add_written (cat (Vendor.list_row <$> pkgs)) σ1)) ∧
  Vendor.doDirect c σ
  = Some (Vendor.Done tt
      (Vendor.add_written
         (cat (Vendor.list_row <$> List.filter Vendor.is_direct pkgs)) σ1)) ∧
  Vendor.doIndirect c σ
  = Some (Vendor.Done tt
      (Vendor.add_written
         (cat (Vendor.indirect_row <$>
               List.filter (λ p, negb (Vendor.is_direct p)) pkgs)) σ1)) ∧
  Vendor.cwd σ1 = Vendor.cwd σ ∧ Vendor.written σ1 = Vendor.written σ.
Proof.
  intros Hread Hpk.
  unfold Vendor.doList, Vendor.doDirect, Vendor.doIndirect.
  rewrite !bind_Some, Hread, Hpk.
  rewrite doList_loop_run, doDirect_loop_run, doIndirect_loop_run.
  destruct (readSpec_worktree c 0 (Vendor.repo c) σ)
    as (r & Hr & Hc1 & Hw1 & _).
  rewrite Hread in Hr. injection Hr as <-. done.
Qed.

(** The manifest of the fixture. *)
Lemma listing_commands_witness :
  Vendor.doList (H:=Vendor.Fixture.env) Vendor.Fixture.conf
    Vendor.Fixture.start
  = Some (Vendor.Done tt
      (Vendor.add_written
         (cat (Vendor.list_row <$>
               [Vendor.Fixture.pkg_a; Vendor.Fixture.pkg_b]))
         Vendor.Fixture.start)) ∧
  Vendor.doDirect (H:=Vendor.Fixture.env) Vendor.Fixture.conf
    Vendor.Fixture.start
  = Some (Vendor.Done tt
      (Vendor.add_written
         (cat (Vendor.list_row <$>
               List.filter Vendor.is_direct
                 [Vendor.Fixture.pkg_a; Vendor.Fixture.pkg_b]))
         Vendor.Fixture.start)) ∧
  Vendor.doIndirect (H:=Vendor.Fixture.env) Vendor.Fixture.conf
    Vendor.Fixture.start
  = Some (Vendor.Done tt
      (Vendor.add_written
         (cat (Vendor.indirect_row <$>
               List.filter (λ p, negb (Vendor.is_direct p))
                 [Vendor.Fixture.pkg_a; Vendor.Fixture.pkg_b]))
         Vendor.Fixture.start)) ∧
  Vendor.cwd Vendor.Fixture.start = Vendor.cwd Vendor.Fixture.start ∧
  Vendor.written Vendor.Fixture.start = Vendor.written Vendor.Fixture.start.
Proof.
  apply (listing_commands (H:=Vendor.Fixture.env) Vendor.Fixture.conf
           Vendor.Fixture.start Vendor.Fixture.start Vendor.Fixture.spec_top
           [Vendor.Fixture.pkg_a; Vendor.Fixture.pkg_b]).
  - vm_compute. reflexivity.
  - reflexivity.
Defined.

(** X23.  A [null] in the package list of the manifest: [doList] writes the
    rows of the entries before it and then ends in a panic (status 2), the
    nil pointer being dereferenced; no later entry is looked at. *)
Theorem doList_null_entry `{Vendor.Env}
    (c : Vendor.Config) (σ σ1 : Vendor.State) (spec : Vendor.Spec)
    (pre : list Vendor.PkgSpec) (rest : list (option Vendor.PkgSpec)) :
  Vendor.readSpec c 0 (Vendor.repo c) EmptyString σ
  = Some (Vendor.Done (Some spec) σ1) →
  Vendor.Pkgs spec = (Some <$> pre) ++ None :: rest →
  Vendor.doList c σ
  = Some (Vendor.Fatal 2
      (Vendor.add_written (cat (Vendor.list_row <$> pre)) σ1)).
Proof.
  intros Hread Hpk. unfold Vendor.doList.
  rewrite bind_Some, Hread, Hpk. apply doList_loop_null.
Qed.

(** The fixture with a [null] between [a] and [b]. *)
Lemma doList_null_entry_witness :
  Vendor.doList (H:=Vendor.Fixture.env_null) Vendor.Fixture.conf
    Vendor.Fixture.start
  = Some (Vendor.Fatal 2
      (Vendor.add_written (cat (Vendor.list_row <$> [Vendor.Fixture.pkg_a]))
         Vendor.Fixture.start)).
Proof.
  apply (doList_null_entry (H:=Vendor.Fixture.env_null) Vendor.Fixture.conf
           Vendor.Fixture.start Vendor.Fixture.start
           Vendor.Fixture.spec_null [Vendor.Fixture.pkg_a]
           [Some Vendor.Fixture.pkg_b]).
  - vm_compute. reflexivity.
  - reflexivity.
Defined.

Section VendorRepo.
Import Vendor.
Context `{Env}.
Variable c : Config.

Lemma slice_to_app (pre s : string) :
  slice_to (String.length pre) (pre +:+ s) = pre.
Proof.
  induction pre as [|a pre IH]; [done|].
  rewrite append_cons. simpl. by rewrite IH.
Qed.

Lemma vendorRepo_loop_first p gps σ :
  let dir gp := filepath_Join [gp; "src"; p] in
  let has gp :=
    fs_Stat (cwd σ) (filepath_Join [dir gp; "vendor/vendor.json"]) in
  ∃ σ', cwd σ' = cwd σ ∧ written σ' = written σ ∧
    (((∀ gp, gp ∈ gps → has gp = false) ∧
      vendorRepo_loop c p gps σ = Some (Done EmptyString σ')) ∨
     (∃ gps1 gp gps2,
        gps = gps1 ++ gp :: gps2 ∧
        (∀ g, g ∈ gps1 → has g = false) ∧ has gp = true ∧
        vendorRepo_loop c p gps σ = Some (Done (dir gp) σ'))).
Proof.
  intros dir has. subst has.
  revert σ. induction gps as [|gp gps IH]; intros σ.
  { exists σ. split; [done|]. split; [done|]. left.
    split; [|done]. by intros gp ?%elem_of_nil. }
  set (σ1 := if verbose c
             then log_Printf ("check vendor in path=" +:+ dir gp) σ
             else σ).
  assert (cwd σ1 = cwd σ) as Hc1 by (subst σ1; by destruct (verbose c)).
  assert (written σ1 = written σ) as Hw1
    by (subst σ1; by destruct (verbose c)).
  assert (vendorRepo_loop c p (gp :: gps) σ =
          if fs_Stat (cwd σ) (filepath_Join [dir gp; "vendor/vendor.json"])
          then Some (Done (dir gp) σ1)
          else vendorRepo_loop c p gps σ1) as ->.
  { cbn [vendorRepo_loop]. rewrite bind_Some, lgf_run. cbv beta iota zeta.
    rewrite bind_Some. unfold os_Stat. cbv beta iota.
    fold (dir gp). fold σ1. rewrite Hc1.
    by destruct (fs_Stat (cwd σ)
                   (filepath_Join [dir gp; "vendor/vendor.json"])). }
  destruct (fs_Stat (cwd σ) (filepath_Join [dir gp; "vendor/vendor.json"]))
    eqn:Hst.
  - exists σ1. split; [done|]. split; [done|]. right.
    exists [], gp, gps. split; [done|]. split; [|done].
    by intros g ?%elem_of_nil.
  - destruct (IH σ1) as (σ' & Hc & Hw & Hcases).
    exists σ'. rewrite Hc, Hw. split; [done|]. split; [done|].
    rewrite Hc1 in Hcases.
    destruct Hcases as [[Hno Hrun]|(gps1 & g & gps2 & -> & Hno & Hyes & Hrun)].
    + left. split; [|done]. by intros g [->|?]%elem_of_cons; [|apply Hno].
    + right. exists (gp :: gps1), g, gps2. split; [done|].
      split; [|done]. by intros g' [->|?]%elem_of_cons; [|apply Hno].
Qed.

End VendorRepo.

(** X24.  [vendorRepo] cuts the origin at its first ["/vendor/"] and walks
    the GOPATH entries in their order: it returns the directory
    [gp/src/pre] of the first entry under which [vendor/vendor.json]
    exists, and the empty string when there is none.  It changes neither
    the directory the process is in nor the table. *)
Theorem vendorRepo_first_gopath `{Vendor.Env}
    (c : Vendor.Config) (p : Vendor.PkgSpec) (pre rest : string)
    (σ : Vendor.State) :
  Vendor.Origin p = pre +:+ vendor_seg +:+ rest →
  Index (pre +:+ "/vendor") vendor_seg = -1 →
  let dir gp := Vendor.filepath_Join [gp; "src"; pre] in
  let has gp :=
    Vendor.fs_Stat (Vendor.cwd σ)
      (Vendor.filepath_Join [dir gp; "vendor/vendor.json"]) in
  ∃ σ', Vendor.cwd σ' = Vendor.cwd σ ∧
        Vendor.written σ' = Vendor.written σ ∧
    (((∀ gp, gp ∈ Vendor.gopaths c → has gp = false) ∧
      Vendor.vendorRepo c p σ = Some (Vendor.Done EmptyString σ')) ∨
     (∃ gps1 gp gps2,
        Vendor.gopaths c = gps1 ++ gp :: gps2 ∧
        (∀ g, g ∈ gps1 → has g = false) ∧ has gp = true ∧
        Vendor.vendorRepo c p σ = Some (Vendor.Done (dir gp) σ'))).
Proof.
  intros Ho Hpre. unfold Vendor.vendorRepo. rewrite Ho.
  change "/vendor/" with vendor_seg.
  rewrite (Index_first_vendor _ _ Hpre).
  destruct (Z.ltb_spec (Z.of_nat (String.length pre)) 0) as [?|_]; [lia|].
  rewrite Nat2Z.id, slice_to_app.
  apply (vendorRepo_loop_first c pre (Vendor.gopaths c) σ).
Qed.

(** The copy of [b] in the fixture: its origin is found under [/go]. *)
Lemma vendorRepo_first_gopath_witness :
  let dir gp :=
    Vendor.filepath_Join (Env:=Vendor.Fixture.env) [gp; "src"; "lib"] in
  let has gp :=
    Vendor.fs_Stat (Env:=Vendor.Fixture.env)
      (Vendor.cwd Vendor.Fixture.start)
      (Vendor.filepath_Join (Env:=Vendor.Fixture.env)
         [dir gp; "vendor/vendor.json"]) in
  ∃ σ', Vendor.cwd σ' = Vendor.cwd Vendor.Fixture.start ∧
        Vendor.written σ' = Vendor.written Vendor.Fixture.start ∧
    (((∀ gp, gp ∈ Vendor.gopaths Vendor.Fixture.conf → has gp = false) ∧
      Vendor.vendorRepo (H:=Vendor.Fixture.env) Vendor.Fixture.conf
        Vendor.Fixture.pkg_b Vendor.Fixture.start
      = Some (Vendor.Done EmptyString σ')) ∨
     (∃ gps1 gp gps2,
        Vendor.gopaths Vendor.Fixture.conf = gps1 ++ gp :: gps2 ∧
        (∀ g, g ∈ gps1 → has g = false) ∧ has gp = true ∧
        Vendor.vendorRepo (H:=Vendor.Fixture.env) Vendor.Fixture.conf
          Vendor.Fixture.pkg_b Vendor.Fixture.start
        = Some (Vendor.Done (dir gp) σ'))).
Proof.
  apply (vendorRepo_first_gopath (H:=Vendor.Fixture.env) Vendor.Fixture.conf
           Vendor.Fixture.pkg_b "lib" "b" Vendor.Fixture.start).
  - reflexivity.
  - vm_compute. reflexivity.
Defined.

(** X25.  A copy whose origin holds no ["/vendor/"] ends the process:
    [findTrueVersion] exits with status 1 in [vendorRepo], with a line in
    the log, before any directory or manifest is looked at. *)
Theorem findTrueVersion_origin_without_vendor `{Vendor.Env}
    (c : Vendor.Config) (n : nat) (p : Vendor.PkgSpec) (depth : Z)
    (σ : Vendor.State) :
  Index (Vendor.Origin p) vendor_seg < 0 →
  n ≠ 0%nat →
  ∃ σ', Vendor.findTrueVersion c n p depth σ = Some (Vendor.Fatal 1 σ') ∧
        Vendor.cwd σ' = Vendor.cwd σ ∧
        Vendor.written σ' = Vendor.written σ ∧
        Vendor.log_lines σ' ≠ Vendor.log_lines σ.
Proof.
  intros Hi Hn. destruct n as [|n]; [done|].
  cbn [Vendor.findTrueVersion]. rewrite bind_Some, lgf_run.
  cbv beta iota. rewrite bind_Some. unfold Vendor.vendorRepo.
  change "/vendor/" with vendor_seg.
  destruct (Z.ltb_spec (Index (Vendor.Origin p) vendor_seg) 0) as [_|?];
    [|lia].
  unfold Vendor.log_Fatalf. eexists. split; [done|].
  destruct (Vendor.verbose c); simpl; (split; [done|]); (split; [done|]).
  - rewrite <- (app_nil_r (Vendor.log_lines σ)) at 2.
    rewrite <- app_assoc. by intros ?%app_inv_head.
  - rewrite <- (app_nil_r (Vendor.log_lines σ)) at 2.
    by intros ?%app_inv_head.
Qed.

(** An entry copied from a place that is no vendor directory. *)
Lemma findTrueVersion_origin_without_vendor_witness :
  ∃ σ', Vendor.findTrueVersion (H:=Vendor.Fixture.env) Vendor.Fixture.conf 1
          (Vendor.mkPkgSpec "b" "elsewhere/b" "r2" EmptyString EmptyString)
          5 Vendor.Fixture.start
        = Some (Vendor.Fatal 1 σ') ∧
        Vendor.cwd σ' = Vendor.cwd Vendor.Fixture.start ∧
        Vendor.written σ' = Vendor.written Vendor.Fixture.start ∧
        Vendor.log_lines σ' ≠ Vendor.log_lines Vendor.Fixture.start.
Proof.
  apply (findTrueVersion_origin_without_vendor (H:=Vendor.Fixture.env)
           Vendor.Fixture.conf 1
           (Vendor.mkPkgSpec "b" "elsewhere/b" "r2" EmptyString EmptyString)
           5 Vendor.Fixture.start).
  - vm_compute. reflexivity.
  - lia.
Defined.
